(** * TVStream: the fetch / cache / EPG core of the IPTV client

    A shallow embedding of [src/lib/services/IPTVFetchService.ts] and
    [src/lib/services/M3UService.ts], followed by the properties of the
    design document that concern them.

    Conventions of the embedding.
    - A JavaScript number that holds a time or a count is a [Z] or a [nat].
    - A JavaScript string is a [string]; the code units are those below
      128.  The names and ids of channels are read with accented letters
      as well: such a [string] holds UTF-8 bytes, and [toLowerCase],
      [normalize] and the patterns of [normalizeChannelName] are given on
      the characters below U+0100 ([Names.latin1]).
    - An [async] method is a function on an explicit world; a rejected
      promise is the [Threw] outcome, a fulfilled one is [Returned]. *)

From Stdlib Require Import ZArith String Ascii List Bool Lia DecimalString Sorted.
From stdpp Require Import base option gmap strings list.
Import ListNotations.
Open Scope Z_scope.
Set Warnings "-register-all".

(* ===================================================================== *)
(** * Part I. The embedding                                               *)
(* ===================================================================== *)

(** ** Outcomes of calls *)

(** What a call of a (possibly async) method produces: the value it
    returns, the error it throws, or nothing at all when its promise never
    settles.  Errors are carried as their message. *)
Inductive Outcome (A : Type) : Type :=
  | Returned (a : A)
  | Threw (message : string)
  | Pending.
Arguments Returned {A} a.
Arguments Threw {A} message.
Arguments Pending {A}.

(** ** JavaScript values and string methods *)

Module Js.

(** [String.prototype.startsWith], [includes] and [trim]. *)
Fixpoint startsWith (s p : string) {struct p} : bool :=
  match p with
  | EmptyString => true
  | String a p' =>
      match s with
      | EmptyString => false
      | String b s' => Ascii.eqb a b && startsWith s' p'
      end
  end.

Fixpoint includes (s sub : string) : bool :=
  startsWith s sub ||
  match s with
  | EmptyString => false
  | String _ rest => includes rest sub
  end.

(** [toLowerCase] on the characters below U+0100.  The letters [A] to
    [Z] move by 32.  The letters U+00C0 to U+00DE, without the sign U+00D7,
    are the bytes [C3 80] to [C3 9E] without [C3 97]: their second byte
    moves by 32.  No other character below U+0100 has a lower case of its
    own. *)
Definition lower_char (c : ascii) : ascii :=
  let n := nat_of_ascii c in
  if ((65 <=? n) && (n <=? 90))%nat then ascii_of_nat (n + 32) else c.

Definition lower_second_byte (d : ascii) : ascii :=
  let n := nat_of_ascii d in
  if ((128 <=? n) && (n <=? 158) && negb (n =? 151))%nat
  then ascii_of_nat (n + 32) else d.

Fixpoint toLowerCase (s : string) : string :=
  match s with
  | EmptyString => EmptyString
  | String c rest =>
      if Ascii.eqb c "195" then
        match rest with
        | String d rest' => String c (String (lower_second_byte d) (toLowerCase rest'))
        | EmptyString => String c EmptyString
        end
      else String (lower_char c) (toLowerCase rest)
  end.

(** White space and line terminators: tab, line feed, vertical tab, form
    feed, carriage return, space. *)
Definition is_space (c : ascii) : bool :=
  let n := nat_of_ascii c in
  (((9 <=? n) && (n <=? 13)) || (n =? 32))%nat.

Fixpoint trimStart (s : string) : string :=
  match s with
  | EmptyString => EmptyString
  | String c rest => if is_space c then trimStart rest else s
  end.

Fixpoint trimEnd (s : string) : string :=
  match s with
  | EmptyString => EmptyString
  | String c rest =>
      match trimEnd rest with
      | EmptyString => if is_space c then EmptyString else String c EmptyString
      | kept => String c kept
      end
  end.

Definition trim (s : string) : string := trimEnd (trimStart s).

(** [s.split(sep)] for a separator of one character. *)
Fixpoint split (sep : ascii) (s : string) : list string :=
  match s with
  | EmptyString => [EmptyString]
  | String c rest =>
      if Ascii.eqb c sep then EmptyString :: split sep rest
      else match split sep rest with
           | part :: parts => String c part :: parts
           | [] => [String c EmptyString]
           end
  end.

(** [Number.prototype.toString] on the naturals and integers. *)
Definition nat_toString (n : nat) : string :=
  NilEmpty.string_of_uint (Nat.to_uint n).

(** A value produced by [JSON.parse], or a string read from a response:
    what the fetch layer hands to its callers under the type [any]. *)
Inductive JSON : Type :=
  | JNull
  | JBool (b : bool)
  | JNum (n : Z)
  | JStr (s : string)
  | JArr (items : list JSON)
  | JObj (fields : list (string * JSON)).

End Js.

(** ** Configuration ([IPTVFetchConfig], [DEFAULT_CONFIG]) *)

Record IPTVFetchConfig : Type := {
  maxRetries : nat;
  initialDelay : Z;
  cacheTime : Z;
  useProxy : bool;
  rateLimitDelay : Z;
  maxConcurrentRequests : nat
}.

Definition DEFAULT_CONFIG : IPTVFetchConfig := {|
  maxRetries := 3;
  initialDelay := 1000;
  cacheTime := 3600000;
  useProxy := true;
  rateLimitDelay := 500;
  maxConcurrentRequests := 2
|}.

(** ** The cache-aside store ([getCachedOrFetch]) *)

Module Cache.

  (** [CacheItem<T>] *)
Record CacheItem (T : Type) : Type := { data : T; timestamp : Z }.
Arguments data {T} _.
Arguments timestamp {T} _.

  (** A row of the Dexie table [db.settings]; its primary key is [key], so
      the table is a finite map from keys to the other two columns and
      [put] replaces the row of its key. *)
Record Settings : Type := { value : string; updatedAt : Z }.

  (** What a producer can see and change: the settings table, the clock
    read by [Date.now()], and whatever lies outside the cache (the network,
    the limiter), of type [N]. *)
Record Env (N : Type) : Type := {
  settings : gmap string Settings;
  now : Z;
  outside : N
}.
Arguments settings {N} _.
Arguments now {N} _.
Arguments outside {N} _.

(** The world of a call adds a counter of the producer invocations made
    by [getCachedOrFetch]; a producer has type [Env N -> _] and cannot
    touch it. *)
Record World (N : Type) : Type := {
  env : Env N;
  producerCalls : nat
}.
Arguments env {N} _.
Arguments producerCalls {N} _.

Definition at_time {N : Type} (t : Z) (w : World N) : World N :=
  {| env := {| settings := settings (env w); now := t; outside := outside (env w) |};
     producerCalls := producerCalls w |}.

Section GetCachedOrFetch.
Context {N T : Type}.
(** [JSON.stringify] and [JSON.parse] on cache items.  [JSON_parse]
    answers [None] where the source throws or where the parsed
    object carries no numeric [timestamp] (the comparison with NaN
    is false): both cases fall through to the fetch. *)
Variable JSON_stringify : CacheItem T -> string.
Variable JSON_parse : string -> option (CacheItem T).
Variable config : IPTVFetchConfig.

Definition cache_key (cacheKey : string) : string :=
  ("cache:" ++ cacheKey)%string.

(** The first half of the method: the cached payload when the entry
    is there, parses and is younger than [cacheTime]. *)
Definition cached (cacheKey : string) (e : Env N) : option T :=
  match settings e !! cache_key cacheKey with
  | Some cacheItem =>
      match JSON_parse (value cacheItem) with
      | Some cachedData =>
          if now e - timestamp cachedData <? cacheTime config
          then Some (data cachedData)
          else None
      | None => None
      end
  | None => None
  end.

Definition put_fresh (cacheKey : string) (freshData : T) (e : Env N) : Env N :=
  {| settings :=
       <[ cache_key cacheKey :=
            {| value := JSON_stringify {| data := freshData; timestamp := now e |};
               updatedAt := now e |} ]> (settings e);
     now := now e;
     outside := outside e |}.

Definition getCachedOrFetch (cacheKey : string)
    (fetchFn : Env N -> Outcome T * Env N) (w : World N) : Outcome T * World N :=
  match cached cacheKey (env w) with
  | Some payload => (Returned payload, w)
  | None =>
      match fetchFn (env w) with
      | (Returned freshData, e') =>
          (Returned freshData,
           {| env := put_fresh cacheKey freshData e';
              producerCalls := S (producerCalls w) |})
      | (Threw error, e') =>
          (Threw error, {| env := e'; producerCalls := S (producerCalls w) |})
      | (Pending, e') =>
          (Pending, {| env := e'; producerCalls := S (producerCalls w) |})
      end
  end.
End GetCachedOrFetch.

End Cache.

(** ** The concurrency limiter ([enqueueRequest]) *)

Module Limiter.

(** A caller of [enqueueRequest], named by a number. *)
Definition Caller : Type := nat.

(** The module-level variables [activeRequests] and [requestQueue], and
    what the runtime holds for the callers.  [resolved] lists the queued
    callers whose promise has been resolved and whose continuation after
    [await promise] has not run yet; [inFlight] lists the callers that
    are between [activeRequests++] and their [finally] block.  The last
    two fields are histories: the callers in the order of their calls,
    and in the order in which they passed [activeRequests++]. *)
Record State : Type := {
  activeRequests : nat;
  requestQueue : list Caller;
  resolved : list Caller;
  inFlight : list Caller;
  arrivals : list Caller;
  granted : list Caller
}.

Definition initial : State :=
  {| activeRequests := 0; requestQueue := []; resolved := [];
     inFlight := []; arrivals := []; granted := [] |}.

Fixpoint remove_first (c : Caller) (l : list Caller) : list Caller :=
  match l with
  | [] => []
  | x :: rest => if Nat.eqb x c then rest else x :: remove_first c rest
  end.

Section EnqueueRequest.
Variable config : IPTVFetchConfig.

(** [activeRequests++] and the entry into the [try] block. *)
Definition proceed (c : Caller) (s : State) : State :=
  {| activeRequests := S (activeRequests s);
     requestQueue := requestQueue s;
     resolved := resolved s;
     inFlight := inFlight s ++ [c];
     arrivals := arrivals s;
     granted := granted s ++ [c] |}.

(** A call of [enqueueRequest], up to its first suspension: at the limit
    the caller pushes its entry on the queue and waits, otherwise it
    proceeds at once. *)
Definition enter (c : Caller) (s : State) : State :=
  if (maxConcurrentRequests config <=? activeRequests s)%nat then
    {| activeRequests := activeRequests s;
       requestQueue := requestQueue s ++ [c];
       resolved := resolved s;
       inFlight := inFlight s;
       arrivals := arrivals s ++ [c];
       granted := granted s |}
  else
    proceed c
      {| activeRequests := activeRequests s;
         requestQueue := requestQueue s;
         resolved := resolved s;
         inFlight := inFlight s;
         arrivals := arrivals s ++ [c];
         granted := granted s |}.

(** The [finally] block of caller [c]: [activeRequests--], then
    [requestQueue.shift()] and [next.resolve()] when the queue is not
    empty. *)
Definition finally_block (c : Caller) (s : State) : State :=
  match requestQueue s with
  | [] =>
      {| activeRequests := Nat.pred (activeRequests s);
         requestQueue := [];
         resolved := resolved s;
         inFlight := remove_first c (inFlight s);
         arrivals := arrivals s;
         granted := granted s |}
  | next :: rest =>
      {| activeRequests := Nat.pred (activeRequests s);
         requestQueue := rest;
         resolved := resolved s ++ [next];
         inFlight := remove_first c (inFlight s);
         arrivals := arrivals s;
         granted := granted s |}
  end.

(** The continuation of the oldest resolved waiter: it leaves
    [await promise] and proceeds. *)
Definition resume (s : State) : State :=
  match resolved s with
  | [] => s
  | c :: rest =>
      proceed c
        {| activeRequests := activeRequests s;
           requestQueue := requestQueue s;
           resolved := rest;
           inFlight := inFlight s;
           arrivals := arrivals s;
           granted := granted s |}
  end.

(** The instants of a run.  The wrapped request of any caller in flight
    may settle at any time.  [next.resolve()] only makes the continuation
    of the waiter runnable: it runs in a later microtask, after the
    microtasks that were queued before it, and one of those may be a call
    of [enqueueRequest].  A call can therefore come at any instant, also
    between a [finally] block and the continuation of the waiter that it
    resolved. *)
Inductive step : State -> State -> Prop :=
  | step_call (c : Caller) (s : State) :
      step s (enter c s)
  | step_settle (c : Caller) (s : State) :
      In c (inFlight s) -> step s (finally_block c s)
  | step_resume (s : State) :
      resolved s <> [] -> step s (resume s).

Inductive reachable : State -> Prop :=
  | reachable_initial : reachable initial
  | reachable_step (s s' : State) : reachable s -> step s s' -> reachable s'.

(** The orderly runs: those in which no call is made while a resolved
    waiter has not resumed. *)
Inductive orderly_step : State -> State -> Prop :=
  | orderly_call (c : Caller) (s : State) :
      resolved s = [] -> orderly_step s (enter c s)
  | orderly_settle (c : Caller) (s : State) :
      In c (inFlight s) -> orderly_step s (finally_block c s)
  | orderly_resume (s : State) :
      resolved s <> [] -> orderly_step s (resume s).

Inductive orderly : State -> Prop :=
  | orderly_initial : orderly initial
  | orderly_next (s s' : State) : orderly s -> orderly_step s s' -> orderly s'.

(** Jobs of an orderly run: a call, or the settling of a request followed
    by its [finally] block, each followed by the continuations of the
    waiters that it resolved. *)
Inductive Job : Type :=
  | Call (c : Caller)
  | Settle (c : Caller).

Fixpoint resume_times (n : nat) (s : State) : State :=
  match n with
  | O => s
  | S n' => resume_times n' (resume s)
  end.

Definition drain (s : State) : State := resume_times (length (resolved s)) s.

Definition exec_job (j : Job) (s : State) : option State :=
  match j with
  | Call c => Some (drain (enter c s))
  | Settle c =>
      if existsb (Nat.eqb c) (inFlight s)
      then Some (drain (finally_block c s))
      else None
  end.

Fixpoint exec_jobs (js : list Job) (s : State) : option State :=
  match js with
  | [] => Some s
  | j :: rest =>
      match exec_job j s with
      | Some s' => exec_jobs rest s'
      | None => None
      end
  end.

Definition is_settle (j : Job) : bool :=
  match j with Settle _ => true | Call _ => false end.

Definition settles (js : list Job) : nat := length (List.filter is_settle js).

End EnqueueRequest.
End Limiter.

(** ** The retrying fetcher ([fetchWithRetry], [fetchWithProxy],
       [fetchEPGXMLDirect], [fetchEPGXML]) *)

Module Fetch.
Import Js.

(** The fields of a service object. *)
Inductive IPTVProviderType : Type := xtream | m3u_url.

Record Service : Type := {
  baseUrl : string;
  username : string;
  password : string;
  type : IPTVProviderType
}.

(** The ways in which [window.fetch] is called: on the URL itself, on the
    rewrite proxy, on one of the public relays. *)
Inductive Transport : Type :=
  | Direct
  | CustomProxy
  | CorsProxy (proxyUrl : string).

(** What a call of [window.fetch] gives: a rejection, or a response with
    its [ok] flag, its content type and its body. *)
Inductive Response : Type :=
  | NetworkError
  | Status (ok : bool) (contentType : string) (body : string).

(** What [ProxyService.fetchWithProxy] gives. *)
Inductive ProxyResponse : Type :=
  | ProxyError
  | ProxyResult (success : bool) (data : JSON).

(** What a run leaves behind, in order. *)
Inductive Event : Type :=
  | Slept (ms : Z)
  | Fetched (t : Transport) (url : string)
  | ProxyFetched (url : string).

(** The limiter's two variables, and the events so far.  A queue entry is
    named by the URL and retry count of the attempt that waits. *)
Record World : Type := {
  activeRequests : nat;
  requestQueue : list (string * nat);
  trace : list Event
}.

Definition idle : World :=
  {| activeRequests := 0; requestQueue := []; trace := [] |}.

Section FetchWithRetry.
Variable config : IPTVFetchConfig.
Variable JSON_parse : string -> option JSON.
(** The network: the answer to a request, given all that happened before. *)
Variable fetch : list Event -> Transport -> string -> Response.
Variable proxyService : list Event -> string -> ProxyResponse.

Definition sleep (ms : Z) (w : World) : World :=
  {| activeRequests := activeRequests w;
     requestQueue := requestQueue w;
     trace := trace w ++ [Slept ms] |}.

Definition window_fetch (t : Transport) (url : string) (w : World) : Response * World :=
  (fetch (trace w) t url,
   {| activeRequests := activeRequests w;
      requestQueue := requestQueue w;
      trace := trace w ++ [Fetched t url] |}).

Definition proxyService_fetchWithProxy (url : string) (w : World) : ProxyResponse * World :=
  (proxyService (trace w) url,
   {| activeRequests := activeRequests w;
      requestQueue := requestQueue w;
      trace := trace w ++ [ProxyFetched url] |}).

(** [enqueueRequest] along one chain of calls.  At the limit the caller
    pushes its entry and waits for a [finally] block to resolve it; the
    slots of an idle limiter are all held by the callers that enclose this
    call and wait for it, so the wait has no end.  Below the limit the
    wrapped request runs after the pacing delay, and the [finally] block
    follows once it has settled. *)
Definition finally_block (w : World) : World :=
  {| activeRequests := Nat.pred (activeRequests w);
     requestQueue := tl (requestQueue w);
     trace := trace w |}.

Definition enqueueRequest {A : Type} (entry : string * nat)
    (request : World -> Outcome A * World) (w : World) : Outcome A * World :=
  if (maxConcurrentRequests config <=? activeRequests w)%nat then
    (Pending,
     {| activeRequests := activeRequests w;
        requestQueue := requestQueue w ++ [entry];
        trace := trace w |})
  else
    match request (sleep (rateLimitDelay config)
                     {| activeRequests := S (activeRequests w);
                        requestQueue := requestQueue w;
                        trace := trace w |}) with
    | (Pending, w') => (Pending, w')
    | (settled, w') => (settled, finally_block w')
    end.

(** Content negotiation of the first two transports.  [None] stands for
    the exception of [response.json()], caught by the enclosing [try]. *)
Definition text_or_json (text : string) : JSON :=
  if startsWith (trim text) "{" || startsWith (trim text) "["
  then match JSON_parse text with Some j => j | None => JStr text end
  else JStr text.

Definition try_transport (t : Transport) (url : string) (w : World) : option JSON * World :=
  match window_fetch t url w with
  | (Status true contentType body, w') =>
      if includes contentType "application/json"
      then (JSON_parse body, w')
      else (Some (text_or_json body), w')
  | (_, w') => (None, w')
  end.

Definition corsProxies : list string :=
  [ "https://api.allorigins.win/raw?url=";
    "https://corsproxy.io/?";
    "https://cors-anywhere.herokuapp.com/" ]%string.

Fixpoint try_corsProxies (proxies : list string) (url : string) (w : World)
    : Outcome JSON * World :=
  match proxies with
  | [] => (Threw "All proxy attempts failed", w)
  | proxyUrl :: rest =>
      match window_fetch (CorsProxy proxyUrl) url w with
      | (Status true _ text, w') =>
          (Returned match JSON_parse text with Some j => j | None => JStr text end, w')
      | (_, w') => try_corsProxies rest url w'
      end
  end.

Definition fetchWithProxy (url : string) (w : World) : Outcome JSON * World :=
  match proxyService_fetchWithProxy url w with
  | (ProxyResult true data, w') => (Returned data, w')
  | (_, w') => try_corsProxies corsProxies url w'
  end.

Definition retries_message : string :=
  ("Failed to fetch after " ++ nat_toString (maxRetries config) ++ " retries")%string.

(** [fetchWithRetry].  The recursion is on the retries left; [fuel] is
    one more than [maxRetries - retryCount] in [fetchWithRetry] below, so
    that its last case is never reached. *)
Fixpoint fetchWithRetry_fuel (fuel : nat) (url : string) (retryCount : nat)
    (w : World) {struct fuel} : Outcome JSON * World :=
  enqueueRequest (url, retryCount)
    (fun w1 =>
       if includes url "xmltv.php" then
         match window_fetch Direct url w1 with
         | (Status true _ body, w2) => (Returned (JStr body), w2)
         | (_, w2) => (Returned JNull, w2)
         end
       else
         match try_transport CustomProxy url w1 with
         | (Some v, w2) => (Returned v, w2)
         | (None, w2) =>
         match try_transport Direct url w2 with
         | (Some v, w3) => (Returned v, w3)
         | (None, w3) =>
         match (if useProxy config
                then match fetchWithProxy url w3 with
                     | (Returned v, w4) => (Some v, w4)
                     | (_, w4) => (None, w4)
                     end
                else (None, w3)) with
         | (Some v, w4) => (Returned v, w4)
         | (None, w4) =>
             if (retryCount <? maxRetries config)%nat then
               match fuel with
               | O => (Pending, w4)
               | S fuel' =>
                   fetchWithRetry_fuel fuel' url (S retryCount)
                     (sleep (initialDelay config * 2 ^ Z.of_nat retryCount) w4)
               end
             else (Threw retries_message, w4)
         end end end)
    w.

Definition fetchWithRetry (url : string) (retryCount : nat) (w : World)
    : Outcome JSON * World :=
  fetchWithRetry_fuel (S (maxRetries config - retryCount)) url retryCount w.

Variable this : Service.

Definition epgUrl : string :=
  (baseUrl this ++ "/xmltv.php?username=" ++ username this
   ++ "&password=" ++ password this ++ "&type=m3u_plus&output=ts")%string.

(** [fetchEPGXMLDirect]: one request outside the limiter; every failure
    is turned into [null]. *)
Definition fetchEPGXMLDirect (w : World) : option string * World :=
  match window_fetch Direct epgUrl w with
  | (Status true _ xmlText, w') =>
      if String.eqb xmlText "" || negb (includes xmlText "<?xml")
      then (None, w')
      else (Some xmlText, w')
  | (_, w') => (None, w')
  end.

Definition fetchEPGXML (w : World) : Outcome (option string) * World :=
  match fetchEPGXMLDirect w with
  | (Some directXml, w') => (Returned (Some directXml), w')
  | (None, w') =>
      match fetchWithRetry epgUrl 0 w' with
      | (Returned (JStr response), w'') =>
          if includes response "<?xml"
          then (Returned (Some response), w'')
          else (Returned None, w'')
      | (Returned _, w'') => (Returned None, w'')
      | (Threw _, w'') => (Returned None, w'')
      | (Pending, w'') => (Pending, w'')
      end
  end.

End FetchWithRetry.

(** A network on which every request fails. *)
Definition dead_network : list Event -> Transport -> string -> Response :=
  fun _ _ _ => NetworkError.

Definition dead_proxy : list Event -> string -> ProxyResponse :=
  fun _ _ => ProxyError.

Definition is_backoff_or_proxy (rateLimit : Z) (e : Event) : bool :=
  match e with
  | Slept ms => negb (ms =? rateLimit)
  | Fetched Direct _ => false
  | Fetched _ _ => true
  | ProxyFetched _ => true
  end.

End Fetch.

(** ** The runtime of the guide: arrays, dates, documents *)

Module Runtime.
Import Js.

(** [Array.prototype.sort] with a comparator.  The comparator answers a
    number or NaN ([None]); the standard reads NaN as zero.  The sort is
    stable; it is written here as an insertion sort, which is what every
    conforming sort computes when the comparator is consistent. *)
Section Sort.
Context {A : Type}.
Variable comparefn : A -> A -> option Z.

Definition sortCompare (x y : A) : Z :=
  match comparefn x y with
  | Some v => v
  | None => 0
  end.

Fixpoint insert_sorted (x : A) (l : list A) : list A :=
  match l with
  | [] => [x]
  | y :: rest =>
      if 0 <? sortCompare x y then y :: insert_sorted x rest else x :: l
  end.

Fixpoint sort (l : list A) : list A :=
  match l with
  | [] => []
  | x :: rest => insert_sorted x (sort rest)
  end.
End Sort.

(** Reading decimal fields. *)
Definition digit_value (c : ascii) : option Z :=
  let n := nat_of_ascii c in
  if ((48 <=? n) && (n <=? 57))%nat then Some (Z.of_nat (n - 48)) else None.

Fixpoint read_digits (count : nat) (s : string) (acc : Z) : option (Z * string) :=
  match count with
  | O => Some (acc, s)
  | S k =>
      match s with
      | String c rest =>
          match digit_value c with
          | Some d => read_digits k rest (acc * 10 + d)
          | None => None
          end
      | EmptyString => None
      end
  end.

Definition expect (c : ascii) (s : string) : option string :=
  match s with
  | String c' rest => if Ascii.eqb c c' then Some rest else None
  | EmptyString => None
  end.

(** Days between 1970-01-01 and a date of the proleptic Gregorian
    calendar. *)
Definition days_from_civil (y m d : Z) : Z :=
  let y' := if m <=? 2 then y - 1 else y in
  let era := y' / 400 in
  let yoe := y' - era * 400 in
  let mp := if 2 <? m then m - 3 else m + 9 in
  let doy := (153 * mp + 2) / 5 + d - 1 in
  let doe := yoe * 365 + yoe / 4 - yoe / 100 + doy in
  era * 146097 + doe - 719468.

(** A number written with exactly [count] digits: no digit follows. *)
Definition starts_with_digit (s : string) : bool :=
  match s with
  | String c _ => match digit_value c with Some _ => true | None => false end
  | EmptyString => false
  end.

Definition read_fixed (count : nat) (s : string) : option (Z * string) :=
  '(v, rest) ← read_digits count s 0;
  if starts_with_digit rest then None else Some (v, rest).

(** The digits at the head of a string, and what follows them. *)
Fixpoint leading_digits (s : string) : string * string :=
  match s with
  | String c rest =>
      match digit_value c with
      | Some _ => let (ds, rest') := leading_digits rest in (String c ds, rest')
      | None => (EmptyString, s)
      end
  | EmptyString => (EmptyString, EmptyString)
  end.

Fixpoint all_zeros (s : string) : bool :=
  match s with
  | String c rest => Ascii.eqb c "0" && all_zeros rest
  | EmptyString => true
  end.

(** The fraction of a second: one digit or more, of which the first
    three count. *)
Definition read_milliseconds (s : string) : option (Z * bool * string) :=
  match leading_digits s with
  | (EmptyString, _) => None
  | (fraction, rest) =>
      '(ms, _) ← read_digits 3 (fraction ++ "00") 0;
      Some (ms, all_zeros fraction, rest)
  end.

(** The month and the day, each optional. *)
Definition read_month_day (s : string) : option (Z * Z * string) :=
  match s with
  | String "-" rest =>
      '(mo, rest) ← read_fixed 2 rest;
      if (1 <=? mo) && (mo <=? 12) then
        match rest with
        | String "-" rest' =>
            '(d, rest') ← read_fixed 2 rest';
            if (1 <=? d) && (d <=? 31) then Some (mo, d, rest') else None
        | _ => Some (mo, 1, rest)
        end
      else None
  | _ => Some (1, 1, s)
  end.

(** The seconds and their fraction, each optional; with them, whether
    both are zero. *)
Definition read_seconds (s : string) : option (Z * Z * bool * string) :=
  match s with
  | String ":" rest =>
      '(sec, rest) ← read_fixed 2 rest;
      if sec <=? 59 then
        match rest with
        | String "." rest' =>
            '(ms, zeros, rest') ← read_milliseconds rest';
            Some (sec, ms, (sec =? 0) && zeros, rest')
        | _ => Some (sec, 0, sec =? 0, rest)
        end
      else None
  | _ => Some (0, 0, true, s)
  end.

(** The zone: [Z], or a sign with [hh:mm] or [hhmm], in minutes east of
    Greenwich.  A time without zone is a local time, which the embedding
    does not have. *)
Definition read_zone (s : string) : option Z :=
  match s with
  | String "Z" EmptyString => Some 0
  | String "z" EmptyString => Some 0
  | String sign rest =>
      if Ascii.eqb sign "+" || Ascii.eqb sign "-" then
        '(oh, om) ←
          match read_fixed 4 rest with
          | Some (hourmin, EmptyString) => Some (hourmin / 100, hourmin mod 100)
          | Some _ => None
          | None =>
              '(oh, rest) ← read_fixed 2 rest;
              rest ← expect ":" rest;
              '(om, rest) ← read_fixed 2 rest;
              match rest with
              | EmptyString => Some (oh, om)
              | _ => None
              end
          end;
        if (oh <=? 23) && (om <=? 59)
        then Some (if Ascii.eqb sign "+" then oh * 60 + om else - (oh * 60 + om))
        else None
      else None
  | EmptyString => None
  end.

(** [new Date(s).getTime()] on the date-time string format of the
    language standard as the engine of Chrome and Node reads it:
    [YYYY-MM-DDTHH:mm:ss.sss] followed by [Z] or by an offset [+HH:mm] or
    [-HH:mm], where the month, the day, the seconds and the fraction may
    be left out, the fraction has any number of digits, the offset may be
    written without its colon, the hour 24 is read at 24:00:00 only, and
    a day beyond the end of its month counts into the next month; a date
    without time is read at midnight, Greenwich time.  NaN ([None]) on
    any other string: the engines read further formats of their own, and
    the fourteen digits of an XMLTV time stamp are not among them. *)
Definition Date_getTime (s : string) : option Z :=
  '(y, s) ← read_fixed 4 s;
  '(mo, d, s) ← read_month_day s;
  let days := days_from_civil y mo d in
  match s with
  | EmptyString => Some (days * 24 * 60 * 60 * 1000)
  | String separator s =>
      if Ascii.eqb separator "T" || Ascii.eqb separator "t" then
        '(h, s) ← read_fixed 2 s;
        s ← expect ":" s;
        '(mi, s) ← read_fixed 2 s;
        '(sec, ms, zeros, s) ← read_seconds s;
        offset ← read_zone s;
        if ((h <=? 23) && (mi <=? 59)) || ((h =? 24) && (mi =? 0) && zeros)
        then Some ((((days * 24 + h) * 60 + mi - offset) * 60 + sec) * 1000 + ms)
        else None
      else None
  end.

(** A parsed XML document: elements with their attributes and children,
    and text. *)
Inductive Node : Type :=
  | Element (tagName : string) (attributes : list (string * string))
            (childNodes : list Node)
  | Text (data : string).

Definition getAttribute (name : string) (n : Node) : option string :=
  match n with
  | Element _ attributes _ =>
      match List.find (fun a => String.eqb (fst a) name) attributes with
      | Some a => Some (snd a)
      | None => None
      end
  | Text _ => None
  end.

Fixpoint textContent (n : Node) : string :=
  match n with
  | Text data => data
  | Element _ _ children =>
      (fix all (cs : list Node) : string :=
         match cs with
         | [] => EmptyString
         | c :: rest => (textContent c ++ all rest)%string
         end) children
  end.

(** The descendants of a node, in document order. *)
Fixpoint descendants (n : Node) : list Node :=
  match n with
  | Text _ => []
  | Element _ _ children =>
      (fix all (cs : list Node) : list Node :=
         match cs with
         | [] => []
         | c :: rest => c :: descendants c ++ all rest
         end) children
  end.

Definition has_tag (tag : string) (n : Node) : bool :=
  match n with
  | Element t _ _ => String.eqb t tag
  | Text _ => false
  end.

(** [element.getElementsByTagName] and [document.getElementsByTagName];
    the latter also sees the root element. *)
Definition getElementsByTagName (tag : string) (n : Node) : list Node :=
  List.filter (has_tag tag) (descendants n).

Definition document_getElementsByTagName (tag : string) (root : Node) : list Node :=
  List.filter (has_tag tag) (root :: descendants root).

End Runtime.

(** ** Channel names ([normalizeChannelName]) *)

Module Names.
Import Js.

(** The strings all of whose characters are below U+0100: bytes below
    128, and the pairs [C2 xx] and [C3 xx] with [xx] from 80 to BF. *)
Definition is_continuation (c : ascii) : bool :=
  let n := nat_of_ascii c in ((128 <=? n) && (n <=? 191))%nat.

Fixpoint latin1 (s : string) : bool :=
  match s with
  | EmptyString => true
  | String c rest =>
      if (nat_of_ascii c <? 128)%nat then latin1 rest
      else if Ascii.eqb c "194" || Ascii.eqb c "195" then
        match rest with
        | String d rest' => is_continuation d && latin1 rest'
        | EmptyString => false
        end
      else false
  end.

Definition is_line_terminator (c : ascii) : bool :=
  let n := nat_of_ascii c in ((n =? 10) || (n =? 13))%nat.

(** The class [\w]. *)
Definition is_word_char (c : ascii) : bool :=
  let n := nat_of_ascii c in
  (((48 <=? n) && (n <=? 57)) || ((65 <=? n) && (n <=? 90))
   || ((97 <=? n) && (n <=? 122)) || (n =? 95))%nat.

Definition is_digit (c : ascii) : bool :=
  let n := nat_of_ascii c in ((48 <=? n) && (n <=? 57))%nat.

(** The class [[a-z0-9]]. *)
Definition is_lower_alnum (c : ascii) : bool :=
  let n := nat_of_ascii c in
  (((48 <=? n) && (n <=? 57)) || ((97 <=? n) && (n <=? 122)))%nat.

(** The number of characters before the first [close], when it comes
    before any line terminator. *)
Fixpoint close_distance (close : ascii) (s : string) : option nat :=
  match s with
  | EmptyString => None
  | String c rest =>
      if Ascii.eqb c close then Some O
      else if is_line_terminator c then None
      else option_map S (close_distance close rest)
  end.

(** [s.replace(/\[.*?\]/g, '')] and [s.replace(/\(.*?\)/g, '')]: from an
    opening character to the nearest closing one on the same line.
    [skip] counts the characters of a match still to be dropped. *)
Fixpoint remove_delimited (open close : ascii) (skip : nat) (s : string) : string :=
  match s with
  | EmptyString => EmptyString
  | String c rest =>
      match skip with
      | S k => remove_delimited open close k rest
      | O =>
          if Ascii.eqb c open then
            match close_distance close rest with
            | Some k => remove_delimited open close (S k) rest
            | None => String c (remove_delimited open close O rest)
            end
          else String c (remove_delimited open close O rest)
      end
  end.

(** The alternatives of the quality pattern; between two [\b] they match
    whole words only. *)
Fixpoint digits_then_p (seen : bool) (w : string) : bool :=
  match w with
  | String "p" EmptyString => seen
  | String c rest => is_digit c && digits_then_p true rest
  | EmptyString => false
  end.

Definition is_quality_token (w : string) : bool :=
  existsb (String.eqb w) ["hd"; "sd"; "fhd"; "uhd"; "4k"; "8k"; "fullhd"; "alt"]%string
  || digits_then_p false w.

Definition flush_word (word : string) : string :=
  if is_quality_token word then EmptyString else word.

(** [s.replace(/\b(hd|sd|fhd|uhd|4k|8k|fullhd|alt|[0-9]+p)\b/g, '')];
    [word] is the word being read. *)
Fixpoint strip_quality (word : string) (s : string) : string :=
  match s with
  | EmptyString => flush_word word
  | String c rest =>
      if is_word_char c
      then strip_quality (word ++ String c EmptyString) rest
      else (flush_word word ++ String c (strip_quality EmptyString rest))%string
  end.

(** [s.replace(/\+/g, 'mais').replace(/&/g, 'e')] *)
Fixpoint spell_symbols (s : string) : string :=
  match s with
  | EmptyString => EmptyString
  | String c rest =>
      if Ascii.eqb c "+" then ("mais" ++ spell_symbols rest)%string
      else if Ascii.eqb c "&" then String "e" (spell_symbols rest)
      else String c (spell_symbols rest)
  end.

(** [s.normalize('NFD')] on the characters below U+0100.  The letters
    with a canonical decomposition are among U+00C0 to U+00FF, the bytes
    [C3 80] to [C3 BF]; the table gives, for the second byte, the base
    letter and the second byte of the combining mark, whose first byte is
    [CC]: grave [80], acute [81], circumflex [82], tilde [83], diaeresis
    [88], ring [8A], cedilla [A7]. *)
Definition decompositions : list (ascii * (ascii * ascii)) :=
  [ ("128", ("A", "128")); ("129", ("A", "129")); ("130", ("A", "130"));
    ("131", ("A", "131")); ("132", ("A", "136")); ("133", ("A", "138"));
    ("135", ("C", "167"));
    ("136", ("E", "128")); ("137", ("E", "129")); ("138", ("E", "130"));
    ("139", ("E", "136"));
    ("140", ("I", "128")); ("141", ("I", "129")); ("142", ("I", "130"));
    ("143", ("I", "136"));
    ("145", ("N", "131"));
    ("146", ("O", "128")); ("147", ("O", "129")); ("148", ("O", "130"));
    ("149", ("O", "131")); ("150", ("O", "136"));
    ("153", ("U", "128")); ("154", ("U", "129")); ("155", ("U", "130"));
    ("156", ("U", "136"));
    ("157", ("Y", "129"));
    ("160", ("a", "128")); ("161", ("a", "129")); ("162", ("a", "130"));
    ("163", ("a", "131")); ("164", ("a", "136")); ("165", ("a", "138"));
    ("167", ("c", "167"));
    ("168", ("e", "128")); ("169", ("e", "129")); ("170", ("e", "130"));
    ("171", ("e", "136"));
    ("172", ("i", "128")); ("173", ("i", "129")); ("174", ("i", "130"));
    ("175", ("i", "136"));
    ("177", ("n", "131"));
    ("178", ("o", "128")); ("179", ("o", "129")); ("180", ("o", "130"));
    ("181", ("o", "131")); ("182", ("o", "136"));
    ("185", ("u", "128")); ("186", ("u", "129")); ("187", ("u", "130"));
    ("188", ("u", "136"));
    ("189", ("y", "129")); ("191", ("y", "136")) ]%char.

Definition decomposition (d : ascii) : option (ascii * ascii) :=
  option_map snd (List.find (fun row => Ascii.eqb (fst row) d) decompositions).

Fixpoint normalize_NFD (s : string) : string :=
  match s with
  | EmptyString => EmptyString
  | String c rest =>
      if Ascii.eqb c "195" then
        match rest with
        | String d rest' =>
            match decomposition d with
            | Some (base, mark) =>
                String base (String "204" (String mark (normalize_NFD rest')))
            | None => String c (String d (normalize_NFD rest'))
            end
        | EmptyString => String c EmptyString
        end
      else String c (normalize_NFD rest)
  end.

(** [s.replace(/[\u0300-\u036f]/g, '')]: the marks U+0300 to U+036F are
    the pairs [CC 80] to [CC BF] and [CD 80] to [CD AF]. *)
Definition is_combining_mark (c d : ascii) : bool :=
  let n := nat_of_ascii d in
  (Ascii.eqb c "204" && (128 <=? n)%nat && (n <=? 191)%nat)
  || (Ascii.eqb c "205" && (128 <=? n)%nat && (n <=? 175)%nat).

Fixpoint remove_combining_marks (s : string) : string :=
  match s with
  | EmptyString => EmptyString
  | String c rest =>
      match rest with
      | String d rest' =>
          if is_combining_mark c d then remove_combining_marks rest'
          else String c (remove_combining_marks rest)
      | EmptyString => String c EmptyString
      end
  end.

(** [s.replace(/[^a-z0-9]/g, ' ')].  The pattern sees code units: a
    character of several bytes is one code unit, and so one space, its
    continuation bytes giving nothing; a character of four bytes is two
    code units. *)
Fixpoint blank_others (s : string) : string :=
  match s with
  | EmptyString => EmptyString
  | String c rest =>
      if is_continuation c then blank_others rest
      else if (240 <=? nat_of_ascii c)%nat
      then String " " (String " " (blank_others rest))
      else String (if is_lower_alnum c then c else " "%char) (blank_others rest)
  end.

(** [s.replace(/\s+/g, r)] for a replacement [r] of one character. *)
Fixpoint replace_spaces (r : ascii) (in_run : bool) (s : string) : string :=
  match s with
  | EmptyString => EmptyString
  | String c rest =>
      if is_space c
      then if in_run then replace_spaces r true rest
           else String r (replace_spaces r true rest)
      else String c (replace_spaces r false rest)
  end.

(** [normalizeChannelName], step by step.  The steps before
    [normalize] look for ASCII characters only and leave every other byte
    where it is. *)
Definition normalizeChannelName (name : string) : string :=
  let normalized := toLowerCase name in
  let normalized := remove_delimited "(" ")" O (remove_delimited "[" "]" O normalized) in
  let normalized := strip_quality EmptyString normalized in
  let normalized := spell_symbols normalized in
  let normalized := remove_combining_marks (normalize_NFD normalized) in
  let normalized := blank_others normalized in
  trim (replace_spaces " " false normalized).

End Names.

(** ** Parsing the guide ([parseEPGXML]) *)

Module Epg.
Import Js Runtime Names.

(** [EPGProgramType] *)
Record EPGProgramType : Type := {
  title : string;
  description : option string;
  startTime : string;
  endTime : string;
  channel : option string;
  category : option string;
  rating : option string;
  language : option string;
  program_icon : option string
}.

(** [EPGChannelType].  While the guide is parsed a channel object holds
    its [programs] array by reference: [P] is then the type of addresses
    in the heap of arrays.  For the callers of the parser [P] is the
    list of programmes itself. *)
Record EPGChannelType (P : Type) : Type := {
  id : string;
  name : string;
  icon : string;
  programs : P
}.
Arguments id {P} _.
Arguments name {P} _.
Arguments icon {P} _.
Arguments programs {P} _.

Abbreviation Address := nat (only parsing).

(** The arrays of programmes, by address; [push] and [sort] change an
    array in place. *)
Abbreviation Heap := (list (list EPGProgramType)) (only parsing).

Definition read (h : Heap) (a : Address) : list EPGProgramType :=
  match h !! a with
  | Some array => array
  | None => []
  end.

(** The local variables [channels] and [channelsMap] of the parser, and
    the heap.  The objects in the array and in the map are the same
    objects: they hold the same addresses. *)
Record ParseState : Type := {
  channels : list (EPGChannelType Address);
  channelsMap : gmap string (EPGChannelType Address);
  heap : Heap
}.

Definition first_text (tag : string) (element : Node) : option string :=
  match getElementsByTagName tag element with
  | e :: _ => Some (textContent e)
  | [] => None
  end.

(** A value kept only when it is truthy: a string that is there and is
    not empty. *)
Definition truthy (v : option string) : option string :=
  match v with
  | Some EmptyString => None
  | other => other
  end.

(** [!v] for an attribute or a text that may be missing. *)
Definition falsy (v : option string) : bool :=
  match truthy v with
  | Some _ => false
  | None => true
  end.

(** The body of the loop over the [channel] elements. *)
Definition add_channel (st : ParseState) (channelElement : Node) : ParseState :=
  match truthy (getAttribute "id" channelElement) with
  | None => st
  | Some channelId =>
      match truthy (first_text "display-name" channelElement) with
      | None => st
      | Some displayName =>
          let channelName := trim displayName in
          let channelIcon :=
            match getElementsByTagName "icon" channelElement with
            | iconElement :: _ =>
                match truthy (getAttribute "src" iconElement) with
                | Some src => src
                | None => EmptyString
                end
            | [] => EmptyString
            end in
          let channel :=
            {| id := channelId; name := channelName; icon := channelIcon;
               programs := length (heap st) |} in
          {| channels := channels st ++ [channel];
             channelsMap := <[channelId := channel]> (channelsMap st);
             heap := heap st ++ [[]] |}
      end
  end.

(** The special mapping of the A&E channel. *)
Definition is_aeChannel (c : EPGChannelType Address) : bool :=
  String.eqb (id c) "AE.br"
  || includes (toLowerCase (name c)) "a&e"
  || includes (toLowerCase (name c)) "a e".

Definition aeAlternativeIds : list string := ["br#a-e-hd"; "a-e-hd"]%string.

(** The body of the loop over [aeAlternativeIds]: the new channel gets a
    new array, filled with the programmes that the original holds at that
    moment ([[...aeChannel.programs]]). *)
Definition add_alternative (aeChannel : EPGChannelType Address)
    (st : ParseState) (altId : string) : ParseState :=
  match channelsMap st !! altId with
  | Some _ => st
  | None =>
      let altChannel :=
        {| id := altId; name := name aeChannel; icon := icon aeChannel;
           programs := length (heap st) |} in
      {| channels := channels st ++ [altChannel];
         channelsMap := <[altId := altChannel]> (channelsMap st);
         heap := heap st ++ [read (heap st) (programs aeChannel)] |}
  end.

Definition add_aeAlternatives (st : ParseState) : ParseState :=
  match List.find is_aeChannel (channels st) with
  | Some aeChannel => fold_left (add_alternative aeChannel) aeAlternativeIds st
  | None => st
  end.

(** The channel of a [programme] element: by its [channel] attribute,
    else by that attribute normalized as a name. *)
Definition resolve_channel (st : ParseState) (channelId : string)
    : option (EPGChannelType Address) :=
  match channelsMap st !! channelId with
  | Some c => Some c
  | None =>
      if String.eqb channelId "" then None
      else channelsMap st !! normalizeChannelName channelId
  end.

Definition attribute_or_empty (name : string) (element : Node) : string :=
  match getAttribute name element with
  | Some v => v
  | None => EmptyString
  end.

(** What the loop over the [programme] elements does with one element
    whose channel is known: the programme it pushes, or nothing when the
    element is ignored. *)
Definition program_of (channelName : string) (program : Node) : option EPGProgramType :=
  let title :=
    match truthy (first_text "title" program) with
    | Some t => t
    | None => EmptyString
    end in
  if String.eqb title ""
     || falsy (getAttribute "start" program)
     || falsy (getAttribute "stop" program)
  then None
  else
    Some {| title := title;
            description := truthy (first_text "desc" program);
            startTime := attribute_or_empty "start" program;
            endTime := attribute_or_empty "stop" program;
            channel := Some channelName;
            category := truthy (first_text "category" program);
            rating :=
              match getElementsByTagName "rating" program with
              | ratingElement :: _ => truthy (first_text "value" ratingElement)
              | [] => None
              end;
            language := truthy (first_text "language" program);
            program_icon :=
              match getElementsByTagName "icon" program with
              | iconElement :: _ => truthy (getAttribute "src" iconElement)
              | [] => None
              end |}.

Definition push (a : Address) (p : EPGProgramType) (h : Heap) : Heap :=
  alter (fun array => array ++ [p]) a h.

Definition add_program (st : ParseState) (program : Node) : ParseState :=
  let channelId := attribute_or_empty "channel" program in
  match resolve_channel st channelId with
  | Some channel =>
      match program_of (name channel) program with
      | Some programData =>
          {| channels := channels st;
             channelsMap := channelsMap st;
             heap := push (programs channel) programData (heap st) |}
      | None => st
      end
  | None => st
  end.

Section ParseEPGXML.
(** [new Date(s).getTime()], NaN being [None]. *)
Variable getTime : string -> option Z.

Definition by_startTime (a b : EPGProgramType) : option Z :=
  match getTime (startTime a), getTime (startTime b) with
  | Some timeA, Some timeB => Some (timeA - timeB)
  | _, _ => None
  end.

Definition sort_programs (h : Heap) (c : EPGChannelType Address) : Heap :=
  alter (sort by_startTime) (programs c) h.

(** The parser up to its [return channels]: the objects and the heap. *)
Definition parse_state (xmlDoc : Node) : ParseState :=
  let st := {| channels := []; channelsMap := ∅; heap := [] |} in
  let st := fold_left add_channel (document_getElementsByTagName "channel" xmlDoc) st in
  let st := add_aeAlternatives st in
  let st := fold_left add_program (document_getElementsByTagName "programme" xmlDoc) st in
  {| channels := channels st;
     channelsMap := channelsMap st;
     heap := fold_left sort_programs (channels st) (heap st) |}.

(** What the caller of the parser sees of a channel object. *)
Definition view (h : Heap) (c : EPGChannelType Address)
    : EPGChannelType (list EPGProgramType) :=
  {| id := id c; name := name c; icon := icon c; programs := read h (programs c) |}.

(** [parseEPGXML], on the document that [DOMParser] made of its
    argument. *)
Definition parseEPGXML (xmlDoc : Node) : list (EPGChannelType (list EPGProgramType)) :=
  match document_getElementsByTagName "parsererror" xmlDoc with
  | _ :: _ => []
  | [] =>
      let st := parse_state xmlDoc in
      map (view (heap st)) (channels st)
  end.

End ParseEPGXML.

(** [adjustEPGDate] of the channel list component, which the views apply
    to a time stamp before they hand it to [Date]:
    [/^(\d{4})(\d{2})(\d{2})(\d{2})(\d{2})(\d{2})\s+([+-]\d{4})$/] is
    rewritten to [YYYY-MM-DDTHH:MM:SS+HH:MM]; any other string is returned
    as it is. *)
Fixpoint take_digits (count : nat) (s : string) : option (string * string) :=
  match count with
  | O => Some (EmptyString, s)
  | S k =>
      match s with
      | String c rest =>
          if is_digit c
          then match take_digits k rest with
               | Some (ds, rest') => Some (String c ds, rest')
               | None => None
               end
          else None
      | EmptyString => None
      end
  end.

Definition adjustEPGDate (dateStr : string) : string :=
  let adjusted :=
    '(year, s) ← take_digits 4 dateStr;
    '(month, s) ← take_digits 2 s;
    '(day, s) ← take_digits 2 s;
    '(hour, s) ← take_digits 2 s;
    '(minute, s) ← take_digits 2 s;
    '(second, s) ← take_digits 2 s;
    match s with
    | String c _ =>
        if is_space c then
          match trimStart s with
          | String sign zone =>
              if Ascii.eqb sign "+" || Ascii.eqb sign "-" then
                '(timezoneHours, zone) ← take_digits 2 zone;
                '(timezoneMinutes, zone) ← take_digits 2 zone;
                match zone with
                | EmptyString =>
                    Some (year ++ "-" ++ month ++ "-" ++ day ++ "T" ++ hour ++ ":"
                          ++ minute ++ ":" ++ second ++ String sign timezoneHours
                          ++ ":" ++ timezoneMinutes)%string
                | _ => None
                end
              else None
          | EmptyString => None
          end
        else None
    | EmptyString => None
    end in
  match adjusted with
  | Some iso => iso
  | None => dateStr
  end.

(** XMLTV documents are written with these. *)
Definition tv (children : list Node) : Node := Element "tv" [] children.

Definition channel_element (channelId displayName : string) : Node :=
  Element "channel" [("id", channelId)]
    [Element "display-name" [] [Text displayName]].

Definition programme (channelId start stop : option string) (titleText : option string)
    : Node :=
  Element "programme"
    (match channelId with Some v => [("channel", v)] | None => [] end
     ++ match start with Some v => [("start", v)] | None => [] end
     ++ match stop with Some v => [("stop", v)] | None => [] end)
    (match titleText with
     | Some t => [Element "title" [] [Text t]]
     | None => []
     end).

End Epg.

(** ** Matching a name to a channel of the guide
       ([getKnownChannelMapping], [findMatchingChannel]) *)

Module Matching.
Import Js Runtime Names Epg.

(** The object literal [knownChannels], in the order of its entries. *)
Definition knownChannels : list (string * string) :=
  [ ("gnt", "GNT"); ("globo", "Globo"); ("sbt", "SBT"); ("record", "Record");
    ("band", "Band"); ("redetv", "RedeTV"); ("sportv", "SporTV"); ("espn", "ESPN");
    ("fox sports", "Fox Sports"); ("discovery", "Discovery Channel");
    ("history", "History Channel"); ("national geographic", "National Geographic");
    ("warner", "Warner"); ("universal", "Universal"); ("sony", "Sony"); ("fx", "FX");
    ("hbo", "HBO"); ("telecine", "Telecine"); ("megapix", "Megapix");
    ("space", "Space"); ("tnt", "TNT"); ("cartoon", "Cartoon Network");
    ("disney", "Disney Channel"); ("nick", "Nickelodeon"); ("mtv", "MTV");
    ("multishow", "Multishow"); ("bis", "BIS"); ("viva", "Viva");
    ("comedy central", "Comedy Central"); ("ae", "AE.br"); ("a e", "AE.br");
    ("a&e", "AE.br"); ("amc", "AMC"); ("animal planet", "Animal Planet");
    ("axn", "AXN"); ("cinemax", "Cinemax"); ("combate", "Combate");
    ("discovery kids", "Discovery Kids"); ("discovery turbo", "Discovery Turbo");
    ("e entertainment", "E!"); ("espn brasil", "ESPN Brasil");
    ("food network", "Food Network"); ("fox", "Fox"); ("fox life", "Fox Life");
    ("fox premium", "Fox Premium"); ("futura", "Futura");
    ("globo news", "GloboNews"); ("gloob", "Gloob"); ("h2", "H2"); ("hgtv", "HGTV");
    ("lifetime", "Lifetime"); ("mais globosat", "Mais Globosat"); ("max", "Max");
    ("nat geo wild", "Nat Geo Wild"); ("nick jr", "Nick Jr."); ("off", "OFF");
    ("paramount", "Paramount"); ("premiere", "Premiere");
    ("prime box brazil", "Prime Box Brazil"); ("record news", "Record News");
    ("rede vida", "Rede Vida"); ("syfy", "Syfy"); ("tcm", "TCM"); ("tlc", "TLC");
    ("tooncast", "Tooncast"); ("travel box brazil", "Travel Box Brazil");
    ("tv brasil", "TV Brasil"); ("tv gazeta", "TV Gazeta"); ("woohoo", "WooHoo");
    ("zoomoo", "ZooMoo"); ("agromais", "Agro+") ]%string.

(** What [getKnownChannelMapping] returns: an id of the table, the
    function that the object inherits under the one normalized name that
    is also a property of every object, or [null]. *)
Inductive Mapping : Type :=
  | MappedTo (value : string)
  | InheritedProperty
  | NoMapping.

Definition getKnownChannelMapping (channelName : string) : Mapping :=
  let normalizedName := normalizeChannelName channelName in
  match List.find (fun entry => String.eqb (fst entry) normalizedName) knownChannels with
  | Some entry => MappedTo (snd entry)
  | None =>
      if String.eqb normalizedName "constructor" then InheritedProperty
      else
        match List.find (fun entry => includes normalizedName (fst entry)
                                      || includes (fst entry) normalizedName)
                        knownChannels with
        | Some entry => MappedTo (snd entry)
        | None => NoMapping
        end
  end.

(** [normalizedName.split(/\s+/)] *)
Fixpoint split_spaces (current : string) (in_run : bool) (s : string) : list string :=
  match s with
  | EmptyString => [current]
  | String c rest =>
      if is_space c
      then if in_run then split_spaces current true rest
           else current :: split_spaces EmptyString true rest
      else split_spaces (current ++ String c EmptyString) false rest
  end.

Section FindMatchingChannel.
Context {P : Type}.
Local Abbreviation Channel := (EPGChannelType P).

(** The strategies, each as what it finds on its own. *)

(** The known mapping: by the mapped id, else by the mapped name. *)
Definition by_known_mapping (channelName : string) (channels : list Channel)
    : option Channel :=
  match getKnownChannelMapping channelName with
  | MappedTo knownChannelId =>
      match List.find (fun c => String.eqb (id c) knownChannelId) channels with
      | Some knownChannel => Some knownChannel
      | None => List.find (fun c => String.eqb (name c) knownChannelId) channels
      end
  | InheritedProperty => None
  | NoMapping => None
  end.

Definition by_exact_id (channelName : string) (channels : list Channel)
    : option Channel :=
  List.find (fun c => String.eqb (id c) channelName) channels.

Definition idVariations (channelName : string) : list string :=
  let dashed := replace_spaces "-" false (normalizeChannelName channelName) in
  [ channelName;
    "br#" ++ toLowerCase channelName;
    "br#" ++ toLowerCase channelName ++ "-hd";
    channelName ++ ".br";
    dashed ++ ".br";
    "br#" ++ dashed ]%string.

Fixpoint first_variation (variations : list string) (channels : list Channel)
    : option Channel :=
  match variations with
  | [] => None
  | idVariation :: rest =>
      match List.find (fun c => String.eqb (id c) idVariation
                                || String.eqb (toLowerCase (id c))
                                              (toLowerCase idVariation))
                      channels with
      | Some idVariationMatch => Some idVariationMatch
      | None => first_variation rest channels
      end
  end.

Definition by_id_variation (channelName : string) (channels : list Channel)
    : option Channel :=
  first_variation (idVariations channelName) channels.

Definition by_exact_name (channelName : string) (channels : list Channel)
    : option Channel :=
  List.find (fun c => String.eqb (name c) channelName) channels.

Definition by_normalized_name (channelName : string) (channels : list Channel)
    : option Channel :=
  let normalizedName := normalizeChannelName channelName in
  List.find (fun c => String.eqb (normalizeChannelName (name c)) normalizedName) channels.

Definition by_containment (channelName : string) (channels : list Channel)
    : option Channel :=
  let normalizedName := normalizeChannelName channelName in
  List.find (fun c => includes (normalizeChannelName (name c)) normalizedName
                      || includes normalizedName (normalizeChannelName (name c)))
            channels.

Definition keywords_of (normalizedName : string) : list string :=
  List.filter (fun word => (3 <? String.length word)%nat)
              (split_spaces EmptyString false normalizedName).

Definition score (keywords : list string) (c : Channel) : Z :=
  Z.of_nat (length (List.filter
                      (fun kw => includes (normalizeChannelName (name c)) kw)
                      keywords)).

Definition by_keywords (channelName : string) (channels : list Channel)
    : option Channel :=
  let keywords := keywords_of (normalizeChannelName channelName) in
  match keywords with
  | [] => None
  | _ :: _ =>
      let keywordMatches :=
        List.filter
          (fun c => existsb (fun keyword =>
                               includes (normalizeChannelName (name c)) keyword)
                            keywords)
          channels in
      match sort (fun a b => Some (score keywords b - score keywords a))
                 keywordMatches with
      | best :: _ => Some best
      | [] => None
      end
  end.

(** [findMatchingChannel]: the strategies in the order of the source,
    each tried when those before it found nothing. *)
Definition findMatchingChannel (channelName : string) (channels : list Channel)
    : option Channel :=
  if String.eqb channelName "" || (length channels =? 0)%nat then None
  else
    match by_known_mapping channelName channels with
    | Some knownChannel => Some knownChannel
    | None =>
    match by_exact_id channelName channels with
    | Some exactIdMatch => Some exactIdMatch
    | None =>
    match by_id_variation channelName channels with
    | Some idVariationMatch => Some idVariationMatch
    | None =>
    match by_exact_name channelName channels with
    | Some exactNameMatch => Some exactNameMatch
    | None =>
    match by_normalized_name channelName channels with
    | Some normalizedMatch => Some normalizedMatch
    | None =>
    match by_containment channelName channels with
    | Some containedInMatch => Some containedInMatch
    | None => by_keywords channelName channels
    end end end end end end.

End FindMatchingChannel.
End Matching.

(** ** Playlists ([M3UService]) *)

Module M3UService.
Import Js Names.

Definition LF : ascii := "010"%char.
Definition quote : ascii := "034"%char.


Fixpoint drop (n : nat) (s : string) : string :=
  match n, s with
  | S k, String _ rest => drop k rest
  | _, _ => s
  end.

(** The characters up to the next double quote, and what follows it. *)
Fixpoint until_quote (s : string) : option (string * string) :=
  match s with
  | EmptyString => None
  | String c rest =>
      if Ascii.eqb c quote then Some (EmptyString, rest)
      else match until_quote rest with
           | Some (v, r) => Some (String c v, r)
           | None => None
           end
  end.














Section ParseM3U.
(** The part of an item's id that comes from [Date.now()] and
    [Math.random()], for the item made from line [i]. *)
Variable unique : nat -> string.



End ParseM3U.





End M3UService.

(** ** The catalog: normalizing the answers of the server
       ([mapXtreamToStreamType], [parseM3UToStreamType],
       [parseM3UCategories]) *)

Module Streams.
Import Js Names.

(** Values of type [any]: a [JSON] value, or [undefined] ([None]). *)
Definition truthy (v : option JSON) : bool :=
  match v with
  | None => false
  | Some JNull => false
  | Some (JBool b) => b
  | Some (JNum n) => negb (n =? 0)
  | Some (JStr s) => negb (String.eqb s "")
  | Some (JArr _) => true
  | Some (JObj _) => true
  end.

(** [item.field] on a value that is neither [null] nor [undefined]. *)
Definition get (field : string) (item : JSON) : option JSON :=
  match item with
  | JObj fields =>
      match List.find (fun f => String.eqb (fst f) field) fields with
      | Some f => Some (snd f)
      | None => None
      end
  | _ => None
  end.

(** [a || b] and [a || b || c] with a last operand that is a value. *)
Definition or_else (a : option JSON) (b : JSON) : JSON :=
  match a with
  | Some v => if truthy a then v else b
  | None => b
  end.

Definition int_toString (n : Z) : string := NilEmpty.string_of_int (Z.to_int n).

(** [v.toString()] *)
Fixpoint toString (v : JSON) : string :=
  match v with
  | JNull => "null"
  | JBool true => "true"
  | JBool false => "false"
  | JNum n => int_toString n
  | JStr s => s
  | JArr items =>
      (fix join (vs : list JSON) : string :=
         match vs with
         | [] => EmptyString
         | [x] => match x with JNull => EmptyString | _ => toString x end
         | x :: rest =>
             (match x with JNull => EmptyString | _ => toString x end
              ++ "," ++ join rest)%string
         end) items
  | JObj _ => "[object Object]"
  end.

(** [v?.toString()] *)
Definition optional_toString (v : option JSON) : option JSON :=
  match v with
  | None => None
  | Some JNull => None
  | Some x => Some (JStr (toString x))
  end.

(** A value inside a template literal. *)
Definition interpolate (v : option JSON) : string :=
  match v with
  | None => "undefined"
  | Some x => toString x
  end.

Definition as_string (v : JSON) : string :=
  match v with
  | JStr s => s
  | other => toString other
  end.

(** [StreamType]; a field that an object does not carry is [None]. *)
Record StreamType : Type := {
  id : string;
  name : JSON;
  url : string;
  cover : JSON;
  thumbnail : JSON;
  containerExtension : option JSON;
  direct_source : option JSON;
  stream_id : string;
  username : string;
  password : string;
  description : JSON;
  rating : option JSON;
  year : option JSON;
  genres : list string;
  episodeCount : option JSON;
  episodeRun : option JSON;
  lastModified : option JSON;
  status : option JSON;
  backdropPath : option JSON;
  duration : option JSON;
  director : option JSON;
  actors : option JSON
}.

(** [CategoryType]; [name] is whatever the server sent. *)
Record CategoryType : Type := {
  category_id : string;
  category_name : option JSON
}.

Section Mapping.
Variable baseUrl username_ password_ : string.

(** The arrow function of [mapXtreamToStreamType], on one item.  A
    [null] item and a [genre] that is truthy without being a string make
    it throw a [TypeError]. *)
Definition mapXtreamItem (item : JSON) : Outcome StreamType :=
  match item with
  | JNull => Threw "TypeError: Cannot read properties of null"
  | _ =>
      let own_id :=
        as_string (or_else (optional_toString (get "stream_id" item))
                     (or_else (optional_toString (get "series_id" item))
                        (JStr ""))) in
      let genres_outcome :=
        match get "genre" item with
        | Some (JStr g) =>
            if String.eqb g "" then Returned []
            else Returned (map trim (split "," g))
        | other =>
            if truthy other
            then Threw "TypeError: item.genre.split is not a function"
            else Returned []
        end in
      match genres_outcome with
      | Threw e => Threw e
      | Pending => Pending
      | Returned item_genres =>
          Returned
            {| id := own_id;
               name := or_else (get "name" item) (JStr "");
               url :=
                 match get "stream_type" item with
                 | Some (JStr "live") =>
                     (baseUrl ++ "/live/" ++ username_ ++ "/" ++ password_ ++ "/"
                      ++ interpolate (get "stream_id" item) ++ ".ts")%string
                 | Some (JStr "movie") =>
                     (baseUrl ++ "/movie/" ++ username_ ++ "/" ++ password_ ++ "/"
                      ++ interpolate (get "stream_id" item) ++ "."
                      ++ toString (or_else (get "container_extension" item)
                                     (JStr "mp4")))%string
                 | _ => EmptyString
                 end;
               cover := or_else (get "cover" item)
                          (or_else (get "stream_icon" item) (JStr ""));
               thumbnail := or_else (get "stream_icon" item)
                              (or_else (get "cover" item) (JStr ""));
               containerExtension :=
                 Some (or_else (get "container_extension" item) (JStr "mp4"));
               direct_source := Some (or_else (get "direct_source" item) (JStr ""));
               stream_id := own_id;
               username := username_;
               password := password_;
               description := or_else (get "plot" item)
                                (or_else (get "description" item) (JStr ""));
               rating := Some (or_else (get "rating" item) (JNum 0));
               year := Some (or_else (get "year" item) (JStr ""));
               genres := item_genres;
               episodeCount := Some (or_else (get "episode_count" item) (JNum 0));
               episodeRun := Some (or_else (get "episode_run" item) (JNum 0));
               lastModified := Some (or_else (get "last_modified" item) (JStr ""));
               status := Some (or_else (get "status" item) (JStr ""));
               backdropPath := Some (or_else (get "backdrop_path" item) (JStr ""));
               duration := Some (or_else (get "duration" item) (JNum 0));
               director := Some (or_else (get "director" item) (JStr ""));
               actors := Some (or_else (get "cast" item) (JStr "")) |}
      end
  end.

(** [array.map(f)] for an [f] that may throw. *)
Fixpoint map_outcome {A B : Type} (f : A -> Outcome B) (l : list A) : Outcome (list B) :=
  match l with
  | [] => Returned []
  | x :: rest =>
      match f x with
      | Returned y =>
          match map_outcome f rest with
          | Returned ys => Returned (y :: ys)
          | Threw e => Threw e
          | Pending => Pending
          end
      | Threw e => Threw e
      | Pending => Pending
      end
  end.

(** [mapXtreamToStreamType] *)
Definition mapXtreamToStreamType (data : JSON) : Outcome (list StreamType) :=
  match data with
  | JArr items => map_outcome mapXtreamItem items
  | _ => Returned []
  end.

(** The mapping of [getCategories] in the structured mode. *)
Definition mapCategory (cat : JSON) : Outcome CategoryType :=
  match cat with
  | JNull => Threw "TypeError: Cannot read properties of null"
  | _ =>
      match get "category_id" cat with
      | None => Threw "TypeError: Cannot read properties of undefined"
      | Some JNull => Threw "TypeError: Cannot read properties of null"
      | Some v =>
          Returned {| category_id := toString v;
                      category_name := get "category_name" cat |}
      end
  end.

Definition mapCategories (response : JSON) : Outcome (list CategoryType) :=
  match response with
  | JArr items => map_outcome mapCategory items
  | _ => Returned []
  end.

End Mapping.

(** The playlist mode.  The patterns carry the flag [i]: the key is
    compared without regard to case. *)
Definition quoted_at_i (key : string) (s : string) : option string :=
  let opening := (key ++ "=" ++ String M3UService.quote EmptyString)%string in
  if startsWith (toLowerCase s) (toLowerCase opening) then
    match M3UService.until_quote (M3UService.drop (String.length opening) s) with
    | Some (String c v, _) => Some (String c v)
    | _ => None
    end
  else None.

Fixpoint match_quoted_i (key : string) (s : string) : option string :=
  match quoted_at_i key s with
  | Some v => Some v
  | None =>
      match s with
      | EmptyString => None
      | String _ rest => match_quoted_i key rest
      end
  end.

(** What follows the last comma of a line. *)
Fixpoint after_last_comma (s : string) : option string :=
  match s with
  | EmptyString => None
  | String c rest =>
      match after_last_comma rest with
      | Some segment => Some segment
      | None => if Ascii.eqb c "," then Some rest else None
      end
  end.

(** [infoLine.match(/,([^,]+)$/)], then the trimmed group or the empty
    string. *)
Definition name_of_line (infoLine : string) : string :=
  match after_last_comma infoLine with
  | Some (String c rest) => trim (String c rest)
  | _ => EmptyString
  end.

Inductive StreamKind : Type := live | movie | series.

Definition StreamKind_eqb (a b : StreamKind) : bool :=
  match a, b with
  | live, live | movie, movie | series, series => true
  | _, _ => false
  end.

(** The type of a playlist entry, from its group and its URL. *)
Definition streamType_of (group urlLine : string) : StreamKind :=
  let lower := toLowerCase group in
  if includes lower "movie" || includes lower "film" || includes lower "vod"
     || includes urlLine "/movie/"
  then movie
  else if includes lower "series" || includes lower "show"
          || includes urlLine "/series/"
  then series
  else live.

Definition or_default (v : option string) (d : string) : string :=
  match v with
  | Some (String c rest) => String c rest
  | _ => d
  end.

Section Playlist.
Variable username_ password_ : string.

(** The loop of [parseM3UToStreamType] from index [i] on; [lines] is
    [lines[i..]].  An entry that is kept makes the loop skip its URL
    line; an entry that is not kept does not. *)
Fixpoint scan_streams (kind : StreamKind) (categoryId : option string)
    (i : nat) (lines : list string) : list StreamType :=
  match lines with
  | [] => []
  | current :: following =>
      let infoLine := trim current in
      if startsWith infoLine "#EXTINF:" then
        match following with
        | [] => []
        | next :: rest =>
            let urlLine := trim next in
            if String.eqb urlLine "" || startsWith urlLine "#"
            then scan_streams kind categoryId (S i) following
            else
              let group := or_default (match_quoted_i "group-title" infoLine) "" in
              if negb (StreamKind_eqb (streamType_of group urlLine) kind)
              then scan_streams kind categoryId (S i) following
              else if match categoryId with
                      | Some (String c cs) => negb (String.eqb group (String c cs))
                      | _ => false
                      end
              then scan_streams kind categoryId (S i) following
              else
                let tvgId := or_default (match_quoted_i "tvg-id" infoLine) "" in
                let logo := or_default (match_quoted_i "tvg-logo" infoLine) "" in
                let own_id := or_default (Some tvgId) ("m3u_" ++ nat_toString i) in
                {| id := own_id;
                   name := JStr (name_of_line infoLine);
                   url := urlLine;
                   cover := JStr logo;
                   thumbnail := JStr logo;
                   containerExtension := None;
                   direct_source := None;
                   stream_id := own_id;
                   username := username_;
                   password := password_;
                   description := JStr "";
                   rating := None;
                   year := None;
                   genres := [group];
                   episodeCount := None;
                   episodeRun := None;
                   lastModified := None;
                   status := None;
                   backdropPath := None;
                   duration := None;
                   director := None;
                   actors := None |}
                :: scan_streams kind categoryId (S (S i)) rest
        end
      else scan_streams kind categoryId (S i) following
  end.

(** [parseM3UToStreamType] *)
Definition parseM3UToStreamType (m3uContent : string) (kind : StreamKind)
    (categoryId : option string) : list StreamType :=
  scan_streams kind categoryId 0 (split M3UService.LF m3uContent).

End Playlist.

(** The loop of [parseM3UCategories]; [seen] is the map of the groups
    met so far, in the order of their insertion. *)
Fixpoint scan_categories (kind : StreamKind) (seen : list string)
    (lines : list string) : list string :=
  match lines with
  | [] => seen
  | current :: following =>
      let infoLine := trim current in
      if startsWith infoLine "#EXTINF:" then
        match following with
        | [] => seen
        | next :: rest =>
            let urlLine := trim next in
            if String.eqb urlLine "" || startsWith urlLine "#"
            then scan_categories kind seen following
            else
              let group :=
                or_default (match_quoted_i "group-title" infoLine) "Uncategorized" in
              if negb (StreamKind_eqb (streamType_of group urlLine) kind)
              then scan_categories kind seen following
              else
                scan_categories kind
                  (if existsb (String.eqb group) seen then seen else seen ++ [group])
                  rest
        end
      else scan_categories kind seen following
  end.

(** [parseM3UCategories] *)
Definition parseM3UCategories (m3uContent : string) (kind : StreamKind)
    : list CategoryType :=
  map (fun group => {| category_id := group; category_name := Some (JStr group) |})
      (scan_categories kind [] (split M3UService.LF m3uContent)).

End Streams.

(** ** The public operations ([getM3UContent], [getLiveStreams],
       [getVodStreams], [getSeriesStreams], [getCategories], [getEPG]) and
       the callbacks of the [useIPTV] hook *)

Module Catalog.
Import Js Runtime Streams.

(** Outside the cache: the limiter and the network, and the field
    [m3uCache] of the service object. *)
Record Outside : Type := {
  net : Fetch.World;
  m3uCache : option string
}.

Abbreviation Env := (Cache.Env Outside) (only parsing).

(** [JSON.stringify] and [JSON.parse] on the cache items of a type. *)
Class JsonCodec (T : Type) : Type := {
  stringify : Cache.CacheItem T -> string;
  parse : string -> option (Cache.CacheItem T)
}.

Abbreviation Guide := (list (Epg.EPGChannelType (list Epg.EPGProgramType))) (only parsing).

Fixpoint slept (events : list Fetch.Event) : Z :=
  match events with
  | [] => 0
  | Fetch.Slept ms :: rest => ms + slept rest
  | _ :: rest => slept rest
  end.

(** An action of the fetch layer, seen from the cache: the clock moves
    on by the time the action slept. *)
Definition lift {A : Type} (action : Fetch.World -> A * Fetch.World)
    (e : Env) : A * Env :=
  let before := net (Cache.outside e) in
  let (result, after) := action before in
  (result,
   {| Cache.settings := Cache.settings e;
      Cache.now := Cache.now e
                   + slept (skipn (length (Fetch.trace before)) (Fetch.trace after));
      Cache.outside := {| net := after; m3uCache := m3uCache (Cache.outside e) |} |}).

Section Service.
Variable config : IPTVFetchConfig.
Variable JSON_parse : string -> option JSON.
Variable fetch : list Fetch.Event -> Fetch.Transport -> string -> Fetch.Response.
Variable proxyService : list Fetch.Event -> string -> Fetch.ProxyResponse.
Variable this : Fetch.Service.
Context {codec_text : JsonCodec string}.
Context {codec_streams : JsonCodec (list StreamType)}.
Context {codec_categories : JsonCodec (list CategoryType)}.
Context {codec_guide : JsonCodec Guide}.
(** [new DOMParser().parseFromString(xmlContent, 'text/xml')],
    [new Date(s).getTime()] and [a.localeCompare(b)]. *)
Variable parseFromString : string -> Node.
Variable getTime : string -> option Z.
Variable localeCompare : string -> string -> Z.

Definition fetchWithRetry (url : string) : Env -> Outcome JSON * Env :=
  lift (Fetch.fetchWithRetry config JSON_parse fetch proxyService url 0).

Definition fetchEPGXMLDirect : Env -> option string * Env :=
  lift (Fetch.fetchEPGXMLDirect fetch this).

(** [getCachedOrFetch] as the methods call it. *)
Definition getCachedOrFetch {T : Type} {codec : JsonCodec T} (cacheKey : string)
    (fetchFn : Env -> Outcome T * Env) (e : Env) : Outcome T * Env :=
  let (result, w) :=
    Cache.getCachedOrFetch stringify parse config cacheKey fetchFn
      {| Cache.env := e; Cache.producerCalls := 0 |} in
  (result, Cache.env w).

Definition account_key (kind : string) (selector : string) : string :=
  (kind ++ ":" ++ Fetch.baseUrl this ++ ":" ++ Fetch.username this ++ ":" ++ selector)%string.

Definition or_all (categoryId : option string) : string :=
  or_default categoryId "all".

(** The loop of [getM3UContent] over the output formats. *)
Fixpoint try_formats (formats : list string) (e : Env) : Outcome (option string) * Env :=
  match formats with
  | [] => (Returned None, e)
  | format :: rest =>
      let m3uUrl :=
        (Fetch.baseUrl this ++ "/get.php?username=" ++ Fetch.username this
         ++ "&password=" ++ Fetch.password this
         ++ "&type=m3u_plus&output=" ++ format)%string in
      match fetchWithRetry m3uUrl e with
      | (Returned (JStr response), e') =>
          if startsWith (trim response) "#EXTM3U"
          then (Returned (Some response), e')
          else try_formats rest e'
      | (Returned _, e') => try_formats rest e'
      | (Threw _, e') => try_formats rest e'
      | (Pending, e') => (Pending, e')
      end
  end.

Definition set_m3uCache (content : string) (e : Env) : Env :=
  {| Cache.settings := Cache.settings e;
     Cache.now := Cache.now e;
     Cache.outside := {| net := net (Cache.outside e); m3uCache := Some content |} |}.

(** [getM3UContent]: the content, or [null] when no format gave one. *)
Definition getM3UContent (e : Env) : Outcome (option string) * Env :=
  match m3uCache (Cache.outside e) with
  | Some content => (Returned (Some content), e)
  | None =>
      let cacheKey := ("m3u:" ++ Fetch.baseUrl this ++ ":" ++ Fetch.username this)%string in
      match getCachedOrFetch cacheKey
              (fun e0 =>
                 match try_formats ["ts"; "m3u_plus"; "m3u"]%string e0 with
                 | (Returned (Some (String c content)), e1) =>
                     (Returned (String c content),
                      set_m3uCache (String c content) e1)
                 | (Returned _, e1) => (Threw "Failed to fetch M3U content", e1)
                 | (Threw message, e1) => (Threw message, e1)
                 | (Pending, e1) => (Pending, e1)
                 end)
              e with
      | (Returned content, e') => (Returned (Some content), e')
      | (Threw _, e') => (Returned None, e')
      | (Pending, e') => (Pending, e')
      end
  end.

Definition api_url (action : string) (categoryId : option string) : string :=
  let base :=
    (Fetch.baseUrl this ++ "/player_api.php?username=" ++ Fetch.username this
     ++ "&password=" ++ Fetch.password this ++ "&action=" ++ action)%string in
  match categoryId with
  | Some (String c cs) => (base ++ "&category_id=" ++ String c cs)%string
  | _ => base
  end.

(** The common text of [getLiveStreams], [getVodStreams] and
    [getSeriesStreams]. *)
Definition getStreams (prefix action : string) (kind : StreamKind)
    (categoryId : option string) (e : Env) : Outcome (list StreamType) * Env :=
  getCachedOrFetch (account_key prefix (or_all categoryId))
    (fun e0 =>
       match Fetch.type this with
       | Fetch.xtream =>
           match fetchWithRetry (api_url action categoryId) e0 with
           | (Returned response, e1) =>
               (mapXtreamToStreamType (Fetch.baseUrl this) (Fetch.username this)
                  (Fetch.password this) response, e1)
           | (Threw message, e1) => (Threw message, e1)
           | (Pending, e1) => (Pending, e1)
           end
       | Fetch.m3u_url =>
           match getM3UContent e0 with
           | (Returned (Some (String c content)), e1) =>
               (Returned (parseM3UToStreamType (Fetch.username this)
                            (Fetch.password this) (String c content) kind categoryId),
                e1)
           | (Returned _, e1) => (Returned [], e1)
           | (Threw message, e1) => (Threw message, e1)
           | (Pending, e1) => (Pending, e1)
           end
       end)
    e.

Definition getLiveStreams := getStreams "live" "get_live_streams" live.
Definition getVodStreams := getStreams "vod" "get_vod_streams" movie.
Definition getSeriesStreams := getStreams "series" "get_series" series.

Definition kind_name (kind : StreamKind) : string :=
  match kind with live => "live" | movie => "movie" | series => "series" end.

Definition categories_action (kind : StreamKind) : string :=
  match kind with
  | live => "get_live_categories"
  | movie => "get_vod_categories"
  | series => "get_series_categories"
  end.

Definition getCategories (kind : StreamKind) (e : Env)
    : Outcome (list CategoryType) * Env :=
  getCachedOrFetch (account_key "categories" (kind_name kind))
    (fun e0 =>
       match Fetch.type this with
       | Fetch.xtream =>
           match fetchWithRetry (api_url (categories_action kind) None) e0 with
           | (Returned response, e1) => (mapCategories response, e1)
           | (Threw message, e1) => (Threw message, e1)
           | (Pending, e1) => (Pending, e1)
           end
       | Fetch.m3u_url =>
           match getM3UContent e0 with
           | (Returned (Some (String c content)), e1) =>
               (Returned (parseM3UCategories (String c content) kind), e1)
           | (Returned _, e1) => (Returned [], e1)
           | (Threw message, e1) => (Threw message, e1)
           | (Pending, e1) => (Pending, e1)
           end
       end)
    e.

(** The third strategy of [getEPG] and its last [return []]. *)
Definition match_by_id (channelId : string) (filteredData : Guide) : Guide :=
  match Matching.findMatchingChannel channelId filteredData with
  | Some matchByNormalizedId => [matchByNormalizedId]
  | None => []
  end.

(** The producer of [getEPG]; every exception is caught and turned into
    the empty list. *)
Definition fetch_guide (channelId : option string) (e : Env) : Outcome Guide * Env :=
  match fetchEPGXMLDirect e with
  | (None, e1) => (Returned [], e1)
  | (Some xmlContent, e1) =>
      let epgData := Epg.parseEPGXML getTime (parseFromString xmlContent) in
      let filteredData :=
        sort (fun a b => Some (localeCompare (Epg.name a) (Epg.name b)))
             (List.filter (fun c => negb (length (Epg.programs c) =? 0)%nat) epgData) in
      match channelId with
      | Some EmptyString => (Returned filteredData, e1)
      | None => (Returned filteredData, e1)
      | Some wanted =>
          match List.filter (fun c => String.eqb (Epg.id c) wanted) filteredData with
          | (_ :: _) as directMatch => (Returned directMatch, e1)
          | [] =>
              match getLiveStreams None e1 with
              | (Pending, e2) => (Pending, e2)
              | (Threw _, e2) => (Returned (match_by_id wanted filteredData), e2)
              | (Returned streams, e2) =>
                  match List.find (fun s => String.eqb (stream_id s) wanted
                                            || String.eqb (id s) wanted) streams with
                  | Some stream =>
                      match name stream with
                      | JStr streamName =>
                          match Matching.findMatchingChannel streamName filteredData with
                          | Some matchByName => (Returned [matchByName], e2)
                          | None => (Returned (match_by_id wanted filteredData), e2)
                          end
                      | _ => (Returned (match_by_id wanted filteredData), e2)
                      end
                  | None => (Returned (match_by_id wanted filteredData), e2)
                  end
              end
          end
      end
  end.

Definition getEPG (channelId : option string) (e : Env) : Outcome Guide * Env :=
  getCachedOrFetch (account_key "epg" (or_all channelId)) (fetch_guide channelId) e.

End Service.

(** *** The callbacks of [useIPTV] *)

(** The state that the callbacks set. *)
Record HookState : Type := {
  isLoading : bool;
  error : option string
}.

(** The text shared by [fetchLiveStreams], [fetchVodStreams],
    [fetchSeriesStreams], [fetchCategories] and [fetchEPG]: the call of
    the service in a [try], the message of a caught error stored by
    [setError] and the empty list returned in its place. *)
Definition guarded {T : Type} (operation : Env -> Outcome (list T) * Env)
    (e : Env) : Outcome (list T) * HookState * Env :=
  match operation e with
  | (Returned result, e') =>
      (Returned result, {| isLoading := false; error := None |}, e')
  | (Threw message, e') =>
      (Returned [], {| isLoading := false; error := Some message |}, e')
  | (Pending, e') =>
      (Pending, {| isLoading := true; error := None |}, e')
  end.

End Catalog.

(** ** The address of the server ([normalizeUrl], the constructor) *)

Module ServerUrl.
Import Js.

(** [s.endsWith(suffix)] *)
Fixpoint endsWith (s suffix : string) : bool :=
  String.eqb s suffix
  || match s with
     | EmptyString => false
     | String _ rest => endsWith rest suffix
     end.

(** [s.replace(/suffix$/, '')] for a pattern that is a literal text
    anchored at the end of the input: the text is dropped when the string
    ends with it. *)
Fixpoint strip_suffix (suffix s : string) : string :=
  if String.eqb s suffix then EmptyString
  else match s with
       | EmptyString => EmptyString
       | String c rest => String c (strip_suffix suffix rest)
       end.

(** [normalizeUrl], which is also what the constructor stores in
    [baseUrl]: [url.replace(/\/$/, '').replace(/\/player_api\.php$/, '')]. *)
Definition normalizeUrl (url : string) : string :=
  strip_suffix "/player_api.php" (strip_suffix "/" url).

End ServerUrl.

(** ** Emptying the cache ([clearCache]) *)

Module Maintenance.
Import Js.

(** [clearCache]: the rows of [db.settings] whose key starts with
    [cache:] are deleted, and the playlist held by the service object is
    forgotten. *)
Definition clearCache (e : Cache.Env Catalog.Outside) : Cache.Env Catalog.Outside :=
  {| Cache.settings :=
       filter (fun row => startsWith (fst row) "cache:" = false) (Cache.settings e);
     Cache.now := Cache.now e;
     Cache.outside :=
       {| Catalog.net := Catalog.net (Cache.outside e); Catalog.m3uCache := None |} |}.

End Maintenance.

(** ** The channel list component ([getCurrentProgram], [getNextProgram]) *)

Module ChannelList.
Import Js Runtime Epg.

Section Programmes.
(** [new Date(s).getTime()], NaN being [None], and [new Date().getTime()]. *)
Variable getTime : string -> option Z.
Variable now : Z.

Definition start_of (program : EPGProgramType) : option Z :=
  getTime (adjustEPGDate (startTime program)).

Definition end_of (program : EPGProgramType) : option Z :=
  getTime (adjustEPGDate (endTime program)).

(** [now >= start && now < end]; a comparison with NaN is false. *)
Definition isCurrentProgram (program : EPGProgramType) : bool :=
  match start_of program, end_of program with
  | Some start, Some stop => (start <=? now) && (now <? stop)
  | _, _ => false
  end.

(** [getCurrentProgram], on the state variable [currentEPG]. *)
Definition getCurrentProgram
    (currentEPG : option (EPGChannelType (list EPGProgramType)))
    : option EPGProgramType :=
  match currentEPG with
  | None => None
  | Some guide =>
      match programs guide with
      | [] => None
      | _ :: _ => List.find isCurrentProgram (programs guide)
      end
  end.

(** The comparator of [getNextProgram]: the difference of the two start
    times, NaN when one of them is not read. *)
Definition by_adjusted_start (a b : EPGProgramType) : option Z :=
  match start_of a, start_of b with
  | Some startA, Some startB => Some (startA - startB)
  | _, _ => None
  end.

Definition starts_later (program : EPGProgramType) : bool :=
  match start_of program with
  | Some start => now <? start
  | None => false
  end.

(** [getNextProgram]: the first programme, in the order of the start
    times, that starts after now. *)
Definition getNextProgram
    (currentEPG : option (EPGChannelType (list EPGProgramType)))
    : option EPGProgramType :=
  match currentEPG with
  | None => None
  | Some guide =>
      match programs guide with
      | [] => None
      | _ :: _ => List.find starts_later (sort by_adjusted_start (programs guide))
      end
  end.

End Programmes.
End ChannelList.

(* ===================================================================== *)
(** * Part II. Properties                                                 *)
(* ===================================================================== *)

(** ** The cache-aside store *)

(** A codec for text payloads, used to run the cache on concrete data:
    the decimal timestamp, a colon, the payload. *)
Definition stringify_text (item : Cache.CacheItem string) : string :=
  (NilEmpty.string_of_int (Z.to_int (Cache.timestamp item)) ++ ":" ++ Cache.data item)%string.

Fixpoint split_colon (s : string) : option (string * string) :=
  match s with
  | EmptyString => None
  | String c rest =>
      if Ascii.eqb c ":" then Some (EmptyString, rest)
      else match split_colon rest with
           | Some (a, b) => Some (String c a, b)
           | None => None
           end
  end.

Definition parse_text (s : string) : option (Cache.CacheItem string) :=
  match split_colon s with
  | Some (ts, payload) =>
      match NilEmpty.int_of_string ts with
      | Some i => Some {| Cache.data := payload; Cache.timestamp := Z.of_int i |}
      | None => None
      end
  | None => None
  end.

Section CacheFacts.
Import Cache.
Context {N T : Type}.
Variable JSON_stringify : CacheItem T -> string.
Variable JSON_parse : string -> option (CacheItem T).
Variable config : IPTVFetchConfig.

Local Abbreviation cached := (cached (N:=N) JSON_parse config).
Local Abbreviation put_fresh := (put_fresh (N:=N) JSON_stringify).
Local Abbreviation getCachedOrFetch := (getCachedOrFetch (N:=N) JSON_stringify JSON_parse config).

Lemma cached_hit cacheKey fetchFn w payload :
    cached cacheKey (env w) = Some payload ->
    getCachedOrFetch cacheKey fetchFn w = (Returned payload, w).
  Proof. intros H. unfold Cache.getCachedOrFetch. now rewrite H. Qed.

Lemma cached_miss cacheKey fetchFn w freshData e' :
    cached cacheKey (env w) = None ->
    fetchFn (env w) = (Returned freshData, e') ->
    getCachedOrFetch cacheKey fetchFn w =
      (Returned freshData,
       {| env := put_fresh cacheKey freshData e';
          producerCalls := S (producerCalls w) |}).
  Proof. intros H F. unfold Cache.getCachedOrFetch. now rewrite H, F. Qed.

  (** Reading back, at time [t], the entry that a fetch wrote at [now e]. *)
Lemma cached_put_fresh cacheKey freshData e t o :
    JSON_parse (JSON_stringify {| data := freshData; timestamp := now e |})
      = Some {| data := freshData; timestamp := now e |} ->
    cached cacheKey {| settings := settings (put_fresh cacheKey freshData e); now := t;
                      outside := o |}
      = if t - now e <? cacheTime config then Some freshData else None.
  Proof.
    intros R. unfold Cache.cached, Cache.put_fresh. cbn [settings now].
    rewrite lookup_insert_eq. cbn [value]. rewrite R. reflexivity.
  Qed.

  (** C1.  A call that finds nothing usable under its key invokes the
      producer once and stores the result with the time read after the
      producer returned.  A second call under the same key made while
      the entry is younger than [cacheTime] returns the stored payload
      and invokes no producer, so the two calls invoke it exactly once.  A
      call made when the entry's age is at least [cacheTime] invokes the
      producer again and replaces the whole row by the fresh result and
      the current time. *)
Theorem getCachedOrFetch_ttl
      (cacheKey : string) (fetchFn : Env N -> Outcome T * Env N) (w : World N)
      (freshData : T) (e1 : Env N) :
    cached cacheKey (env w) = None ->
    fetchFn (env w) = (Returned freshData, e1) ->
    JSON_parse (JSON_stringify {| data := freshData; timestamp := now e1 |})
      = Some {| data := freshData; timestamp := now e1 |} ->
    let first := getCachedOrFetch cacheKey fetchFn w in
    let w1 := snd first in
    fst first = Returned freshData
    /\ producerCalls w1 = S (producerCalls w)
    /\ settings (env w1) !! cache_key cacheKey
         = Some {| value := JSON_stringify {| data := freshData; timestamp := now e1 |};
                   updatedAt := now e1 |}
    /\ (forall t fetchFn',
          t - now e1 < cacheTime config ->
          getCachedOrFetch cacheKey fetchFn' (at_time t w1)
            = (Returned freshData, at_time t w1))
    /\ (forall t fetchFn' freshData' e2,
          cacheTime config <= t - now e1 ->
          fetchFn' (env (at_time t w1)) = (Returned freshData', e2) ->
          getCachedOrFetch cacheKey fetchFn' (at_time t w1)
            = (Returned freshData',
               {| env := {| settings :=
                              <[ cache_key cacheKey :=
                                   {| value := JSON_stringify
                                                 {| data := freshData'; timestamp := now e2 |};
                                      updatedAt := now e2 |} ]> (settings e2);
                            now := now e2;
                            outside := outside e2 |};
                  producerCalls := S (S (producerCalls w)) |})).
  Proof.
    intros Hmiss Hfetch Hcodec first w1.
    assert (E : first = (Returned freshData,
                         {| env := put_fresh cacheKey freshData e1;
                            producerCalls := S (producerCalls w) |}))
      by (apply cached_miss; assumption).
    subst w1. rewrite E. cbn [fst snd env producerCalls].
    split; [reflexivity|]. split; [reflexivity|].
    split.
    { unfold Cache.put_fresh. cbn [settings]. apply lookup_insert_eq. }
    split.
    - intros t fetchFn' Hage. apply cached_hit.
      unfold at_time. cbn [env producerCalls].
      rewrite cached_put_fresh by exact Hcodec.
      destruct (Z.ltb_spec (t - now e1) (cacheTime config)); [reflexivity | lia].
    - intros t fetchFn' freshData' e2 Hage Hfetch'.
      rewrite (cached_miss _ _ _ freshData' e2).
      + reflexivity.
      + unfold at_time. cbn [env producerCalls].
        rewrite cached_put_fresh by exact Hcodec.
        destruct (Z.ltb_spec (t - now e1) (cacheTime config)); [lia | reflexivity].
      + exact Hfetch'.
  Qed.
End CacheFacts.

(** A run of the cache on text payloads: an empty table at time 1000, a
    producer that takes 5 ms; the entry is read back 2 s later. *)
Definition slow_producer (body : string) (e : Cache.Env unit)
    : Outcome string * Cache.Env unit :=
  (Returned body,
   {| Cache.settings := Cache.settings e; Cache.now := Cache.now e + 5;
      Cache.outside := tt |}).

Definition cold_world : Cache.World unit :=
  {| Cache.env := {| Cache.settings := ∅; Cache.now := 1000; Cache.outside := tt |};
     Cache.producerCalls := 0 |}.

Lemma getCachedOrFetch_ttl_witness :
  let w1 := snd (Cache.getCachedOrFetch stringify_text parse_text DEFAULT_CONFIG
                   "live:all" (slow_producer "body") cold_world) in
  Cache.producerCalls w1 = 1%nat
  /\ Cache.getCachedOrFetch stringify_text parse_text DEFAULT_CONFIG
        "live:all" (slow_producer "other") (Cache.at_time 3005 w1)
      = (Returned "body"%string, Cache.at_time 3005 w1).
Proof.
  destruct (getCachedOrFetch_ttl stringify_text parse_text DEFAULT_CONFIG
              "live:all" (slow_producer "body") cold_world "body"
              {| Cache.settings := ∅; Cache.now := 1005; Cache.outside := tt |}
              eq_refl eq_refl eq_refl) as (_ & Hcalls & _ & Hhit & _).
  split.
  - exact Hcalls.
  - apply Hhit. vm_compute. reflexivity.
Defined.

(** ** The concurrency limiter *)

Section LimiterFacts.
Import Limiter.
Variable config : IPTVFetchConfig.

Local Abbreviation C := (maxConcurrentRequests config).

(** What every instant of an orderly run satisfies. *)
Record limiter_inv (s : State) : Prop := {
  inv_count : activeRequests s = length (inFlight s);
  inv_bound : (activeRequests s + length (resolved s) <= C)%nat;
  inv_full : requestQueue s <> [] ->
             (activeRequests s + length (resolved s) = C)%nat;
  inv_fifo : arrivals s = granted s ++ resolved s ++ requestQueue s
}.

Lemma length_remove_first c l :
  In c l -> length (remove_first c l) = Nat.pred (length l).
Proof.
  induction l as [|x l IH]; cbn [remove_first]; [intros []|].
  intros [->|Hin].
  - now rewrite Nat.eqb_refl.
  - destruct (Nat.eqb x c); [reflexivity|].
    cbn [length]. rewrite IH by assumption.
    destruct l; [destruct Hin | reflexivity].
Qed.

Lemma limiter_inv_initial : limiter_inv initial.
Proof. split; cbn; intros; try reflexivity; try lia; congruence. Qed.

Lemma limiter_inv_step s s' :
  limiter_inv s -> orderly_step config s s' -> limiter_inv s'.
Proof.
  intros [Hc Hb Hf Hq] Hstep. destruct Hstep as [c s Hres | c s Hin | s Hres].
  - (* a call *)
    unfold enter. rewrite Hres in *. cbn [length] in *.
    destruct (Nat.leb_spec C (activeRequests s)) as [Hle|Hlt].
    + split; cbn; rewrite ?Hres; cbn [length].
      * exact Hc.
      * lia.
      * intros _. lia.
      * rewrite Hq. cbn [app]. now rewrite app_assoc.
    + assert (Hempty : requestQueue s = []).
      { destruct (requestQueue s) as [|n q] eqn:E; [reflexivity|].
        assert (activeRequests s + 0 = C)%nat by (apply Hf; congruence). lia. }
      split; cbn; rewrite ?Hres, ?Hempty; cbn [length].
      * rewrite length_app. cbn. lia.
      * lia.
      * congruence.
      * rewrite Hq, Hempty. cbn [app]. now rewrite !app_nil_r.
  - (* a request settles *)
    assert (Hpos : (0 < activeRequests s)%nat).
    { rewrite Hc. destruct (inFlight s); [destruct Hin | cbn; lia]. }
    unfold finally_block. destruct (requestQueue s) as [|n q] eqn:E.
    + split; cbn.
      * rewrite length_remove_first by assumption. now rewrite Hc.
      * lia.
      * congruence.
      * rewrite Hq. reflexivity.
    + assert (activeRequests s + length (resolved s) = C)%nat
        by (apply Hf; congruence).
      split; cbn.
      * rewrite length_remove_first by assumption. now rewrite Hc.
      * rewrite length_app. cbn. lia.
      * intros _. rewrite length_app. cbn. lia.
      * rewrite Hq. rewrite <- app_assoc. reflexivity.
  - (* a resolved waiter resumes *)
    unfold resume. destruct (resolved s) as [|n r] eqn:E; [congruence|].
    cbn [length] in *.
    split; cbn.
    + rewrite length_app. cbn. lia.
    + lia.
    + intros Hne. specialize (Hf Hne). lia.
    + rewrite Hq. cbn [app]. rewrite <- app_assoc. reflexivity.
Qed.

(** An orderly run is a run. *)
Lemma orderly_reachable s : orderly config s -> reachable config s.
Proof.
  induction 1 as [|s s' _ IH Hstep]; [constructor|].
  apply (reachable_step config s s' IH).
  destruct Hstep; now constructor.
Qed.

Lemma orderly_inv s : orderly config s -> limiter_inv s.
Proof.
  induction 1 as [|s s' _ IH Hstep].
  - exact limiter_inv_initial.
  - exact (limiter_inv_step s s' IH Hstep).
Qed.

(** A job run from a drained state is a sequence of instants, and it
    leaves a drained state. *)
Lemma exec_job_orderly j s s' :
  orderly config s -> resolved s = [] -> exec_job config j s = Some s' ->
  orderly config s' /\ resolved s' = [].
Proof.
  intros Hr Hres Hj. destruct j as [c|c]; cbn [exec_job] in Hj.
  - injection Hj as <-.
    assert (Hstep : orderly config (enter config c s))
      by (eapply orderly_next; [exact Hr | now apply orderly_call]).
    assert (E : resolved (enter config c s) = []).
    { unfold enter. destruct (_ <=? _)%nat; cbn; exact Hres. }
    unfold drain. rewrite E. cbn. split; assumption.
  - destruct (existsb (Nat.eqb c) (inFlight s)) eqn:Hex; [|discriminate].
    injection Hj as <-.
    assert (Hin : In c (inFlight s)).
    { apply existsb_exists in Hex as (x & Hx & Heq).
      apply Nat.eqb_eq in Heq. now subst x. }
    assert (Hstep : orderly config (finally_block c s))
      by (eapply orderly_next; [exact Hr | now apply orderly_settle]).
    unfold drain, finally_block in *. rewrite Hres in *.
    destruct (requestQueue s) as [|n q]; cbn in *.
    + split; [assumption | reflexivity].
    + split; [|reflexivity].
      eapply orderly_next; [exact Hstep|].
      match goal with |- orderly_step _ ?a ?b =>
        change b with (resume a) end.
      apply orderly_resume. cbn. congruence.
Qed.

(** What one job does to a caller that waits in the queue behind [q1]. *)
Lemma exec_job_waiting j s s' q1 c q2 :
  orderly config s -> resolved s = [] ->
  requestQueue s = q1 ++ c :: q2 ->
  exec_job config j s = Some s' ->
  match j, q1 with
  | Call c', _ =>
      requestQueue s' = q1 ++ c :: (q2 ++ [c']) /\ granted s' = granted s
  | Settle _, [] =>
      requestQueue s' = q2 /\ granted s' = granted s ++ [c]
  | Settle _, n :: q1' =>
      requestQueue s' = q1' ++ c :: q2 /\ granted s' = granted s ++ [n]
  end.
Proof.
  intros Hr Hres Hq Hj. pose proof (orderly_inv s Hr) as [Hc Hb Hf _].
  destruct j as [c'|c']; cbn [exec_job] in Hj.
  - injection Hj as <-.
    assert (Hfull : (C <=? activeRequests s)%nat = true).
    { apply Nat.leb_le. rewrite Hres in Hf. cbn in Hf.
      rewrite <- Hf; [lia|]. rewrite Hq. now destruct q1. }
    unfold drain, enter. rewrite Hfull. cbn. rewrite Hres. cbn.
    rewrite Hq, <- app_assoc. split; reflexivity.
  - destruct (existsb (Nat.eqb c') (inFlight s)); [|discriminate].
    injection Hj as <-.
    unfold drain, finally_block. rewrite Hq, Hres.
    destruct q1 as [|n q1']; cbn; split; reflexivity.
Qed.

Lemma exec_jobs_granted js : forall s s',
  orderly config s -> resolved s = [] ->
  exec_jobs config js s = Some s' ->
  exists g, granted s' = granted s ++ g.
Proof.
  induction js as [|j js IH]; intros s s' Hr Hres Hrun; cbn [exec_jobs] in Hrun.
  - injection Hrun as <-. exists []. now rewrite app_nil_r.
  - destruct (exec_job config j s) as [s1|] eqn:Hj; [|discriminate].
    destruct (exec_job_orderly j s s1 Hr Hres Hj) as [Hr1 Hres1].
    destruct (IH s1 s' Hr1 Hres1 Hrun) as [g Hg].
    assert (Hone : exists g1, granted s1 = granted s ++ g1).
    { destruct j as [c|c]; cbn [exec_job] in Hj.
      - injection Hj as <-. unfold drain, enter.
        destruct (_ <=? _)%nat; cbn; rewrite Hres; cbn.
        + exists []. now rewrite app_nil_r.
        + now exists [c].
      - destruct (existsb _ _); [|discriminate]. injection Hj as <-.
        unfold drain, finally_block. rewrite Hres.
        destruct (requestQueue s) as [|n q]; cbn.
        + exists []. now rewrite app_nil_r.
        + now exists [n]. }
    destruct Hone as [g1 Hg1]. exists (g1 ++ g).
    rewrite Hg, Hg1. now rewrite app_assoc.
Qed.

(** A caller that waits behind [q1] has its slot once more than
    [length q1] requests have settled. *)
Lemma exec_jobs_waiting js : forall s s' q1 c q2,
  orderly config s -> resolved s = [] ->
  requestQueue s = q1 ++ c :: q2 ->
  exec_jobs config js s = Some s' ->
  (length q1 < settles js)%nat ->
  exists g, granted s' = granted s ++ q1 ++ c :: g.
Proof.
  induction js as [|j js IH]; intros s s' q1 c q2 Hr Hres Hq Hrun Hn.
  - cbn in Hn. lia.
  - cbn [exec_jobs] in Hrun.
    destruct (exec_job config j s) as [s1|] eqn:Hj; [|discriminate].
    destruct (exec_job_orderly j s s1 Hr Hres Hj) as [Hr1 Hres1].
    pose proof (exec_job_waiting j s s1 q1 c q2 Hr Hres Hq Hj) as Hw.
    destruct j as [c'|c'].
    + destruct Hw as [Hq1 Hg1].
      destruct (IH s1 s' q1 c (q2 ++ [c']) Hr1 Hres1 Hq1 Hrun) as [g Hg].
      { exact Hn. }
      exists g. now rewrite Hg, Hg1.
    + destruct q1 as [|n q1'].
      * destruct Hw as [_ Hg1].
        destruct (exec_jobs_granted js s1 s' Hr1 Hres1 Hrun) as [g Hg].
        exists g. rewrite Hg, Hg1. now rewrite <- app_assoc.
      * destruct Hw as [Hq1 Hg1].
        destruct (IH s1 s' q1' c q2 Hr1 Hres1 Hq1 Hrun) as [g Hg].
        { unfold settles in *. cbn in Hn. cbn [length] in Hn. lia. }
        exists g. rewrite Hg, Hg1. rewrite <- app_assoc. reflexivity.
Qed.

Lemma exec_jobs_orderly js : forall s s',
  orderly config s -> resolved s = [] ->
  exec_jobs config js s = Some s' ->
  orderly config s' /\ resolved s' = [].
Proof.
  induction js as [|j js IH]; intros s s' Hr Hres Hrun; cbn [exec_jobs] in Hrun.
  - injection Hrun as <-. split; assumption.
  - destruct (exec_job config j s) as [s1|] eqn:Hj; [|discriminate].
    destruct (exec_job_orderly j s s1 Hr Hres Hj) as [Hr1 Hres1].
    exact (IH s1 s' Hr1 Hres1 Hrun).
Qed.

(** The limiter on the orderly runs.  At every instant at most
    [maxConcurrentRequests] wrapped requests are in flight, and
    [activeRequests] counts them.  The callers are granted their slots in
    the order of their calls: the history of calls is the history of
    grants followed by the callers still waiting, oldest first.  A caller
    that waits behind [q1] holds a slot as soon as more than [length q1]
    of the outstanding requests have settled, whatever calls arrive
    meanwhile; and while somebody waits there are [maxConcurrentRequests]
    requests outstanding. *)
Lemma enqueueRequest_orderly (s : State) :
  orderly config s ->
  ((length (inFlight s) <= C)%nat /\ activeRequests s = length (inFlight s))
  /\ arrivals s = granted s ++ resolved s ++ requestQueue s
  /\ (forall q1 c q2 js s',
        resolved s = [] ->
        requestQueue s = q1 ++ c :: q2 ->
        exec_jobs config js s = Some s' ->
        (length q1 < settles js)%nat ->
        exists g, granted s' = granted s ++ q1 ++ c :: g)
  /\ (requestQueue s <> [] -> resolved s = [] -> length (inFlight s) = C).
Proof.
  intros Hr. pose proof (orderly_inv s Hr) as [Hc Hb Hf Hq].
  split; [split; [lia | exact Hc]|].
  split; [exact Hq|].
  split.
  - intros q1 c q2 js s' Hres Hqueue Hrun Hn.
    exact (exec_jobs_waiting js s s' q1 c q2 Hr Hres Hqueue Hrun Hn).
  - intros Hne Hres. specialize (Hf Hne). rewrite Hres in Hf. cbn in Hf. lia.
Qed.

End LimiterFacts.

(** Three callers on the default limiter of two slots: the third waits,
    and holds a slot once the first request has settled. *)
Definition three_callers : Limiter.State :=
  {| Limiter.activeRequests := 2;
     Limiter.requestQueue := [3%nat];
     Limiter.resolved := [];
     Limiter.inFlight := [1%nat; 2%nat];
     Limiter.arrivals := [1%nat; 2%nat; 3%nat];
     Limiter.granted := [1%nat; 2%nat] |}.

Lemma three_callers_orderly : Limiter.orderly DEFAULT_CONFIG three_callers.
Proof.
  apply (exec_jobs_orderly DEFAULT_CONFIG
           [Limiter.Call 1%nat; Limiter.Call 2%nat; Limiter.Call 3%nat] Limiter.initial).
  - constructor.
  - reflexivity.
  - reflexivity.
Qed.

Lemma enqueueRequest_orderly_example :
  (length (Limiter.inFlight three_callers) <= 2)%nat
  /\ exists g,
       Limiter.granted
         {| Limiter.activeRequests := 2;
            Limiter.requestQueue := [];
            Limiter.resolved := [];
            Limiter.inFlight := [2%nat; 3%nat];
            Limiter.arrivals := [1%nat; 2%nat; 3%nat];
            Limiter.granted := [1%nat; 2%nat; 3%nat] |}
       = [1%nat; 2%nat] ++ [] ++ 3%nat :: g.
Proof.
  destruct (enqueueRequest_orderly DEFAULT_CONFIG three_callers
              three_callers_orderly) as ((Hbound & _) & _ & Hlive & _).
  split.
  - exact Hbound.
  - apply (Hlive [] 3%nat [] [Limiter.Settle 1%nat]); [reflexivity .. | ].
    cbn. lia.
Qed.

(** A run of four callers on the default limiter. *)
Definition overtaken : Limiter.State :=
  Limiter.resume
    (Limiter.enter DEFAULT_CONFIG 4%nat
       (Limiter.finally_block 1%nat
          (Limiter.enter DEFAULT_CONFIG 3%nat
             (Limiter.enter DEFAULT_CONFIG 2%nat
                (Limiter.enter DEFAULT_CONFIG 1%nat Limiter.initial))))).

(** C2 on the default limiter of two slots.  The callers 1 and 2 hold the
    slots and caller 3 waits.  The request of caller 1 settles: its
    [finally] block lowers [activeRequests] to 1 and resolves the promise
    of caller 3.  Before the continuation of caller 3 runs, caller 4 calls
    [enqueueRequest], finds [activeRequests] below the limit and proceeds;
    the continuation of caller 3 then proceeds as well, without looking at
    [activeRequests] again.  Three requests are in flight on two slots, and
    caller 4 holds a slot before caller 3, who called first. *)
Theorem enqueueRequest_exceeds_limit :
  Limiter.reachable DEFAULT_CONFIG overtaken
  /\ overtaken
     = {| Limiter.activeRequests := 3;
          Limiter.requestQueue := [];
          Limiter.resolved := [];
          Limiter.inFlight := [2%nat; 4%nat; 3%nat];
          Limiter.arrivals := [1%nat; 2%nat; 3%nat; 4%nat];
          Limiter.granted := [1%nat; 2%nat; 4%nat; 3%nat] |}
  /\ (maxConcurrentRequests DEFAULT_CONFIG < length (Limiter.inFlight overtaken))%nat.
Proof.
  split; [|split; [reflexivity | vm_compute; lia]].
  unfold overtaken.
  repeat (eapply Limiter.reachable_step;
          [| first [ apply Limiter.step_resume; vm_compute; discriminate
                   | apply Limiter.step_settle; vm_compute; tauto
                   | apply Limiter.step_call ]]).
  apply Limiter.reachable_initial.
Qed.

(** ** The retrying fetcher *)

Definition no_json : string -> option Js.JSON := fun _ => None.

Section FetchFacts.
Import Js Fetch.
Variable config : IPTVFetchConfig.
Variable JSON_parse : string -> option JSON.
Variable fetch : list Event -> Transport -> string -> Response.
Variable proxyService : list Event -> string -> ProxyResponse.

Definition refused (r : Response) : Prop :=
  match r with Status true _ _ => False | _ => True end.

Definition proxy_refused (r : ProxyResponse) : Prop :=
  match r with ProxyResult true _ => False | _ => True end.

Definition with_trace (w : World) (events : list Event) : World :=
  {| activeRequests := activeRequests w;
     requestQueue := requestQueue w;
     trace := trace w ++ events |}.

(** The requests of one attempt on which every transport is refused. *)
Definition attempt_events (url : string) : list Event :=
  [Fetched CustomProxy url; Fetched Direct url]
  ++ (if useProxy config
      then ProxyFetched url :: map (fun p => Fetched (CorsProxy p) url) corsProxies
      else []).

(** The events of a fetch that is refused throughout, from the attempt
    with retry count [retryCount] on, when [remaining] retries are left. *)
Fixpoint refused_run (url : string) (remaining retryCount : nat) : list Event :=
  Slept (rateLimitDelay config) :: attempt_events url ++
  match remaining with
  | O => []
  | S n =>
      Slept (initialDelay config * 2 ^ Z.of_nat retryCount)
      :: refused_run url n (S retryCount)
  end.

Hypothesis fetch_refused : forall h t u, refused (fetch h t u).
Hypothesis proxy_refused_always : forall h u, proxy_refused (proxyService h u).

Lemma with_trace_app w e1 e2 :
  with_trace (with_trace w e1) e2 = with_trace w (e1 ++ e2).
Proof. unfold with_trace. cbn. now rewrite <- app_assoc. Qed.

Lemma try_transport_refused t url w :
  try_transport JSON_parse fetch t url w = (None, with_trace w [Fetched t url]).
Proof.
  unfold try_transport, window_fetch.
  pose proof (fetch_refused (trace w) t url) as H.
  destruct (fetch (trace w) t url) as [|[|] ct body]; cbn in H;
    [reflexivity | destruct H | reflexivity].
Qed.

Lemma try_corsProxies_refused url proxies : forall w,
  try_corsProxies JSON_parse fetch proxies url w
  = (Threw "All proxy attempts failed",
     with_trace w (map (fun p => Fetched (CorsProxy p) url) proxies)).
Proof.
  induction proxies as [|p rest IH]; intros w; cbn [try_corsProxies map].
  - unfold with_trace. rewrite app_nil_r. now destruct w.
  - unfold window_fetch.
    pose proof (fetch_refused (trace w) (CorsProxy p) url) as H.
    destruct (fetch (trace w) (CorsProxy p) url) as [|[|] ct body]; cbn in H;
      try destruct H; rewrite IH; unfold with_trace; cbn;
      now rewrite <- app_assoc.
Qed.

Lemma fetchWithProxy_refused url w :
  fetchWithProxy JSON_parse fetch proxyService url w
  = (Threw "All proxy attempts failed",
     with_trace w (ProxyFetched url
                   :: map (fun p => Fetched (CorsProxy p) url) corsProxies)).
Proof.
  unfold fetchWithProxy, proxyService_fetchWithProxy.
  pose proof (proxy_refused_always (trace w) url) as H.
  destruct (proxyService (trace w) url) as [|[|] d]; cbn in H;
    try destruct H; rewrite try_corsProxies_refused; unfold with_trace; cbn;
    now rewrite <- app_assoc.
Qed.

Lemma fetchWithRetry_fuel_unfold fuel url retryCount w :
  fetchWithRetry_fuel config JSON_parse fetch proxyService fuel url retryCount w
  = enqueueRequest config (url, retryCount)
      (fun w1 =>
         if includes url "xmltv.php" then
           match window_fetch fetch Direct url w1 with
           | (Status true _ body, w2) => (Returned (JStr body), w2)
           | (_, w2) => (Returned JNull, w2)
           end
         else
           match try_transport JSON_parse fetch CustomProxy url w1 with
           | (Some v, w2) => (Returned v, w2)
           | (None, w2) =>
           match try_transport JSON_parse fetch Direct url w2 with
           | (Some v, w3) => (Returned v, w3)
           | (None, w3) =>
           match (if useProxy config
                  then match fetchWithProxy JSON_parse fetch proxyService url w3 with
                       | (Returned v, w4) => (Some v, w4)
                       | (_, w4) => (None, w4)
                       end
                  else (None, w3)) with
           | (Some v, w4) => (Returned v, w4)
           | (None, w4) =>
               if (retryCount <? maxRetries config)%nat then
                 match fuel with
                 | O => (Pending, w4)
                 | S fuel' =>
                     fetchWithRetry_fuel config JSON_parse fetch proxyService
                       fuel' url (S retryCount)
                       (sleep (initialDelay config * 2 ^ Z.of_nat retryCount) w4)
                 end
               else (Threw (retries_message config), w4)
           end end end)
      w.
Proof. destruct fuel; reflexivity. Qed.

(** With a free slot for every nested attempt, a fetch that is refused
    throughout runs all its attempts, sleeps [initialDelay * 2 ^ r] after
    the attempt with retry count [r], throws after the last one and
    gives every slot back. *)
Lemma fetchWithRetry_fuel_refused url :
  includes url "xmltv.php" = false ->
  forall remaining retryCount w,
    (retryCount + remaining = maxRetries config)%nat ->
    (activeRequests w + remaining < maxConcurrentRequests config)%nat ->
    requestQueue w = [] ->
    fetchWithRetry_fuel config JSON_parse fetch proxyService
      (S remaining) url retryCount w
    = (Threw (retries_message config),
       with_trace w (refused_run url remaining retryCount)).
Proof.
  intros Hurl. induction remaining as [|n IH]; intros r w Hsum Hcap Hq.
  - rewrite fetchWithRetry_fuel_unfold. unfold enqueueRequest.
    destruct (Nat.leb_spec (maxConcurrentRequests config) (activeRequests w)); [lia|].
    rewrite Hurl. rewrite !try_transport_refused.
    assert (Hlt : (r <? maxRetries config)%nat = false) by (apply Nat.ltb_ge; lia).
    cbn [refused_run]. unfold attempt_events.
    destruct (useProxy config).
    + rewrite fetchWithProxy_refused. rewrite Hlt.
      unfold finally_block, with_trace, sleep. cbn.
      rewrite Hq. cbn. repeat rewrite <- app_assoc. reflexivity.
    + rewrite Hlt.
      unfold finally_block, with_trace, sleep. cbn.
      rewrite Hq. cbn. repeat rewrite <- app_assoc. reflexivity.
  - rewrite fetchWithRetry_fuel_unfold. unfold enqueueRequest at 1.
    destruct (Nat.leb_spec (maxConcurrentRequests config) (activeRequests w)); [lia|].
    rewrite Hurl. rewrite !try_transport_refused.
    assert (Hlt : (r <? maxRetries config)%nat = true) by (apply Nat.ltb_lt; lia).
    cbn [refused_run]. unfold attempt_events.
    destruct (useProxy config).
    + rewrite fetchWithProxy_refused. rewrite Hlt.
      rewrite IH; [| lia | cbn; lia | cbn; exact Hq].
      unfold finally_block, with_trace, sleep. cbn.
      rewrite Hq. cbn. repeat rewrite <- app_assoc. reflexivity.
    + rewrite Hlt.
      rewrite IH; [| lia | cbn; lia | cbn; exact Hq].
      unfold finally_block, with_trace, sleep. cbn.
      rewrite Hq. cbn. repeat rewrite <- app_assoc. reflexivity.
Qed.

(** Without that room the fetch never settles: the attempts that found
    a slot keep it while they wait for the next attempt, and the attempt
    that finds the limiter full waits for them. *)
Lemma fetchWithRetry_fuel_blocks url :
  includes url "xmltv.php" = false ->
  forall free fuel retryCount w,
    (activeRequests w + free = maxConcurrentRequests config)%nat ->
    (retryCount + free <= maxRetries config)%nat ->
    (free <= fuel)%nat ->
    requestQueue w = [] ->
    exists w',
      fetchWithRetry_fuel config JSON_parse fetch proxyService
        (S fuel) url retryCount w = (Pending, w')
      /\ activeRequests w' = maxConcurrentRequests config
      /\ requestQueue w' = [(url, (retryCount + free)%nat)].
Proof.
  intros Hurl. induction free as [|k IH]; intros fuel r w Hslots Hretries Hfuel Hq;
    rewrite fetchWithRetry_fuel_unfold; unfold enqueueRequest.
  - destruct (Nat.leb_spec (maxConcurrentRequests config) (activeRequests w)); [|lia].
    eexists. split; [reflexivity|]. cbn. rewrite Hq, Nat.add_0_r. split; [lia | reflexivity].
  - destruct (Nat.leb_spec (maxConcurrentRequests config) (activeRequests w)); [lia|].
    rewrite Hurl. rewrite !try_transport_refused.
    assert (Hlt : (r <? maxRetries config)%nat = true) by (apply Nat.ltb_lt; lia).
    destruct fuel as [|fuel']; [lia|].
    assert (Hnext : forall w4,
              activeRequests w4 = S (activeRequests w) ->
              requestQueue w4 = [] ->
              exists w',
                fetchWithRetry_fuel config JSON_parse fetch proxyService
                  (S fuel') url (S r)
                  (sleep (initialDelay config * 2 ^ Z.of_nat r) w4) = (Pending, w')
                /\ activeRequests w' = maxConcurrentRequests config
                /\ requestQueue w' = [(url, (r + S k)%nat)]).
    { intros w4 Ha Hq4. replace (r + S k)%nat with (S r + k)%nat by lia.
      apply IH; cbn; try lia. exact Hq4. }
    destruct (useProxy config).
    + rewrite fetchWithProxy_refused. rewrite Hlt.
      match goal with |- context [fetchWithRetry_fuel _ _ _ _ _ _ _ (sleep _ ?w4)] =>
        destruct (Hnext w4) as (w' & -> & Ha & Hqueue); [reflexivity | exact Hq |]
      end.
      exists w'. repeat split; assumption.
    + rewrite Hlt.
      match goal with |- context [fetchWithRetry_fuel _ _ _ _ _ _ _ (sleep _ ?w4)] =>
        destruct (Hnext w4) as (w' & -> & Ha & Hqueue); [reflexivity | exact Hq |]
      end.
      exists w'. repeat split; assumption.
Qed.

(** X2.  On an idle limiter that has no more slots than the fetch has
    retries, a fetch that is refused throughout never settles: its first
    attempts take every slot and keep it, and the attempt that follows
    waits in the queue for a slot that only they could release. *)
Lemma fetchWithRetry_blocks url :
  includes url "xmltv.php" = false ->
  (maxConcurrentRequests config <= maxRetries config)%nat ->
  exists w',
    fetchWithRetry config JSON_parse fetch proxyService url 0 idle = (Pending, w')
    /\ activeRequests w' = maxConcurrentRequests config
    /\ requestQueue w' = [(url, maxConcurrentRequests config)].
Proof.
  intros Hurl Hle. unfold fetchWithRetry. rewrite Nat.sub_0_r.
  apply (fetchWithRetry_fuel_blocks url Hurl (maxConcurrentRequests config)
           (maxRetries config) 0%nat idle); cbn; try lia. reflexivity.
Qed.

Lemma fetchWithRetry_refused url w :
  includes url "xmltv.php" = false ->
  (activeRequests w + maxRetries config < maxConcurrentRequests config)%nat ->
  requestQueue w = [] ->
  fetchWithRetry config JSON_parse fetch proxyService url 0 w
  = (Threw (retries_message config),
     with_trace w (refused_run url (maxRetries config) 0)).
Proof.
  intros Hurl Hcap Hq. unfold fetchWithRetry. rewrite Nat.sub_0_r.
  apply fetchWithRetry_fuel_refused; [assumption | reflexivity | assumption..].
Qed.

End FetchFacts.

Lemma fetchWithRetry_blocks_witness :
  exists w',
    Fetch.fetchWithRetry DEFAULT_CONFIG no_json Fetch.dead_network Fetch.dead_proxy
      "http://tv.example/player_api.php?username=u&password=p&action=get_vod_streams"
      0 Fetch.idle
    = (Pending, w').
Proof.
  destruct (fetchWithRetry_blocks DEFAULT_CONFIG no_json Fetch.dead_network
              Fetch.dead_proxy (fun _ _ _ => I) (fun _ _ => I)
              "http://tv.example/player_api.php?username=u&password=p&action=get_vod_streams"
              eq_refl)
    as (w' & Hrun & _).
  - cbn. lia.
  - exists w'. exact Hrun.
Defined.

Section EpgFetchFacts.
Import Js Fetch.
Variable config : IPTVFetchConfig.
Variable JSON_parse : string -> option JSON.
Variable fetch : list Event -> Transport -> string -> Response.
Variable proxyService : list Event -> string -> ProxyResponse.
Variable this : Service.

Lemma includes_app_r (a b sub : string) :
  includes b sub = true -> includes (a ++ b) sub = true.
Proof.
  intros H. induction a as [|c a IH].
  - exact H.
  - change (startsWith (String c (a ++ b)) sub || includes (a ++ b) sub = true).
    rewrite IH. apply orb_true_r.
Qed.

Lemma epgUrl_is_xmltv : includes (epgUrl this) "xmltv.php" = true.
Proof. unfold epgUrl. apply includes_app_r. reflexivity. Qed.

(** On an [xmltv.php] URL, [fetchWithRetry] makes one direct request
    after the pacing delay and returns its text, or [null]; it neither
    retries nor asks a proxy. *)
Lemma fetchWithRetry_xmltv url retryCount w :
  includes url "xmltv.php" = true ->
  (activeRequests w < maxConcurrentRequests config)%nat ->
  fetchWithRetry config JSON_parse fetch proxyService url retryCount w
  = (Returned
       match fetch (trace w ++ [Slept (rateLimitDelay config)]) Direct url with
       | Status true _ body => JStr body
       | _ => JNull
       end,
     {| activeRequests := activeRequests w;
        requestQueue := tl (requestQueue w);
        trace := trace w ++ [Slept (rateLimitDelay config); Fetched Direct url] |}).
Proof.
  intros Hurl Hfree. unfold fetchWithRetry. rewrite fetchWithRetry_fuel_unfold.
  unfold enqueueRequest.
  destruct (Nat.leb_spec (maxConcurrentRequests config) (activeRequests w)); [lia|].
  rewrite Hurl. unfold window_fetch, sleep. cbn [trace activeRequests requestQueue].
  destruct (fetch _ Direct url) as [|[|] ct body];
    unfold finally_block; cbn; rewrite <- app_assoc; reflexivity.
Qed.

Lemma fetchEPGXMLDirect_world w :
  snd (fetchEPGXMLDirect fetch this w)
  = {| activeRequests := activeRequests w;
       requestQueue := requestQueue w;
       trace := trace w ++ [Fetched Direct (epgUrl this)] |}.
Proof.
  unfold fetchEPGXMLDirect, window_fetch.
  destruct (fetch (trace w) Direct (epgUrl this)) as [|[|] ct xmlText];
    try reflexivity.
  destruct (String.eqb xmlText "" || negb (includes xmlText "<?xml")); reflexivity.
Qed.

(** C5, as the code has it.  [fetchEPGXML] asks the server directly, once.
    When the answer is a guide (status ok, a text that is not empty and
    holds [<?xml]) that text is returned and nothing else is done.
    Otherwise [fetchWithRetry] is called, which for this URL takes a slot
    of the limiter, sleeps the pacing delay and makes one more direct
    request: its text is returned when it holds [<?xml], and [null]
    otherwise.  The events are these two or three and no other: no proxy
    is asked and no backoff delay is slept.  When the limiter is full the
    second request is not made and the call waits in the queue. *)
Theorem fetchEPGXML_direct_only (w : World) :
  let url := epgUrl this in
  let first := fetch (trace w) Direct url in
  let second :=
    fetch (trace w ++ [Fetched Direct url; Slept (rateLimitDelay config)]) Direct url in
  let run := fetchEPGXML config JSON_parse fetch proxyService this w in
  (forall contentType doc,
     first = Status true contentType doc ->
     doc <> EmptyString -> includes doc "<?xml" = true ->
     run = (Returned (Some doc),
            {| activeRequests := activeRequests w;
               requestQueue := requestQueue w;
               trace := trace w ++ [Fetched Direct url] |}))
  /\ ((forall contentType doc,
         first = Status true contentType doc ->
         doc = EmptyString \/ includes doc "<?xml" = false) ->
      ((activeRequests w < maxConcurrentRequests config)%nat ->
       snd run = {| activeRequests := activeRequests w;
                    requestQueue := tl (requestQueue w);
                    trace := trace w ++ [Fetched Direct url;
                                         Slept (rateLimitDelay config);
                                         Fetched Direct url] |}
       /\ (forall contentType doc,
             second = Status true contentType doc ->
             includes doc "<?xml" = true ->
             fst run = Returned (Some doc))
       /\ ((forall contentType doc,
              second = Status true contentType doc ->
              includes doc "<?xml" = false) ->
           fst run = Returned None))
      /\ ((maxConcurrentRequests config <= activeRequests w)%nat ->
          run = (Pending,
                 {| activeRequests := activeRequests w;
                    requestQueue := requestQueue w ++ [(url, 0%nat)];
                    trace := trace w ++ [Fetched Direct url] |}))).
Proof.
  cbv zeta. unfold fetchEPGXML. split.
  - intros ct doc Hfirst Hnonempty Hxml.
    unfold fetchEPGXMLDirect, window_fetch. rewrite Hfirst, Hxml.
    apply String.eqb_neq in Hnonempty. rewrite Hnonempty. reflexivity.
  - intros Hfails.
    assert (Hdirect : fetchEPGXMLDirect fetch this w
                      = (None, {| activeRequests := activeRequests w;
                                  requestQueue := requestQueue w;
                                  trace := trace w ++ [Fetched Direct (epgUrl this)] |})).
    { unfold fetchEPGXMLDirect, window_fetch.
      destruct (fetch (trace w) Direct (epgUrl this)) as [|[|] ct doc] eqn:E;
        try reflexivity.
      destruct (Hfails ct doc eq_refl) as [-> | Hno]; [reflexivity|].
      rewrite Hno. now rewrite orb_true_r. }
    rewrite Hdirect. split.
    + intros Hfree.
      rewrite (fetchWithRetry_xmltv (epgUrl this) 0 _ epgUrl_is_xmltv)
        by exact Hfree.
      cbn [trace activeRequests requestQueue].
      assert (Htr : forall A (x y z : A) l, (l ++ [x]) ++ [y; z] = l ++ [x; y; z])
        by (intros; now rewrite <- app_assoc).
      assert (Htr2 : forall A (x y : A) l, (l ++ [x]) ++ [y] = l ++ [x; y])
        by (intros; now rewrite <- app_assoc).
      rewrite Htr2.
      destruct (fetch (trace w ++ [Fetched Direct (epgUrl this);
                                   Slept (rateLimitDelay config)])
                      Direct (epgUrl this)) as [|[|] ct body] eqn:E.
      * cbn [fst snd]. rewrite Htr. repeat split; try discriminate.
      * assert (Hsnd : forall o1 o2 : Outcome (option string),
                  snd (if includes body "<?xml"
                       then (o1, {| activeRequests := activeRequests w;
                                    requestQueue := tl (requestQueue w);
                                    trace := (trace w ++ [Fetched Direct (epgUrl this)])
                                             ++ [Slept (rateLimitDelay config);
                                                 Fetched Direct (epgUrl this)] |})
                       else (o2, {| activeRequests := activeRequests w;
                                    requestQueue := tl (requestQueue w);
                                    trace := (trace w ++ [Fetched Direct (epgUrl this)])
                                             ++ [Slept (rateLimitDelay config);
                                                 Fetched Direct (epgUrl this)] |}))
                  = {| activeRequests := activeRequests w;
                       requestQueue := tl (requestQueue w);
                       trace := trace w ++ [Fetched Direct (epgUrl this);
                                            Slept (rateLimitDelay config);
                                            Fetched Direct (epgUrl this)] |})
          by (intros; rewrite Htr; now destruct (includes body "<?xml")).
        split; [apply Hsnd|]. split.
        -- intros ct' doc [= _ <-] Hxml. now rewrite Hxml.
        -- intros Hno. now rewrite (Hno ct body eq_refl).
      * cbn [fst snd]. rewrite Htr. repeat split; try discriminate.
    + intros Hfull.
      unfold fetchWithRetry. rewrite fetchWithRetry_fuel_unfold.
      unfold enqueueRequest. cbn [activeRequests requestQueue trace].
      destruct (Nat.leb_spec (maxConcurrentRequests config) (activeRequests w)); [|lia].
      reflexivity.
Qed.

End EpgFetchFacts.

(** C3 on the default configuration.  Every transport is refused.  The
    attempts with retry counts 0 and 1 take the two slots of the limiter
    and keep them while they wait for the attempt that follows; the
    attempt with retry count 2 finds the limiter full and waits in the
    queue for a slot that only those two could release.  The backoff
    delays slept so far are 1000 and 2000 ms; the error that follows the
    last retry is never thrown. *)
Definition live_streams_url : string :=
  "http://tv.example/player_api.php?username=u&password=p&action=get_live_streams".

Theorem fetchWithRetry_default_never_settles :
  let run := Fetch.fetchWithRetry DEFAULT_CONFIG no_json
               Fetch.dead_network Fetch.dead_proxy live_streams_url 0 Fetch.idle in
  fst run = Pending
  /\ Fetch.activeRequests (snd run) = 2%nat
  /\ Fetch.requestQueue (snd run) = [(live_streams_url, 2%nat)]
  /\ List.filter (Fetch.is_backoff_or_proxy 500) (Fetch.trace (snd run))
     = List.filter (Fetch.is_backoff_or_proxy 500)
         (attempt_events DEFAULT_CONFIG live_streams_url
          ++ [Fetch.Slept 1000]
          ++ attempt_events DEFAULT_CONFIG live_streams_url
          ++ [Fetch.Slept 2000]).
Proof. vm_compute. repeat split; reflexivity. Qed.

(** The same fetch on a limiter with four slots: three retries after
    1000, 2000 and 4000 ms, then the error. *)
Definition roomy_config : IPTVFetchConfig := {|
  maxRetries := 3;
  initialDelay := 1000;
  cacheTime := 3600000;
  useProxy := true;
  rateLimitDelay := 500;
  maxConcurrentRequests := 4
|}.

Lemma fetchWithRetry_roomy_throws :
  Fetch.fetchWithRetry roomy_config no_json
    Fetch.dead_network Fetch.dead_proxy live_streams_url 0 Fetch.idle
  = (Threw "Failed to fetch after 3 retries",
     with_trace Fetch.idle (refused_run roomy_config live_streams_url 3 0)).
Proof.
  apply (fetchWithRetry_refused roomy_config no_json Fetch.dead_network Fetch.dead_proxy).
  - intros h t u. exact I.
  - intros h u. exact I.
  - reflexivity.
  - cbn. lia.
  - reflexivity.
Qed.

(** C5 fails as written: with every request refused, [fetchEPGXML] gives
    up with [null] after two direct requests, and its events contain no
    request to a proxy and no backoff delay. *)
Definition tv_example : Fetch.Service :=
  {| Fetch.baseUrl := "http://tv.example";
     Fetch.username := "u";
     Fetch.password := "p";
     Fetch.type := Fetch.xtream |}.

Lemma fetchEPGXML_gives_up_without_fallback :
  let run := Fetch.fetchEPGXML DEFAULT_CONFIG no_json
               Fetch.dead_network Fetch.dead_proxy tv_example Fetch.idle in
  fst run = Returned None
  /\ Fetch.trace (snd run)
     = [Fetch.Fetched Fetch.Direct (Fetch.epgUrl tv_example);
        Fetch.Slept 500;
        Fetch.Fetched Fetch.Direct (Fetch.epgUrl tv_example)]
  /\ existsb (Fetch.is_backoff_or_proxy 500) (Fetch.trace (snd run)) = false.
Proof. vm_compute. repeat split; reflexivity. Qed.

(** A server that refuses the first request and answers every later one
    with a guide: on an idle limiter [fetchEPGXML] returns. *)
Definition second_try_network : list Fetch.Event -> Fetch.Transport -> string -> Fetch.Response :=
  fun history _ _ =>
    match history with
    | [] => Fetch.NetworkError
    | _ => Fetch.Status true "application/xml" "<?xml version='1.0'?><tv></tv>"
    end.

Lemma fetchEPGXML_direct_only_witness :
  fst (Fetch.fetchEPGXML DEFAULT_CONFIG no_json second_try_network Fetch.dead_proxy
         tv_example Fetch.idle)
  = Returned (Some "<?xml version='1.0'?><tv></tv>"%string).
Proof.
  refine (proj1 (proj2 (proj1 (proj2 (fetchEPGXML_direct_only DEFAULT_CONFIG no_json
                                        second_try_network Fetch.dead_proxy tv_example
                                        Fetch.idle) _) _))
            "application/xml"%string _ eq_refl eq_refl).
  - intros contentType doc. discriminate.
  - cbn. lia.
Defined.

(** ** Parsing the guide *)

Section EpgFacts.
Import Js Runtime Names Epg.

Lemma read_push_eq (h : Heap) (a : Address) (p : EPGProgramType) :
  (a < length h)%nat -> read (push a p h) a = read h a ++ [p].
Proof.
  intros Ha. unfold read, push. rewrite list_lookup_alter_eq.
  destruct (lookup_lt_is_Some_2 h a Ha) as [array E]. now rewrite E.
Qed.

Lemma read_push_ne (h : Heap) (a b : Address) (p : EPGProgramType) :
  a <> b -> read (push a p h) b = read h b.
Proof. intros Hne. unfold read, push. now rewrite list_lookup_alter_ne. Qed.

(** The three things a programme must carry to be kept. *)
Definition complete (program : Node) : bool :=
  negb (falsy (first_text "title" program))
  && negb (falsy (getAttribute "start" program))
  && negb (falsy (getAttribute "stop" program)).

Lemma falsy_false (v : option string) :
  falsy v = false -> exists text, v = Some text /\ text <> EmptyString.
Proof.
  unfold falsy, truthy. destruct v as [[|c rest]|]; try discriminate.
  intros _. eexists. split; [reflexivity | discriminate].
Qed.

Lemma program_of_complete channelName program :
  complete program = true ->
  exists programData,
    program_of channelName program = Some programData
    /\ first_text "title" program = Some (title programData)
    /\ getAttribute "start" program = Some (startTime programData)
    /\ getAttribute "stop" program = Some (endTime programData)
    /\ channel programData = Some channelName.
Proof.
  unfold complete. intros H.
  apply andb_prop in H as [H Hstop]. apply andb_prop in H as [Htitle Hstart].
  apply negb_true_iff in Htitle, Hstart, Hstop.
  destruct (falsy_false _ Htitle) as (t & Et & Hne).
  destruct (falsy_false _ Hstart) as (b & Eb & _).
  destruct (falsy_false _ Hstop) as (e & Ee & _).
  unfold program_of. rewrite Hstart, Hstop. rewrite Et.
  destruct t as [|c t]; [congruence|]. cbn [truthy String.eqb orb].
  eexists. split; [reflexivity|]. cbn.
  unfold attribute_or_empty. rewrite Eb, Ee. repeat split; reflexivity.
Qed.

Lemma program_of_incomplete channelName program :
  complete program = false -> program_of channelName program = None.
Proof.
  unfold complete, program_of. intros H.
  destruct (falsy (first_text "title" program)) eqn:Htitle.
  - unfold falsy in Htitle.
    destruct (truthy (first_text "title" program)); [discriminate|]. reflexivity.
  - destruct (falsy_false _ Htitle) as (t & Et & Hne). rewrite Et.
    destruct t as [|c t]; [congruence|]. cbn [truthy String.eqb orb].
    cbn in H.
    destruct (falsy (getAttribute "start" program)); [reflexivity|].
    destruct (falsy (getAttribute "stop" program)); [reflexivity|]. discriminate.
Qed.

(** C6, as the code has it.  A [programme] whose [channel] attribute
    resolves to a known channel is kept exactly when it carries a title, a
    [start] and a [stop], none of them empty: it is then pushed on the
    array of that channel with these three values.  When any one of the
    three is missing the element is ignored and nothing changes. *)
Theorem programme_kept_iff_title_start_stop
    (st : ParseState) (program : Node) (c : EPGChannelType Address) :
  resolve_channel st (attribute_or_empty "channel" program) = Some c ->
  (programs c < length (heap st))%nat ->
  (complete program = true ->
   exists programData,
     read (heap (add_program st program)) (programs c)
       = read (heap st) (programs c) ++ [programData]
     /\ first_text "title" program = Some (title programData)
     /\ getAttribute "start" program = Some (startTime programData)
     /\ getAttribute "stop" program = Some (endTime programData))
  /\ (complete program = false -> add_program st program = st).
Proof.
  intros Hres Hlt. split.
  - intros Hc.
    destruct (program_of_complete (name c) program Hc)
      as (d & Hd & Ht & Hs & He & _).
    exists d. unfold add_program. rewrite Hres, Hd. cbn [heap].
    rewrite read_push_eq by exact Hlt. repeat split; assumption.
  - intros Hc. unfold add_program. rewrite Hres.
    now rewrite (program_of_incomplete (name c) program Hc).
Qed.

End EpgFacts.

(** A guide with one channel and the state of the parser once the
    channels are read. *)
Definition espn_state : Epg.ParseState :=
  fold_left Epg.add_channel [Epg.channel_element "ESPN" "ESPN"]
    {| Epg.channels := []; Epg.channelsMap := ∅; Epg.heap := [] |}.

Definition espn_channel : Epg.EPGChannelType Epg.Address :=
  {| Epg.id := "ESPN"; Epg.name := "ESPN"; Epg.icon := ""; Epg.programs := 0%nat |}.

Definition news_at_nine : Runtime.Node :=
  Epg.programme (Some "ESPN") (Some "20240101210000 +0000")
    (Some "20240101220000 +0000") (Some "News").

Lemma programme_kept_iff_title_start_stop_witness :
  exists programData,
    Epg.read (Epg.heap (Epg.add_program espn_state news_at_nine)) 0
      = [] ++ [programData]
    /\ Epg.title programData = "News"%string.
Proof.
  destruct (programme_kept_iff_title_start_stop espn_state news_at_nine espn_channel)
    as [Hkept _].
  - vm_compute. reflexivity.
  - vm_compute. lia.
  - destruct (Hkept eq_refl) as (d & Hread & Ht & _).
    exists d. split; [exact Hread|].
    assert (E : Epg.first_text "title" news_at_nine = Some "News"%string)
      by reflexivity.
    rewrite E in Ht. injection Ht as Ht. symmetry. exact Ht.
Defined.

(** C6 fails as written: a programme of a known channel with a title and
    a [start] but no [stop] carries one of the two times, yet the parser
    drops it. *)
Definition news_without_stop : Runtime.Node :=
  Epg.programme (Some "ESPN") (Some "20240101210000 +0000") None (Some "News").

Definition no_stop_guide : Runtime.Node :=
  Epg.tv [Epg.channel_element "ESPN" "ESPN"; news_without_stop].

Lemma programme_with_start_only_is_dropped :
  Epg.first_text "title" news_without_stop = Some "News"%string
  /\ Runtime.getAttribute "start" news_without_stop = Some "20240101210000 +0000"%string
  /\ Epg.resolve_channel espn_state (Epg.attribute_or_empty "channel" news_without_stop)
     = Some espn_channel
  /\ Epg.add_program espn_state news_without_stop = espn_state
  /\ Epg.parseEPGXML Runtime.Date_getTime no_stop_guide
     = [{| Epg.id := "ESPN"; Epg.name := "ESPN"; Epg.icon := ""; Epg.programs := [] |}].
Proof. vm_compute. repeat split; reflexivity. Qed.

(** *** The order of the programmes *)

Section SortFacts.
Context {A : Type}.
Variable comparefn : A -> A -> option Z.

(** A comparator that answers NaN on every pair leaves the array as it
    is. *)
Lemma sort_NaN (l : list A) :
  (forall x y, In x l -> In y l -> comparefn x y = None) ->
  Runtime.sort comparefn l = l.
Proof.
  induction l as [|x l IH]; intros H; [reflexivity|].
  cbn [Runtime.sort]. rewrite IH by (intros; apply H; now right).
  destruct l as [|y l]; [reflexivity|].
  cbn [Runtime.insert_sorted]. unfold Runtime.sortCompare.
  rewrite (H x y) by (cbn; tauto). reflexivity.
Qed.
End SortFacts.

Lemma by_startTime_NaN (getTime : string -> option Z) (a b : Epg.EPGProgramType) :
  getTime (Epg.startTime a) = None -> Epg.by_startTime getTime a b = None.
Proof. intros H. unfold Epg.by_startTime. now rewrite H. Qed.

(** The same time stamps, once rewritten as the channel list does, are
    read by [Date], and in their order. *)
Lemma adjusted_dates_are_read :
  Runtime.Date_getTime "20240101210000 +0000" = None
  /\ Runtime.Date_getTime (Epg.adjustEPGDate "20240101210000 +0000") = Some 1704142800000
  /\ Runtime.Date_getTime (Epg.adjustEPGDate "20240102060000 +0000") = Some 1704175200000.
Proof. vm_compute. repeat split; reflexivity. Qed.

(** C7 on a guide whose second programme starts before its first.  The
    comparator of [parseEPGXML] hands the raw time stamps to [Date], gets
    NaN for both and answers NaN; the array stays in document order, the
    later programme first. *)
Definition morning_show : Runtime.Node :=
  Epg.programme (Some "ESPN") (Some "20240102060000 +0000")
    (Some "20240102070000 +0000") (Some "Morning show").

Definition unordered_guide : Runtime.Node :=
  Epg.tv [Epg.channel_element "ESPN" "ESPN"; morning_show; news_at_nine].

Theorem parseEPGXML_keeps_document_order :
  map (fun c => map Epg.startTime (Epg.programs c))
      (Epg.parseEPGXML Runtime.Date_getTime unordered_guide)
  = [["20240102060000 +0000"; "20240101210000 +0000"]]%string.
Proof. vm_compute. reflexivity. Qed.

(** *** The alternative ids of the A&E channel *)

(** An alternative channel gets an array of its own: a programme pushed
    on the array of the original afterwards does not reach it. *)
Lemma add_alternative_own_array
    (aeChannel : Epg.EPGChannelType Epg.Address) (st : Epg.ParseState)
    (altId : string) (p : Epg.EPGProgramType) :
  Epg.channelsMap st !! altId = None ->
  (Epg.programs aeChannel < length (Epg.heap st))%nat ->
  let st' := Epg.add_alternative aeChannel st altId in
  exists altChannel,
    Epg.channelsMap st' !! altId = Some altChannel
    /\ Epg.programs altChannel <> Epg.programs aeChannel
    /\ Epg.read (Epg.push (Epg.programs aeChannel) p (Epg.heap st'))
                (Epg.programs altChannel)
       = Epg.read (Epg.heap st) (Epg.programs aeChannel).
Proof.
  intros Hfree Hlt st'. subst st'. unfold Epg.add_alternative. rewrite Hfree.
  exists {| Epg.id := altId; Epg.name := Epg.name aeChannel;
            Epg.icon := Epg.icon aeChannel;
            Epg.programs := length (Epg.heap st) |}.
  cbn [Epg.channelsMap Epg.heap Epg.programs].
  split; [apply lookup_insert_eq|]. split; [lia|].
  rewrite read_push_ne by lia. unfold Epg.read at 1.
  rewrite lookup_app_r by lia. now rewrite Nat.sub_diag.
Qed.

(** C9 on a guide with the A&E channel and one programme.  The two
    alternative ids are registered, each with a copy of the array that the
    original held before any programme was read; the programme is pushed
    on the array of the original only, and the entries of the alternative
    ids hold nothing. *)
Definition ae_guide : Runtime.Node :=
  Epg.tv [Epg.channel_element "AE.br" "A&E";
          Epg.programme (Some "AE.br") (Some "20240101210000 +0000")
            (Some "20240101220000 +0000") (Some "The First 48")].

Theorem aeAlternatives_hold_no_programmes :
  map (fun c => (Epg.id c, map Epg.title (Epg.programs c)))
      (Epg.parseEPGXML Runtime.Date_getTime ae_guide)
  = [("AE.br", ["The First 48"]); ("br#a-e-hd", []); ("a-e-hd", [])]%string.
Proof. vm_compute. reflexivity. Qed.

(** ** Matching a name to a channel *)

Section MatchingFacts.
Import Js Names Epg Matching.
Context {P : Type}.
Local Abbreviation Channel := (EPGChannelType P).

Lemma find_some_nonempty {A : Type} (f : A -> bool) (l : list A) (x : A) :
  List.find f l = Some x -> (length l =? 0)%nat = false.
Proof. destruct l; [discriminate | reflexivity]. Qed.

Lemma by_known_mapping_nonempty channelName (channels : list Channel) c :
  by_known_mapping channelName channels = Some c ->
  (length channels =? 0)%nat = false.
Proof.
  unfold by_known_mapping.
  destruct (getKnownChannelMapping channelName) as [k| |]; try discriminate.
  destruct (List.find _ channels) eqn:E.
  - intros _. exact (find_some_nonempty _ _ _ E).
  - intros H. exact (find_some_nonempty _ _ _ H).
Qed.

(** The known mapping is tried first. *)
Lemma findMatchingChannel_known channelName (channels : list Channel) c :
  channelName <> EmptyString ->
  by_known_mapping channelName channels = Some c ->
  findMatchingChannel channelName channels = Some c.
Proof.
  intros Hname Hk. unfold findMatchingChannel.
  apply String.eqb_neq in Hname. rewrite Hname.
  rewrite (by_known_mapping_nonempty _ _ _ Hk). cbn [orb]. now rewrite Hk.
Qed.

(** The exact id is tried next. *)
Lemma findMatchingChannel_exact_id channelName (channels : list Channel) c :
  channelName <> EmptyString ->
  by_known_mapping channelName channels = None ->
  by_exact_id channelName channels = Some c ->
  findMatchingChannel channelName channels = Some c.
Proof.
  intros Hname Hk Hid. unfold findMatchingChannel.
  apply String.eqb_neq in Hname. rewrite Hname.
  rewrite (find_some_nonempty _ _ _ Hid). cbn [orb]. now rewrite Hk, Hid.
Qed.

Lemma find_first {A : Type} (f : A -> bool) (before after : list A) (hit : A) :
  Forall (fun x => f x = false) before -> f hit = true ->
  List.find f (before ++ hit :: after) = Some hit.
Proof.
  induction 1 as [|x before Hx _ IH]; intros Hhit; cbn [app List.find].
  - now rewrite Hhit.
  - rewrite Hx. exact (IH Hhit).
Qed.

Lemma find_nowhere {A : Type} (f : A -> bool) (l : list A) :
  Forall (fun x => f x = false) l -> List.find f l = None.
Proof.
  induction 1 as [|x l Hx _ IH]; cbn [List.find]; [reflexivity|].
  now rewrite Hx.
Qed.

Lemma Forall_differs (field : Channel -> string) (wanted : string) (l : list Channel) :
  Forall (fun c => field c <> wanted) l ->
  Forall (fun c => String.eqb (field c) wanted = false) l.
Proof.
  intros H. eapply List.Forall_impl; [|exact H]. intros c Hc. now apply String.eqb_neq.
Qed.

(** C8.  The source reads its two arguments and a constant table and
    nothing else, so its embedding is a function of the two.  For a name
    that is not empty, on any list of channels:
    - when the table maps the name to an id, the first channel with that
      id is the result;
    - when no channel has that id, the first channel with that id as its
      name is the result;
    - when the table finds nothing (no entry for the name, or no channel
      with the mapped id as its id or name), the first channel whose id is
      the name itself is the result.
    In each case this holds whatever the channels before and after it
    are, so also when one of them would be chosen by the normalized name,
    by containment or by the keywords. *)
Theorem findMatchingChannel_priority
    (channelName : string) (before after : list Channel) (hit : Channel) :
  latin1 channelName = true ->
  channelName <> EmptyString ->
  let channels := before ++ hit :: after in
  (forall knownChannelId,
     getKnownChannelMapping channelName = MappedTo knownChannelId ->
     id hit = knownChannelId ->
     Forall (fun c => id c <> knownChannelId) before ->
     findMatchingChannel channelName channels = Some hit)
  /\ (forall knownChannelId,
        getKnownChannelMapping channelName = MappedTo knownChannelId ->
        Forall (fun c => id c <> knownChannelId) channels ->
        name hit = knownChannelId ->
        Forall (fun c => name c <> knownChannelId) before ->
        findMatchingChannel channelName channels = Some hit)
  /\ ((forall knownChannelId,
         getKnownChannelMapping channelName = MappedTo knownChannelId ->
         Forall (fun c => id c <> knownChannelId /\ name c <> knownChannelId)
                channels) ->
      id hit = channelName ->
      Forall (fun c => id c <> channelName) before ->
      findMatchingChannel channelName channels = Some hit).
Proof.
  intros _ Hname channels. split; [|split].
  - intros k Hmap Hid Hbefore. apply findMatchingChannel_known; [exact Hname|].
    unfold by_known_mapping. rewrite Hmap. subst channels.
    rewrite (find_first (fun c => String.eqb (id c) k) before after hit).
    + reflexivity.
    + now apply Forall_differs.
    + now apply String.eqb_eq.
  - intros k Hmap Hnoid Hhit Hbefore. apply findMatchingChannel_known; [exact Hname|].
    unfold by_known_mapping. rewrite Hmap.
    rewrite (find_nowhere (fun c => String.eqb (id c) k) channels)
      by now apply Forall_differs.
    subst channels. apply find_first.
    + now apply (Forall_differs name).
    + now apply String.eqb_eq.
  - intros Hnothing Hid Hbefore. apply findMatchingChannel_exact_id; [exact Hname| |].
    + unfold by_known_mapping.
      destruct (getKnownChannelMapping channelName) as [k| |]; try reflexivity.
      specialize (Hnothing k eq_refl).
      rewrite (find_nowhere (fun c => String.eqb (id c) k) channels).
      * apply find_nowhere. eapply List.Forall_impl; [|exact Hnothing].
        intros c [_ Hc]. now apply String.eqb_neq.
      * eapply List.Forall_impl; [|exact Hnothing].
        intros c [Hc _]. now apply String.eqb_neq.
    + unfold by_exact_id. subst channels. apply find_first.
      * now apply Forall_differs.
      * now apply String.eqb_eq.
Qed.

End MatchingFacts.

Definition guide_channel (channelId channelName : string) : Epg.EPGChannelType unit :=
  {| Epg.id := channelId; Epg.name := channelName; Epg.icon := ""; Epg.programs := tt |}.

(** The name [Récord HD] on a guide whose first channel has the same
    normalized name and whose second channel has the mapped id: the
    second is found. *)
Lemma findMatchingChannel_priority_witness :
  Matching.findMatchingChannel "Récord HD"
    [guide_channel "c1" "Record"; guide_channel "Record" "RecordTV SP"]
  = Some (guide_channel "Record" "RecordTV SP").
Proof.
  refine (proj1 (findMatchingChannel_priority "Récord HD"
                   [guide_channel "c1" "Record"] []
                   (guide_channel "Record" "RecordTV SP") eq_refl _)
            "Record"%string _ _ _).
  - discriminate.
  - vm_compute. reflexivity.
  - reflexivity.
  - repeat constructor. discriminate.
Defined.

(** The name [c1] is in no entry of the table: the channel with that id
    is found, although the channel before it contains the name in its
    own. *)
Lemma findMatchingChannel_exact_id_example :
  Matching.getKnownChannelMapping "c1" = Matching.NoMapping
  /\ Matching.findMatchingChannel "c1"
       [guide_channel "x9" "Canal C1 Ação"; guide_channel "c1" "Um"]
     = Some (guide_channel "c1" "Um").
Proof. vm_compute. split; reflexivity. Qed.

(** ** Playlists *)

Module MinimalM3U.
Import Js Names M3UService.

(** An entry of a minimal playlist: a name, a URL and, if the line names
    one, a group. *)
Record Entry : Type := {
  entry_name : string;
  entry_url : string;
  entry_group : option string
}.






(** The text of the attributes on the [#EXTINF] line of an entry. *)
Definition attributes_text (e : Entry) : string :=
  match entry_group e with
  | Some g => (" group-title=" ++ String quote g ++ String quote EmptyString)%string
  | None => EmptyString
  end.

Definition info_line (e : Entry) : string :=
  ("#EXTINF:-1" ++ attributes_text e ++ "," ++ entry_name e)%string.

Fixpoint body (entries : list Entry) : string :=
  match entries with
  | [] => EmptyString
  | e :: rest =>
      (info_line e ++ String LF EmptyString ++ entry_url e ++ String LF EmptyString
       ++ body rest)%string
  end.










End MinimalM3U.

Section StringFacts.
Import Js Names M3UService MinimalM3U.

Lemma append_cons (x : ascii) (a b : string) :
  (String x a ++ b = String x (a ++ b))%string.
Proof. reflexivity. Qed.

Lemma append_nil_l (a : string) : ("" ++ a = a)%string.
Proof. reflexivity. Qed.

Lemma append_assoc (a b c : string) : ((a ++ b) ++ c = a ++ (b ++ c))%string.
Proof.
  induction a as [|x a IH]; [reflexivity|].
  rewrite !append_cons. now rewrite IH.
Qed.

Lemma append_nil_r (a : string) : (a ++ "" = a)%string.
Proof.
  induction a as [|x a IH]; [reflexivity|].
  rewrite append_cons. now rewrite IH.
Qed.







End StringFacts.

Section M3ULineFacts.
Import Js Names M3UService MinimalM3U.










End M3ULineFacts.

Section M3UParseFacts.
Import Js Names M3UService MinimalM3U.













End M3UParseFacts.

Section M3URoundTrip.
Import Js Names M3UService MinimalM3U.
















End M3URoundTrip.

(** ** Failures in the public operations *)

Section CatalogFacts.
Import Js Runtime Streams Catalog.
Variable config : IPTVFetchConfig.
Variable JSON_parse : string -> option JSON.
Variable fetch : list Fetch.Event -> Fetch.Transport -> string -> Fetch.Response.
Variable proxyService : list Fetch.Event -> string -> Fetch.ProxyResponse.
Variable this : Fetch.Service.
Context {codec_text : JsonCodec string}.
Context {codec_streams : JsonCodec (list StreamType)}.
Context {codec_categories : JsonCodec (list CategoryType)}.
Context {codec_guide : JsonCodec Guide}.
Variable parseFromString : string -> Node.
Variable getTime : string -> option Z.
Variable localeCompare : string -> string -> Z.

Local Abbreviation getStreams :=
  (getStreams config JSON_parse fetch proxyService this).
Local Abbreviation getCategories :=
  (getCategories config JSON_parse fetch proxyService this).
Local Abbreviation getM3UContent :=
  (getM3UContent config JSON_parse fetch proxyService this).
Local Abbreviation getEPG :=
  (getEPG config JSON_parse fetch proxyService this parseFromString getTime localeCompare).
Local Abbreviation fetch_guide :=
  (fetch_guide config JSON_parse fetch proxyService this parseFromString getTime
     localeCompare).

(** Nothing usable in the cache under a key. *)
Definition cache_miss {T : Type} {codec : JsonCodec T} (cacheKey : string)
    (e : Cache.Env Outside) : Prop :=
  Cache.cached parse config cacheKey e = None.

Lemma getCachedOrFetch_miss {T : Type} {codec : JsonCodec T} cacheKey fetchFn e :
  cache_miss cacheKey e ->
  fst (Catalog.getCachedOrFetch config cacheKey fetchFn e) = fst (fetchFn e).
Proof.
  unfold cache_miss, Catalog.getCachedOrFetch, Cache.getCachedOrFetch.
  cbn [Cache.env]. intros ->.
  destruct (fetchFn e) as [[v|m|] e']; reflexivity.
Qed.


(** In the structured mode the error of the fetch is the error of the
    operation. *)
Lemma getStreams_xtream_rethrows prefix action kind categoryId e message n' :
  Fetch.type this = Fetch.xtream ->
  cache_miss (T := list StreamType) (account_key this prefix (or_all categoryId)) e ->
  Fetch.fetchWithRetry config JSON_parse fetch proxyService
    (api_url this action categoryId) 0 (net (Cache.outside e)) = (Threw message, n') ->
  fst (getStreams prefix action kind categoryId e) = Threw message.
Proof.
  intros Htype Hmiss Hfetch. unfold Catalog.getStreams.
  rewrite getCachedOrFetch_miss by exact Hmiss.
  rewrite Htype. unfold Catalog.fetchWithRetry, lift. rewrite Hfetch. reflexivity.
Qed.

Lemma getCategories_xtream_rethrows kind e message n' :
  Fetch.type this = Fetch.xtream ->
  cache_miss (T := list CategoryType) (account_key this "categories" (kind_name kind)) e ->
  Fetch.fetchWithRetry config JSON_parse fetch proxyService
    (api_url this (categories_action kind) None) 0 (net (Cache.outside e))
    = (Threw message, n') ->
  fst (getCategories kind e) = Threw message.
Proof.
  intros Htype Hmiss Hfetch. unfold Catalog.getCategories.
  rewrite getCachedOrFetch_miss by exact Hmiss.
  rewrite Htype. unfold Catalog.fetchWithRetry, lift. rewrite Hfetch. reflexivity.
Qed.



(** [getM3UContent] never throws. *)
Lemma getM3UContent_never_throws e message :
  fst (getM3UContent e) <> Threw message.
Proof.
  unfold Catalog.getM3UContent.
  destruct (m3uCache (Cache.outside e)); [discriminate|].
  destruct (Catalog.getCachedOrFetch _ _ _ _) as [[v|m|] e']; discriminate.
Qed.


Lemma fetch_guide_no_document channelId e :
  fst (Catalog.fetchEPGXMLDirect fetch this e) = None ->
  fst (fetch_guide channelId e) = Returned [].
Proof.
  unfold Catalog.fetch_guide.
  destruct (Catalog.fetchEPGXMLDirect fetch this e) as [[xmlContent|] e1];
    cbn; [discriminate | reflexivity].
Qed.


(** A callback of the hook never throws: the error of the service
    becomes the empty list and a message. *)
Lemma guarded_catches {T : Type}
    (operation : Cache.Env Outside -> Outcome (list T) * Cache.Env Outside) e :
  (forall message, fst (fst (guarded operation e)) <> Threw message)
  /\ (forall message,
        fst (operation e) = Threw message ->
        fst (fst (guarded operation e)) = Returned []
        /\ error (snd (fst (guarded operation e))) = Some message).
Proof.
  unfold guarded. destruct (operation e) as [[result|m|] e']; cbn; split;
    intros; try discriminate; try congruence.
  injection H as <-. split; reflexivity.
Qed.

(** *** A network on which every request is refused *)


Definition network_down : Prop :=
  (forall h t u, refused (fetch h t u))
  /\ (forall h u, proxy_refused (proxyService h u)).















(** *** The guide *)

(** The direct download fails when the answer is not a guide. *)
Definition no_guide (e : Cache.Env Outside) : Prop :=
  forall contentType doc,
    fetch (Fetch.trace (net (Cache.outside e))) Fetch.Direct (Fetch.epgUrl this)
    = Fetch.Status true contentType doc ->
    doc = EmptyString \/ includes doc "<?xml" = false.


Lemma network_down_no_guide e : network_down -> no_guide e.
Proof.
  intros [Hf _] ct doc Heq.
  pose proof (Hf (Fetch.trace (net (Cache.outside e))) Fetch.Direct (Fetch.epgUrl this))
    as H.
  rewrite Heq in H. destruct H.
Qed.


(** *** An answer with an item that is [null] *)





End CatalogFacts.

(** A run on a cold cache: the service of [tv.example] in the structured
    mode, every request refused.  The codec writes entries that are never
    read back in such a run. *)
Definition write_only (T : Type) : Catalog.JsonCodec T :=
  {| Catalog.stringify := fun _ => EmptyString; Catalog.parse := fun _ => None |}.

Definition cold_env : Cache.Env Catalog.Outside :=
  {| Cache.settings := ∅;
     Cache.now := 1000;
     Cache.outside := {| Catalog.net := Fetch.idle; Catalog.m3uCache := None |} |}.






(** The hook on a limiter with room, every request refused: the empty
    list and the message of the fetch. *)
Lemma guarded_getLiveStreams_refused :
  fst (Catalog.guarded
         (Catalog.getStreams roomy_config no_json Fetch.dead_network
            Fetch.dead_proxy tv_example (codec_text := write_only string)
            (codec_streams := write_only (list Streams.StreamType))
            "live" "get_live_streams" Streams.live None)
         cold_env)
  = (Returned [],
     {| Catalog.isLoading := false;
        Catalog.error := Some "Failed to fetch after 3 retries"%string |}).
Proof. vm_compute. reflexivity. Qed.

(** The playlist mode, every request refused: the empty list on a
    limiter with room, no end on the default one. *)
Definition tv_playlist : Fetch.Service :=
  {| Fetch.baseUrl := "http://tv.example";
     Fetch.username := "u";
     Fetch.password := "p";
     Fetch.type := Fetch.m3u_url |}.

Definition refused_playlist_streams (config : IPTVFetchConfig)
    : Outcome (list Streams.StreamType) :=
  fst (Catalog.getLiveStreams config no_json Fetch.dead_network Fetch.dead_proxy
         tv_playlist (codec_text := write_only string)
         (codec_streams := write_only (list Streams.StreamType)) None cold_env).

Lemma getLiveStreams_playlist_refused :
  refused_playlist_streams roomy_config = Returned []
  /\ refused_playlist_streams DEFAULT_CONFIG = Pending.
Proof. vm_compute. split; reflexivity. Qed.

(** The server sends a guide in which the parser finds no channel and
    refuses every other request.  Without a channel id [getEPG] returns
    the empty list.  With one, it calls [getLiveStreams]: on the default
    configuration that call never settles, and neither does [getEPG]; on
    a limiter with room it throws, and [getEPG] returns the empty list. *)
Definition guide_only_network : list Fetch.Event -> Fetch.Transport -> string -> Fetch.Response :=
  fun _ t url =>
    match t with
    | Fetch.Direct =>
        if Js.includes url "xmltv.php"
        then Fetch.Status true "application/xml" "<?xml version='1.0'?><tv></tv>"
        else Fetch.NetworkError
    | _ => Fetch.NetworkError
    end.

Definition getEPG_of_empty_guide (config : IPTVFetchConfig) (channelId : option string)
    : Outcome (list (Epg.EPGChannelType (list Epg.EPGProgramType))) :=
  fst (Catalog.getEPG config no_json guide_only_network Fetch.dead_proxy tv_example
         (codec_text := write_only string)
         (codec_streams := write_only (list Streams.StreamType))
         (codec_guide := write_only _)
         (fun _ => Epg.tv []) Runtime.Date_getTime (fun _ _ => 0)
         channelId cold_env).

Lemma getEPG_waits_for_getLiveStreams :
  getEPG_of_empty_guide DEFAULT_CONFIG None = Returned []
  /\ getEPG_of_empty_guide DEFAULT_CONFIG (Some "ESPN"%string) = Pending
  /\ getEPG_of_empty_guide roomy_config (Some "ESPN"%string) = Returned [].
Proof. vm_compute. repeat split; reflexivity. Qed.



(* ===================================================================== *)
(** * Part III. Further properties of the code                            *)
(* ===================================================================== *)

(** ** The retrying fetcher and the limiter, on any network *)

Section FetchLimiterFacts.
Import Js Fetch.
Variable config : IPTVFetchConfig.
Variable JSON_parse : string -> option JSON.
Variable fetch : list Event -> Transport -> string -> Response.
Variable proxyService : list Event -> string -> ProxyResponse.

(** A step of the fetch layer that leaves the limiter alone and only adds
    events. *)
Definition extends (w w' : World) : Prop :=
  activeRequests w' = activeRequests w
  /\ requestQueue w' = requestQueue w
  /\ exists events, trace w' = trace w ++ events.

Lemma extends_refl w : extends w w.
Proof. repeat split. exists []. now rewrite app_nil_r. Qed.

Lemma extends_trans w1 w2 w3 : extends w1 w2 -> extends w2 w3 -> extends w1 w3.
Proof.
  intros (Ha & Hq & e1 & He1) (Ha' & Hq' & e2 & He2).
  repeat split; try congruence.
  exists (e1 ++ e2). rewrite He2, He1. now rewrite app_assoc.
Qed.

Lemma window_fetch_extends t url w : extends w (snd (window_fetch fetch t url w)).
Proof. repeat split. now exists [Fetched t url]. Qed.

Lemma sleep_extends ms w : extends w (sleep ms w).
Proof. repeat split. now exists [Slept ms]. Qed.

Lemma try_transport_extends t url w :
  extends w (snd (try_transport JSON_parse fetch t url w)).
Proof.
  unfold try_transport.
  pose proof (window_fetch_extends t url w) as H.
  destruct (window_fetch fetch t url w) as [[|[|] ct body] w']; cbn [snd] in *;
    try exact H.
  destruct (includes ct "application/json"); exact H.
Qed.

Lemma try_corsProxies_extends url proxies : forall w,
  extends w (snd (try_corsProxies JSON_parse fetch proxies url w))
  /\ fst (try_corsProxies JSON_parse fetch proxies url w) <> Pending.
Proof.
  induction proxies as [|p rest IH]; intros w; cbn [try_corsProxies].
  - split; [apply extends_refl | discriminate].
  - pose proof (window_fetch_extends (CorsProxy p) url w) as H.
    destruct (window_fetch fetch (CorsProxy p) url w) as [[|[|] ct body] w'];
      cbn [snd] in H.
    + destruct (IH w') as [He Hp]. split; [eapply extends_trans; eassumption | exact Hp].
    + split; [exact H | discriminate].
    + destruct (IH w') as [He Hp]. split; [eapply extends_trans; eassumption | exact Hp].
Qed.

Lemma fetchWithProxy_extends url w :
  extends w (snd (fetchWithProxy JSON_parse fetch proxyService url w))
  /\ fst (fetchWithProxy JSON_parse fetch proxyService url w) <> Pending.
Proof.
  unfold fetchWithProxy, proxyService_fetchWithProxy.
  set (w' := {| activeRequests := activeRequests w; requestQueue := requestQueue w;
                trace := trace w ++ [ProxyFetched url] |}).
  assert (H : extends w w') by (repeat split; now exists [ProxyFetched url]).
  destruct (proxyService (trace w) url) as [|[|] d].
  - destruct (try_corsProxies_extends url corsProxies w') as [He Hp].
    split; [eapply extends_trans; eassumption | exact Hp].
  - split; [exact H | discriminate].
  - destruct (try_corsProxies_extends url corsProxies w') as [He Hp].
    split; [eapply extends_trans; eassumption | exact Hp].
Qed.

(** What a settled fetch leaves: the limiter as it was found, with an
    empty queue, and more events. *)
Definition released (w : World) (run : Outcome JSON * World) : Prop :=
  fst run <> Pending
  /\ (forall message, fst run = Threw message -> message = retries_message config)
  /\ activeRequests (snd run) = activeRequests w
  /\ requestQueue (snd run) = []
  /\ exists events, trace (snd run) = trace w ++ events.

Lemma enqueueRequest_released entry request w :
  (activeRequests w < maxConcurrentRequests config)%nat ->
  requestQueue w = [] ->
  (forall w1,
     activeRequests w1 = S (activeRequests w) -> requestQueue w1 = [] ->
     (exists events, trace w1 = trace w ++ events) ->
     let run := request w1 in
     fst run <> Pending
     /\ (forall message, fst run = Threw message -> message = retries_message config)
     /\ activeRequests (snd run) = activeRequests w1
     /\ requestQueue (snd run) = []
     /\ exists events, trace (snd run) = trace w1 ++ events) ->
  released w (enqueueRequest (A := JSON) config entry request w).
Proof.
  intros Hroom Hq Hreq. unfold enqueueRequest.
  destruct (Nat.leb_spec (maxConcurrentRequests config) (activeRequests w)); [lia|].
  match goal with |- context [request ?w1] => specialize (Hreq w1) end.
  cbn in Hreq. specialize (Hreq eq_refl Hq).
  destruct Hreq as (Hp & Hm & Ha & Hq' & events & He).
  { now exists [Slept (rateLimitDelay config)]. }
  destruct (request _) as [[v|m|] w'] eqn:E; cbn [fst snd] in *.
  - unfold released, finally_block. cbn. rewrite Ha, Hq'. repeat split; try easy.
    exists ([Slept (rateLimitDelay config)] ++ events). rewrite He.
    now rewrite <- app_assoc.
  - unfold released, finally_block. cbn. rewrite Ha, Hq'. repeat split; try easy.
    exists ([Slept (rateLimitDelay config)] ++ events). rewrite He.
    now rewrite <- app_assoc.
  - congruence.
Qed.


Lemma fetchWithRetry_fuel_released url :
  forall remaining retryCount w,
    (maxRetries config <= retryCount + remaining)%nat ->
    (activeRequests w + remaining < maxConcurrentRequests config)%nat ->
    requestQueue w = [] ->
    released w (fetchWithRetry_fuel config JSON_parse fetch proxyService
                  (S remaining) url retryCount w).
Proof.
  induction remaining as [|n IH]; intros r w Hsum Hcap Hq;
    rewrite fetchWithRetry_fuel_unfold;
    (apply enqueueRequest_released; [lia | exact Hq |]);
    intros w1 Ha1 Hq1 _; cbv zeta.
  all: destruct (includes url "xmltv.php").
  all: try (pose proof (window_fetch_extends Direct url w1) as (Ha & Hq' & He);
            destruct (window_fetch fetch Direct url w1) as [[|[|] ct body] w2];
            cbn [fst snd] in *; repeat split; try easy; congruence).
  all: pose proof (try_transport_extends CustomProxy url w1) as H2;
       destruct (try_transport JSON_parse fetch CustomProxy url w1) as [[v|] w2];
       cbn [snd] in H2;
       [destruct H2 as (Ha & Hq' & He); cbn [fst snd]; repeat split; try easy; congruence|].
  all: pose proof (try_transport_extends Direct url w2) as H3;
       destruct (try_transport JSON_parse fetch Direct url w2) as [[v|] w3];
       cbn [snd] in H3; pose proof (extends_trans _ _ _ H2 H3) as H13;
       [destruct H13 as (Ha & Hq' & He); cbn [fst snd]; repeat split; try easy; congruence|].
  all: assert (H4 : exists r4 w4,
                 (if useProxy config
                  then match fetchWithProxy JSON_parse fetch proxyService url w3 with
                       | (Returned v, w4) => (Some v, w4)
                       | (_, w4) => (None, w4)
                       end
                  else (None, w3)) = (r4, w4) /\ extends w1 w4)
         by (destruct (useProxy config);
             [ pose proof (fetchWithProxy_extends url w3) as [He _];
               destruct (fetchWithProxy JSON_parse fetch proxyService url w3)
                 as [[v|m|] w4]; cbn [snd] in He; eexists _, _;
               (split; [reflexivity | eapply extends_trans; eassumption])
             | eexists _, _; split; [reflexivity | exact H13] ]);
       destruct H4 as (r4 & w4 & -> & (Ha & Hq' & He)).
  all: destruct r4 as [v|]; [cbn [fst snd]; repeat split; try easy; congruence|].
  - assert (Hlt : (r <? maxRetries config)%nat = false) by (apply Nat.ltb_ge; lia).
    rewrite Hlt. cbn [fst snd]. repeat split; try easy; try congruence.
    all: try (intros m [= <-]; reflexivity).
  - destruct (r <? maxRetries config)%nat.
    + destruct (IH (S r) (sleep (initialDelay config * 2 ^ Z.of_nat r) w4))
        as (Hp & Hm & Ha' & Hq'' & events & He').
      * lia.
      * cbn. lia.
      * cbn. congruence.
      * repeat split; try assumption.
        -- rewrite Ha'. exact Ha.
        -- destruct He as [e1 He]. exists (e1 ++ [Slept (initialDelay config * 2 ^ Z.of_nat r)] ++ events).
           rewrite He'. cbn. rewrite He. now rewrite <- !app_assoc.
    + cbn [fst snd]. repeat split; try easy; try congruence.
      all: try (intros m [= <-]; reflexivity).
Qed.

(** X1.  A fetch that runs alone, no other caller using the limiter
    while it runs, and that finds a free slot for each of its nested
    attempts always settles, whatever the network answers; it gives back
    every slot it took; and the only error it throws is the one that
    follows the last retry. *)
Theorem fetchWithRetry_settles_and_releases url w :
  (activeRequests w + maxRetries config < maxConcurrentRequests config)%nat ->
  requestQueue w = [] ->
  let run := fetchWithRetry config JSON_parse fetch proxyService url 0 w in
  fst run <> Pending
  /\ (forall message, fst run = Threw message -> message = retries_message config)
  /\ activeRequests (snd run) = activeRequests w
  /\ requestQueue (snd run) = []
  /\ exists events, trace (snd run) = trace w ++ events.
Proof.
  intros Hroom Hq. cbv zeta. unfold fetchWithRetry. rewrite Nat.sub_0_r.
  apply fetchWithRetry_fuel_released; [lia | lia | exact Hq].
Qed.

(** The requests to the relays, in the order of the list. *)
Definition relay_requests (url : string) (proxies : list string) : list Event :=
  map (fun p => Fetched (CorsProxy p) url) proxies.

Definition text_or_parsed (text : string) : JSON :=
  match JSON_parse text with Some j => j | None => JStr text end.

(** The relays are asked in the order of the list, each after those
    before it were refused; the first that answers ends the loop. *)
Lemma try_corsProxies_first url : forall proxies w n p contentType text,
  nth_error proxies n = Some p ->
  (forall m q, (m < n)%nat -> nth_error proxies m = Some q ->
     refused (fetch (trace w ++ relay_requests url (firstn m proxies))
                    (CorsProxy q) url)) ->
  fetch (trace w ++ relay_requests url (firstn n proxies)) (CorsProxy p) url
  = Status true contentType text ->
  try_corsProxies JSON_parse fetch proxies url w
  = (Returned (text_or_parsed text),
     with_trace w (relay_requests url (firstn (S n) proxies))).
Proof.
  induction proxies as [|p0 rest IH]; intros w n p ct text Hnth Hbefore Hanswer.
  - destruct n; discriminate.
  - cbn [try_corsProxies]. unfold window_fetch. destruct n as [|n].
    + injection Hnth as <-. cbn [firstn relay_requests map] in Hanswer.
      rewrite List.app_nil_r in Hanswer. rewrite Hanswer. reflexivity.
    + pose proof (Hbefore 0%nat p0 ltac:(lia) eq_refl) as H0.
      cbn [firstn relay_requests map] in H0. rewrite List.app_nil_r in H0.
      set (w' := {| activeRequests := activeRequests w; requestQueue := requestQueue w;
                    trace := trace w ++ [Fetched (CorsProxy p0) url] |}).
      assert (Hnext : try_corsProxies JSON_parse fetch rest url w'
                      = (Returned (text_or_parsed text),
                         with_trace w (relay_requests url (firstn (S (S n)) (p0 :: rest))))).
      { rewrite (IH w' n p ct text Hnth).
        - unfold with_trace. subst w'. cbn [activeRequests requestQueue trace].
          change (firstn (S (S n)) (p0 :: rest)) with (p0 :: firstn (S n) rest).
          cbn [relay_requests map]. now rewrite <- app_assoc.
        - intros m q Hm Hq.
          pose proof (Hbefore (S m) q ltac:(lia) Hq) as H.
          subst w'. cbn [trace firstn relay_requests map] in *.
          now rewrite <- app_assoc.
        - subst w'. cbn [trace firstn relay_requests map] in *.
          now rewrite <- app_assoc. }
      destruct (fetch (trace w) (CorsProxy p0) url) as [|[|] ct0 body0];
        cbn in H0; [exact Hnext | destruct H0 | exact Hnext].
Qed.

Lemma try_corsProxies_none url : forall proxies w,
  (forall n p, nth_error proxies n = Some p ->
     refused (fetch (trace w ++ relay_requests url (firstn n proxies))
                    (CorsProxy p) url)) ->
  try_corsProxies JSON_parse fetch proxies url w
  = (Threw "All proxy attempts failed", with_trace w (relay_requests url proxies)).
Proof.
  induction proxies as [|p0 rest IH]; intros w Hall; cbn [try_corsProxies].
  - unfold with_trace. cbn. rewrite List.app_nil_r. now destruct w.
  - unfold window_fetch.
    pose proof (Hall 0%nat p0 eq_refl) as H0.
    cbn [firstn relay_requests map] in H0. rewrite List.app_nil_r in H0.
    set (w' := {| activeRequests := activeRequests w; requestQueue := requestQueue w;
                  trace := trace w ++ [Fetched (CorsProxy p0) url] |}).
    assert (Hnext : try_corsProxies JSON_parse fetch rest url w'
                    = (Threw "All proxy attempts failed",
                       with_trace w (relay_requests url (p0 :: rest)))).
    { rewrite (IH w').
      - unfold with_trace. subst w'. cbn [activeRequests requestQueue trace].
        cbn [relay_requests map]. now rewrite <- app_assoc.
      - intros n p Hp. pose proof (Hall (S n) p Hp) as H.
        subst w'. cbn [trace firstn relay_requests map] in *.
        now rewrite <- app_assoc. }
    destruct (fetch (trace w) (CorsProxy p0) url) as [|[|] ct0 body0];
      cbn in H0; [exact Hnext | destruct H0 | exact Hnext].
Qed.

(** X3.  [fetchWithProxy] asks the proxy of the application first and
    returns its data when it succeeds.  Otherwise it asks the three public
    relays in their order, each after the one before it was refused, and
    returns the text of the first that answers, parsed when it is JSON.
    It asks nobody after the first answer.  When all four are refused it
    throws, with one message.  It never touches the limiter. *)
Theorem fetchWithProxy_asks_in_order url w :
  let asked n := ProxyFetched url :: relay_requests url (firstn n corsProxies) in
  let answer n p := fetch (trace w ++ asked n) (CorsProxy p) url in
  let run := fetchWithProxy JSON_parse fetch proxyService url w in
  (forall data,
     proxyService (trace w) url = ProxyResult true data ->
     run = (Returned data, with_trace w [ProxyFetched url]))
  /\ (proxy_refused (proxyService (trace w) url) ->
      forall n p contentType text,
        nth_error corsProxies n = Some p ->
        (forall m q, (m < n)%nat -> nth_error corsProxies m = Some q ->
           refused (answer m q)) ->
        answer n p = Status true contentType text ->
        run = (Returned (text_or_parsed text), with_trace w (asked (S n))))
  /\ (proxy_refused (proxyService (trace w) url) ->
      (forall n p, nth_error corsProxies n = Some p -> refused (answer n p)) ->
      run = (Threw "All proxy attempts failed",
             with_trace w (asked (length corsProxies)))).
Proof.
  cbv zeta. unfold fetchWithProxy, proxyService_fetchWithProxy.
  set (w' := {| activeRequests := activeRequests w; requestQueue := requestQueue w;
                trace := trace w ++ [ProxyFetched url] |}).
  assert (Htrace : forall events,
            trace w' ++ events = trace w ++ ProxyFetched url :: events)
    by (intros; subst w'; cbn [trace]; now rewrite <- app_assoc).
  assert (Hwith : forall events,
            with_trace w' events = with_trace w (ProxyFetched url :: events))
    by (intros; unfold with_trace; subst w'; cbn [trace activeRequests requestQueue];
        now rewrite <- app_assoc).
  split; [|split].
  - intros data ->. reflexivity.
  - intros Hproxy n p ct text Hnth Hbefore Hanswer.
    assert (Hrelays : try_corsProxies JSON_parse fetch corsProxies url w'
                      = (Returned (text_or_parsed text),
                         with_trace w (ProxyFetched url
                                       :: relay_requests url (firstn (S n) corsProxies)))).
    { rewrite <- Hwith. apply (try_corsProxies_first url corsProxies w' n p ct text Hnth).
      - intros m q Hm Hq. rewrite Htrace. exact (Hbefore m q Hm Hq).
      - rewrite Htrace. exact Hanswer. }
    destruct (proxyService (trace w) url) as [|[|] d]; cbn in Hproxy;
      [exact Hrelays | destruct Hproxy | exact Hrelays].
  - intros Hproxy Hall.
    assert (Hrelays : try_corsProxies JSON_parse fetch corsProxies url w'
                      = (Threw "All proxy attempts failed",
                         with_trace w (ProxyFetched url
                                       :: relay_requests url
                                            (firstn (length corsProxies) corsProxies)))).
    { rewrite firstn_all, <- Hwith. apply try_corsProxies_none.
      intros n p Hp. rewrite Htrace. exact (Hall n p Hp). }
    destruct (proxyService (trace w) url) as [|[|] d]; cbn in Hproxy;
      [exact Hrelays | destruct Hproxy | exact Hrelays].
Qed.

End FetchLimiterFacts.

(** A server that refuses every request but the second direct one: on a
    limiter with four slots the fetch settles and the slots are free
    again. *)
Lemma fetchWithRetry_settles_and_releases_witness :
  let run := Fetch.fetchWithRetry roomy_config no_json second_try_network
               Fetch.dead_proxy live_streams_url 0 Fetch.idle in
  fst run <> Pending /\ Fetch.activeRequests (snd run) = 0%nat.
Proof.
  destruct (fetchWithRetry_settles_and_releases roomy_config no_json
              second_try_network Fetch.dead_proxy live_streams_url Fetch.idle)
    as (Hsettled & _ & Hslots & _).
  - cbn. lia.
  - reflexivity.
  - split; [exact Hsettled | exact Hslots].
Defined.

(** A network on which only the second relay answers: the proxy of the
    application and the first relay are asked before it, the third relay
    is not asked. *)
Definition second_relay_network : list Fetch.Event -> Fetch.Transport -> string -> Fetch.Response :=
  fun _ t _ =>
    match t with
    | Fetch.CorsProxy "https://corsproxy.io/?" => Fetch.Status true "text/plain" "[]"
    | _ => Fetch.NetworkError
    end.

Lemma fetchWithProxy_asks_in_order_witness :
  Fetch.fetchWithProxy no_json second_relay_network Fetch.dead_proxy
    live_streams_url Fetch.idle
  = (Returned (Js.JStr "[]"),
     {| Fetch.activeRequests := 0;
        Fetch.requestQueue := [];
        Fetch.trace :=
          [Fetch.ProxyFetched live_streams_url;
           Fetch.Fetched (Fetch.CorsProxy "https://api.allorigins.win/raw?url=")
             live_streams_url;
           Fetch.Fetched (Fetch.CorsProxy "https://corsproxy.io/?") live_streams_url] |}).
Proof.
  refine (proj1 (proj2 (fetchWithProxy_asks_in_order no_json second_relay_network
                          Fetch.dead_proxy live_streams_url Fetch.idle))
            _ 1%nat "https://corsproxy.io/?"%string "text/plain"%string "[]"%string
            eq_refl _ eq_refl).
  - exact I.
  - intros [|m] q Hm Hq; [|lia]. injection Hq as <-. exact I.
Defined.

(** ** What the cache keeps of failures, and how it is emptied *)

Section CacheLifeFacts.
Import Js Streams Catalog.
Variable config : IPTVFetchConfig.

(** An entry that is of no use at some time is of no use later. *)
Lemma cache_miss_later {T : Type} {codec : JsonCodec T} cacheKey
    (e e2 : Cache.Env Outside) :
  cache_miss config cacheKey e ->
  Cache.settings e2 !! Cache.cache_key cacheKey
  = Cache.settings e !! Cache.cache_key cacheKey ->
  Cache.now e <= Cache.now e2 ->
  cache_miss config cacheKey e2.
Proof.
  unfold cache_miss, Cache.cached. intros Hmiss -> Hlater.
  destruct (Cache.settings e !! Cache.cache_key cacheKey) as [row|]; [|reflexivity].
  destruct (parse (Cache.value row)) as [item|]; [|reflexivity].
  destruct (Z.ltb_spec (Cache.now e - Cache.timestamp item) (cacheTime config));
    [discriminate|].
  destruct (Z.ltb_spec (Cache.now e2 - Cache.timestamp item) (cacheTime config));
    [lia | reflexivity].
Qed.

(** What a producer returned is served from the cache, to any producer,
    while the entry is younger than [cacheTime]. *)
Lemma getCachedOrFetch_then_hit {T : Type} {codec : JsonCodec T} cacheKey
    (fetchFn : Cache.Env Outside -> Outcome T * Cache.Env Outside) e v e1 :
  cache_miss config cacheKey e ->
  fetchFn e = (Returned v, e1) ->
  parse (stringify {| Cache.data := v; Cache.timestamp := Cache.now e1 |})
  = Some {| Cache.data := v; Cache.timestamp := Cache.now e1 |} ->
  let after := snd (Catalog.getCachedOrFetch config cacheKey fetchFn e) in
  fst (Catalog.getCachedOrFetch config cacheKey fetchFn e) = Returned v
  /\ Cache.now after = Cache.now e1
  /\ forall fetchFn' e2,
       Cache.settings e2 !! Cache.cache_key cacheKey
       = Cache.settings after !! Cache.cache_key cacheKey ->
       Cache.now e2 - Cache.now e1 < cacheTime config ->
       Catalog.getCachedOrFetch config cacheKey fetchFn' e2 = (Returned v, e2).
Proof.
  intros Hmiss Hfetch Hcodec. cbv zeta.
  unfold Catalog.getCachedOrFetch, Cache.getCachedOrFetch. cbn [Cache.env].
  unfold cache_miss in Hmiss. rewrite Hmiss, Hfetch. cbn [fst snd Cache.env].
  split; [reflexivity|]. split; [reflexivity|].
  intros fetchFn' e2 Hrow Hfresh.
  unfold Cache.cached. rewrite Hrow. unfold Cache.put_fresh. cbn [Cache.settings].
  rewrite lookup_insert_eq. cbn [Cache.value]. rewrite Hcodec.
  cbn [Cache.timestamp Cache.data].
  destruct (Z.ltb_spec (Cache.now e2 - Cache.now e1) (cacheTime config)); [|lia].
  reflexivity.
Qed.

Section FailureFacts.
Variable JSON_parse : string -> option JSON.
Variable this : Fetch.Service.
Context {codec_text : JsonCodec string}.
Context {codec_streams : JsonCodec (list StreamType)}.
Context {codec_categories : JsonCodec (list CategoryType)}.
Context {codec_guide : JsonCodec Guide}.
Variable parseFromString : string -> Runtime.Node.
Variable getTime : string -> option Z.
Variable localeCompare : string -> string -> Z.

(** X4.  In the structured mode a fetch that fails leaves the table of the
    cache as it was: the call that follows, at any later time, finds no
    usable entry either and asks the server again. *)
Theorem getStreams_error_is_not_cached
    (fetch : list Fetch.Event -> Fetch.Transport -> string -> Fetch.Response)
    (proxyService : list Fetch.Event -> string -> Fetch.ProxyResponse)
    prefix action kind categoryId (e : Cache.Env Outside) message n' :
  Fetch.type this = Fetch.xtream ->
  cache_miss (T := list StreamType) config
    (account_key this prefix (or_all categoryId)) e ->
  Fetch.fetchWithRetry config JSON_parse fetch proxyService
    (api_url this action categoryId) 0 (net (Cache.outside e)) = (Threw message, n') ->
  let run := getStreams config JSON_parse fetch proxyService this
               prefix action kind categoryId e in
  fst run = Threw message
  /\ Cache.settings (snd run) = Cache.settings e
  /\ forall e2,
       Cache.settings e2 = Cache.settings (snd run) ->
       Cache.now e <= Cache.now e2 ->
       cache_miss (T := list StreamType) config
         (account_key this prefix (or_all categoryId)) e2.
Proof.
  intros Htype Hmiss Hfetch. cbv zeta.
  assert (Hrun : getStreams config JSON_parse fetch proxyService this
                   prefix action kind categoryId e
                 = (Threw message,
                    snd (Catalog.fetchWithRetry config JSON_parse fetch proxyService
                           (api_url this action categoryId) e))).
  { unfold getStreams, Catalog.getCachedOrFetch, Cache.getCachedOrFetch.
    cbn [Cache.env]. unfold cache_miss in Hmiss. rewrite Hmiss, Htype.
    unfold Catalog.fetchWithRetry, lift. rewrite Hfetch. reflexivity. }
  rewrite Hrun. cbn [fst snd].
  assert (Hsame : Cache.settings
                    (snd (Catalog.fetchWithRetry config JSON_parse fetch proxyService
                            (api_url this action categoryId) e))
                  = Cache.settings e).
  { unfold Catalog.fetchWithRetry, lift. rewrite Hfetch. reflexivity. }
  split; [reflexivity|]. split; [exact Hsame|].
  intros e2 Hrows Hlater.
  apply (cache_miss_later _ e e2 Hmiss); [|exact Hlater].
  now rewrite Hrows, Hsame.
Qed.

(** X5.  A guide that cannot be downloaded is answered with the empty list,
    and the empty list is stored like any answer: for [cacheTime] every
    call under the same key gets it from the cache, whatever the network
    would answer by then. *)
Theorem getEPG_failure_is_cached
    (fetch : list Fetch.Event -> Fetch.Transport -> string -> Fetch.Response)
    (proxyService : list Fetch.Event -> string -> Fetch.ProxyResponse)
    channelId (e : Cache.Env Outside) :
  cache_miss (T := Guide) config (account_key this "epg" (or_all channelId)) e ->
  fst (Catalog.fetchEPGXMLDirect fetch this e) = None ->
  let run := getEPG config JSON_parse fetch proxyService this parseFromString
               getTime localeCompare channelId e in
  parse (T := Guide)
    (stringify (T := Guide)
       {| Cache.data := []; Cache.timestamp := Cache.now (snd run) |})
  = Some {| Cache.data := []; Cache.timestamp := Cache.now (snd run) |} ->
  fst run = Returned []
  /\ forall fetch' proxyService' e2,
       Cache.settings e2 = Cache.settings (snd run) ->
       Cache.now e2 - Cache.now (snd run) < cacheTime config ->
       getEPG config JSON_parse fetch' proxyService' this parseFromString
         getTime localeCompare channelId e2
       = (Returned [], e2).
Proof.
  intros Hmiss Hnone. cbv zeta. unfold getEPG.
  destruct (fetch_guide config JSON_parse fetch proxyService this parseFromString
              getTime localeCompare channelId e) as [outcome e1] eqn:Hguide.
  assert (Hempty : outcome = Returned []).
  { pose proof (fetch_guide_no_document config JSON_parse fetch proxyService this
                  parseFromString getTime localeCompare channelId e Hnone) as H.
    rewrite Hguide in H. exact H. }
  subst outcome.
  pose proof (getCachedOrFetch_then_hit (T := Guide)
                (account_key this "epg" (or_all channelId)) _ e [] e1 Hmiss Hguide)
    as Hhit.
  cbv zeta in Hhit.
  assert (Hnow : Cache.now
                   (snd (Catalog.getCachedOrFetch config
                           (account_key this "epg" (or_all channelId))
                           (fetch_guide config JSON_parse fetch proxyService this
                              parseFromString getTime localeCompare channelId) e))
                 = Cache.now e1).
  { unfold Catalog.getCachedOrFetch, Cache.getCachedOrFetch. cbn [Cache.env].
    unfold cache_miss in Hmiss. rewrite Hmiss, Hguide. reflexivity. }
  rewrite Hnow. intros Hcodec.
  destruct (Hhit Hcodec) as (Hfirst & _ & Hlater).
  split; [exact Hfirst|].
  intros fetch' proxyService' e2 Hrows Hfresh.
  apply Hlater; [now rewrite Hrows | exact Hfresh].
Qed.

(** X6.  The same in the playlist mode: when no playlist can be had the
    empty list is returned, stored, and served for [cacheTime]. *)
Theorem getStreams_without_playlist_is_cached
    (fetch : list Fetch.Event -> Fetch.Transport -> string -> Fetch.Response)
    (proxyService : list Fetch.Event -> string -> Fetch.ProxyResponse)
    prefix action kind categoryId (e : Cache.Env Outside) :
  Fetch.type this = Fetch.m3u_url ->
  cache_miss (T := list StreamType) config
    (account_key this prefix (or_all categoryId)) e ->
  fst (getM3UContent config JSON_parse fetch proxyService this e) = Returned None ->
  let run := getStreams config JSON_parse fetch proxyService this
               prefix action kind categoryId e in
  parse (T := list StreamType)
    (stringify (T := list StreamType)
       {| Cache.data := []; Cache.timestamp := Cache.now (snd run) |})
  = Some {| Cache.data := []; Cache.timestamp := Cache.now (snd run) |} ->
  fst run = Returned []
  /\ forall fetch' proxyService' e2,
       Cache.settings e2 = Cache.settings (snd run) ->
       Cache.now e2 - Cache.now (snd run) < cacheTime config ->
       getStreams config JSON_parse fetch' proxyService' this
         prefix action kind categoryId e2
       = (Returned [], e2).
Proof.
  intros Htype Hmiss Hnone. cbv zeta. unfold getStreams. rewrite Htype.
  set (producer := fun e0 : Cache.Env Outside =>
         match getM3UContent config JSON_parse fetch proxyService this e0 with
         | (Returned (Some (String c content)), e1) =>
             (Returned (parseM3UToStreamType (Fetch.username this)
                          (Fetch.password this) (String c content) kind categoryId), e1)
         | (Returned _, e1) => (Returned [], e1)
         | (Threw message, e1) => (Threw message, e1)
         | (Pending, e1) => (Pending, e1)
         end).
  assert (Hproducer : producer e
                      = (Returned [],
                         snd (getM3UContent config JSON_parse fetch proxyService this e))).
  { subst producer. cbv beta.
    destruct (getM3UContent config JSON_parse fetch proxyService this e)
      as [[[content|]|m|] e1]; cbn in Hnone; try discriminate. reflexivity. }
  pose proof (getCachedOrFetch_then_hit (T := list StreamType)
                (account_key this prefix (or_all categoryId)) producer e [] _
                Hmiss Hproducer) as Hhit.
  cbv zeta in Hhit.
  assert (Hnow : Cache.now
                   (snd (Catalog.getCachedOrFetch config
                           (account_key this prefix (or_all categoryId)) producer e))
                 = Cache.now
                     (snd (getM3UContent config JSON_parse fetch proxyService this e))).
  { unfold Catalog.getCachedOrFetch, Cache.getCachedOrFetch. cbn [Cache.env].
    unfold cache_miss in Hmiss. rewrite Hmiss, Hproducer. reflexivity. }
  rewrite Hnow. intros Hcodec.
  destruct (Hhit Hcodec) as (Hfirst & _ & Hlater).
  split; [exact Hfirst|].
  intros fetch' proxyService' e2 Hrows Hfresh.
  apply Hlater; [now rewrite Hrows | exact Hfresh].
Qed.

End FailureFacts.

(** X7.  After [clearCache] every call of [getCachedOrFetch] invokes its
    producer, whatever the key; the rows of [db.settings] that are not
    cache entries are kept as they are; and the playlist held by the
    service object is forgotten. *)
Theorem clearCache_forgets (e : Cache.Env Outside) :
  (forall (T : Type) (codec : JsonCodec T) cacheKey fetchFn calls,
     Cache.producerCalls
       (snd (Cache.getCachedOrFetch stringify parse config cacheKey fetchFn
               {| Cache.env := Maintenance.clearCache e; Cache.producerCalls := calls |}))
     = S calls)
  /\ (forall key,
        startsWith key "cache:" = false ->
        Cache.settings (Maintenance.clearCache e) !! key = Cache.settings e !! key)
  /\ m3uCache (Cache.outside (Maintenance.clearCache e)) = None
  /\ net (Cache.outside (Maintenance.clearCache e)) = net (Cache.outside e).
Proof.
  split; [|split; [|split; reflexivity]].
  - intros T codec cacheKey fetchFn calls.
    unfold Cache.getCachedOrFetch, Cache.cached. cbn [Cache.env].
    assert (Hgone : Cache.settings (Maintenance.clearCache e)
                      !! Cache.cache_key cacheKey = None).
    { unfold Maintenance.clearCache. cbn [Cache.settings].
      apply map_lookup_filter_None. right. intros row _. cbn. discriminate. }
    rewrite Hgone.
    destruct (fetchFn (Maintenance.clearCache e)) as [[v|m|] e']; reflexivity.
  - intros key Hkey. unfold Maintenance.clearCache. cbn [Cache.settings].
    destruct (Cache.settings e !! key) as [row|] eqn:Hrow.
    + apply map_lookup_filter_Some. split; [exact Hrow | exact Hkey].
    + apply map_lookup_filter_None. left. exact Hrow.
Qed.

End CacheLifeFacts.

(** A codec that is exact on the cache items that hold an empty list:
    it writes the timestamp, and reads an item with no element. *)
Definition empty_list_codec (T : Type) : Catalog.JsonCodec (list T) :=
  {| Catalog.stringify := fun item => Streams.int_toString (Cache.timestamp item);
     Catalog.parse := fun text =>
       match NilEmpty.int_of_string text with
       | Some i => Some {| Cache.data := []; Cache.timestamp := Z.of_int i |}
       | None => None
       end |}.

Lemma getStreams_error_is_not_cached_witness :
  Cache.settings
    (snd (Catalog.getStreams roomy_config no_json Fetch.dead_network Fetch.dead_proxy
            tv_example (codec_text := write_only string)
            (codec_streams := write_only (list Streams.StreamType))
            "live" "get_live_streams" Streams.live None cold_env))
  = Cache.settings cold_env.
Proof.
  refine (proj1 (proj2 (getStreams_error_is_not_cached roomy_config no_json tv_example
                          (codec_text := write_only string)
                          (codec_streams := write_only (list Streams.StreamType))
                          Fetch.dead_network Fetch.dead_proxy
                          "live" "get_live_streams" Streams.live None cold_env
                          "Failed to fetch after 3 retries" _ eq_refl _ _))).
  - reflexivity.
  - vm_compute. reflexivity.
Defined.

Lemma getEPG_failure_is_cached_witness :
  fst (Catalog.getEPG DEFAULT_CONFIG no_json Fetch.dead_network Fetch.dead_proxy
         tv_example (codec_text := write_only string)
         (codec_streams := write_only (list Streams.StreamType))
         (codec_guide := empty_list_codec _)
         (fun _ => Runtime.Text "") Runtime.Date_getTime (fun _ _ => 0) None cold_env)
  = Returned [].
Proof.
  refine (proj1 (getEPG_failure_is_cached DEFAULT_CONFIG no_json tv_example
                   (codec_text := write_only string)
                   (codec_streams := write_only (list Streams.StreamType))
                   (codec_guide := empty_list_codec _)
                   (fun _ => Runtime.Text "") Runtime.Date_getTime (fun _ _ => 0)
                   Fetch.dead_network Fetch.dead_proxy None cold_env _ _ _)).
  - reflexivity.
  - reflexivity.
  - vm_compute. reflexivity.
Defined.

(** The service of [tv.example] in the playlist mode. *)
Definition playlist_example : Fetch.Service :=
  {| Fetch.baseUrl := "http://tv.example";
     Fetch.username := "u";
     Fetch.password := "p";
     Fetch.type := Fetch.m3u_url |}.

Lemma getStreams_without_playlist_is_cached_witness :
  fst (Catalog.getStreams roomy_config no_json Fetch.dead_network Fetch.dead_proxy
         playlist_example (codec_text := write_only string)
         (codec_streams := empty_list_codec _)
         "live" "get_live_streams" Streams.live None cold_env)
  = Returned [].
Proof.
  refine (proj1 (getStreams_without_playlist_is_cached roomy_config no_json
                   playlist_example (codec_text := write_only string)
                   (codec_streams := empty_list_codec _)
                   Fetch.dead_network Fetch.dead_proxy
                   "live" "get_live_streams" Streams.live None cold_env
                   eq_refl _ _ _)).
  - reflexivity.
  - vm_compute. reflexivity.
  - vm_compute. reflexivity.
Defined.

(** ** The address of the server *)

Section ServerUrlFacts.
Import Js ServerUrl.

Lemma length_append (a b : string) :
  String.length (a ++ b) = (String.length a + String.length b)%nat.
Proof.
  induction a as [|c a IH]; [now rewrite append_nil_l|].
  rewrite append_cons. cbn. now rewrite IH.
Qed.

Lemma eqb_longer (c : ascii) (b suffix : string) :
  String.eqb (String c (b ++ suffix)) suffix = false.
Proof.
  apply String.eqb_neq. intros H. apply (f_equal String.length) in H.
  cbn in H. rewrite length_append in H. lia.
Qed.

Lemma strip_suffix_absent (suffix s : string) :
  endsWith s suffix = false -> strip_suffix suffix s = s.
Proof.
  induction s as [|c s IH]; cbn [endsWith strip_suffix]; intros H;
    apply orb_false_iff in H as [Heq Hrest]; rewrite Heq; [reflexivity|].
  now rewrite IH.
Qed.

Lemma strip_suffix_present (suffix b : string) :
  strip_suffix suffix (b ++ suffix) = b.
Proof.
  induction b as [|c b IH].
  - rewrite append_nil_l. destruct suffix; cbn [strip_suffix];
      now rewrite String.eqb_refl.
  - rewrite append_cons. cbn [strip_suffix]. rewrite eqb_longer. now rewrite IH.
Qed.

Lemma endsWith_other (b suffix : string) (c : ascii) :
  suffix <> EmptyString ->
  endsWith suffix (String c EmptyString) = false ->
  endsWith (b ++ suffix) (String c EmptyString) = false.
Proof.
  intros Hne Hlast. induction b as [|x b IH]; [now rewrite append_nil_l|].
  rewrite append_cons. cbn [endsWith]. rewrite IH, orb_false_r.
  apply String.eqb_neq. intros [= _ H].
  destruct b; [rewrite append_nil_l in H; contradiction|].
  rewrite append_cons in H. discriminate.
Qed.

(** X8.  The four ways of writing the address of a server, with or without
    the final slash and the path of the API, are stored as the same
    [baseUrl]. *)
Theorem normalizeUrl_spellings (base : string) :
  endsWith base "/" = false ->
  endsWith base "/player_api.php" = false ->
  normalizeUrl base = base
  /\ normalizeUrl (base ++ "/") = base
  /\ normalizeUrl (base ++ "/player_api.php") = base
  /\ normalizeUrl (base ++ "/player_api.php/") = base.
Proof.
  intros Hslash Hapi. unfold normalizeUrl. repeat split.
  - now rewrite (strip_suffix_absent "/" base Hslash), strip_suffix_absent.
  - now rewrite strip_suffix_present, strip_suffix_absent.
  - rewrite (strip_suffix_absent "/").
    + apply strip_suffix_present.
    + apply endsWith_other; [discriminate | reflexivity].
  - change "/player_api.php/"%string with ("/player_api.php" ++ "/")%string.
    rewrite <- append_assoc. rewrite strip_suffix_present.
    apply strip_suffix_present.
Qed.

End ServerUrlFacts.

Lemma normalizeUrl_spellings_witness :
  ServerUrl.normalizeUrl "http://tv.example/player_api.php/" = "http://tv.example"%string.
Proof.
  apply (proj2 (proj2 (proj2 (normalizeUrl_spellings "http://tv.example" eq_refl eq_refl)))).
Defined.

(** ** Channel names *)

Section NamesFacts.
Import Js Names MinimalM3U.


















End NamesFacts.

(** Names with accents, as the guides of the country write them. *)
Lemma normalizeChannelName_accents :
  Names.normalizeChannelName "Telecine Ação" = "telecine acao"%string
  /\ Names.normalizeChannelName "ESPN Ç Brasil" = "espn c brasil"%string
  /\ Names.normalizeChannelName "Ç" = "c"%string
  /\ Names.normalizeChannelName "CANAL CAFÉ (São Paulo) FHD" = "canal cafe"%string.
Proof. vm_compute. repeat split; reflexivity. Qed.


(** ** Sorting keeps the elements *)

Section SortElements.
Import Runtime.
Context {A : Type}.
Variable comparefn : A -> A -> option Z.

Lemma insert_sorted_In (x y : A) (l : list A) :
  In x (insert_sorted comparefn y l) <-> x = y \/ In x l.
Proof.
  induction l as [|z l IH]; cbn [insert_sorted].
  - cbn. intuition congruence.
  - destruct (0 <? sortCompare comparefn y z); cbn [In]; [rewrite IH|];
      intuition congruence.
Qed.

Lemma sort_In (x : A) (l : list A) : In x (sort comparefn l) <-> In x l.
Proof.
  induction l as [|y l IH]; cbn [sort]; [reflexivity|].
  rewrite insert_sorted_In, IH. cbn. intuition congruence.
Qed.

End SortElements.

(** ** Matching a name to a channel, on any list *)

Section MatchingMoreFacts.
Import Js Names Epg Matching.
Context {P : Type}.
Local Abbreviation Channel := (EPGChannelType P).

Lemma find_In {A : Type} (f : A -> bool) (l : list A) (x : A) :
  List.find f l = Some x -> In x l.
Proof. intros H. now apply List.find_some in H. Qed.

Lemma first_variation_In variations (channels : list Channel) c :
  first_variation variations channels = Some c -> In c channels.
Proof.
  induction variations as [|v rest IH]; cbn [first_variation]; [discriminate|].
  destruct (List.find _ channels) eqn:E; [|exact IH].
  intros [= <-]. exact (find_In _ _ _ E).
Qed.

Lemma by_keywords_In channelName (channels : list Channel) c :
  by_keywords channelName channels = Some c -> In c channels.
Proof.
  unfold by_keywords. destruct (keywords_of _) as [|k ks]; [discriminate|].
  destruct (Runtime.sort _ _) as [|best rest] eqn:E; [discriminate|].
  intros [= <-].
  assert (H : In best (Runtime.sort
                         (fun a b : Channel =>
                            Some (score (k :: ks) b - score (k :: ks) a))
                         (List.filter
                            (fun c0 : Channel =>
                               existsb (fun keyword =>
                                          includes (normalizeChannelName (name c0)) keyword)
                                       (k :: ks))
                            channels)))
    by (rewrite E; now left).
  apply sort_In in H. now apply List.filter_In in H.
Qed.

Lemma find_exists {A : Type} (f : A -> bool) (l : list A) (x : A) :
  In x l -> f x = true -> List.find f l <> None.
Proof.
  intros Hin Hf Hnone. pose proof (List.find_none f l Hnone x Hin). congruence.
Qed.

(** What [findMatchingChannel] finds is in the list. *)
Lemma findMatchingChannel_In (channelName : string) (channels : list Channel) c :
  findMatchingChannel channelName channels = Some c -> In c channels.
Proof.
  unfold findMatchingChannel.
  destruct (String.eqb channelName "" || (length channels =? 0)%nat); [discriminate|].
  destruct (by_known_mapping channelName channels) as [k|] eqn:Hk.
  { intros [= <-]. unfold by_known_mapping in Hk.
    destruct (getKnownChannelMapping channelName); try discriminate.
    destruct (List.find _ channels) eqn:E.
    - injection Hk as <-. exact (find_In _ _ _ E).
    - exact (find_In _ _ _ Hk). }
  destruct (by_exact_id channelName channels) eqn:Hid.
  { intros [= <-]. exact (find_In _ _ _ Hid). }
  destruct (by_id_variation channelName channels) eqn:Hv.
  { intros [= <-]. exact (first_variation_In _ _ _ Hv). }
  destruct (by_exact_name channelName channels) eqn:Hn.
  { intros [= <-]. exact (find_In _ _ _ Hn). }
  destruct (by_normalized_name channelName channels) eqn:Hnn.
  { intros [= <-]. exact (find_In _ _ _ Hnn). }
  destruct (by_containment channelName channels) eqn:Hc.
  { intros [= <-]. exact (find_In _ _ _ Hc). }
  apply by_keywords_In.
Qed.

(** The ids and names of a guide written with characters below U+0100. *)
Definition latin1_channel (c : Channel) : bool := latin1 (id c) && latin1 (name c).

(** X10.  On a name and a guide written with characters below U+0100,
    [findMatchingChannel] returns a channel of the list it was given; and
    when the name is not empty it returns one whenever some channel of the
    list has the name as its id or as its name, or has the same
    normalized name. *)
Theorem findMatchingChannel_sound_and_complete
    (channelName : string) (channels : list Channel) :
  latin1 channelName = true ->
  forallb latin1_channel channels = true ->
  (forall c, findMatchingChannel channelName channels = Some c -> In c channels)
  /\ (channelName <> EmptyString ->
      (exists c, In c channels
                 /\ (id c = channelName \/ name c = channelName
                     \/ normalizeChannelName (name c)
                        = normalizeChannelName channelName)) ->
      findMatchingChannel channelName channels <> None).
Proof.
  intros _ _.
  split; [intros c; apply findMatchingChannel_In|].
  intros Hname (c & Hin & Hmatch). unfold findMatchingChannel.
  apply String.eqb_neq in Hname. rewrite Hname.
  destruct channels as [|c0 rest]; [destruct Hin|]. cbn [length Nat.eqb orb].
  destruct (by_known_mapping channelName (c0 :: rest)); [discriminate|].
  destruct (by_exact_id channelName (c0 :: rest)) eqn:Hid; [discriminate|].
  destruct (by_id_variation channelName (c0 :: rest)); [discriminate|].
  destruct (by_exact_name channelName (c0 :: rest)) eqn:Hn; [discriminate|].
  destruct (by_normalized_name channelName (c0 :: rest)) eqn:Hnn; [discriminate|].
  exfalso. destruct Hmatch as [H | [H | H]].
  - refine (find_exists _ _ c Hin _ Hid). now apply String.eqb_eq.
  - refine (find_exists _ _ c Hin _ Hn). now apply String.eqb_eq.
  - refine (find_exists _ _ c Hin _ Hnn). now apply String.eqb_eq.
Qed.

Lemma includes_empty (s : string) : includes s "" = true.
Proof. destruct s; reflexivity. Qed.

(** X11.  A name of characters below U+0100 that is not empty and whose
    normalized form is empty (a name made of quality marks, brackets and
    signs) is mapped to the first entry of the table: it gets the channel
    whose id is [GNT] when the list has one, and always some channel when
    the list is not empty. *)
Theorem findMatchingChannel_blank_name
    (channelName : string) (channels : list Channel) :
  latin1 channelName = true ->
  channelName <> EmptyString ->
  normalizeChannelName channelName = EmptyString ->
  getKnownChannelMapping channelName = MappedTo "GNT"
  /\ (forall gnt,
        List.find (fun c => String.eqb (id c) "GNT") channels = Some gnt ->
        findMatchingChannel channelName channels = Some gnt)
  /\ (channels <> [] -> findMatchingChannel channelName channels <> None).
Proof.
  intros _ Hname Hblank.
  assert (Hmap : getKnownChannelMapping channelName = MappedTo "GNT").
  { unfold getKnownChannelMapping. rewrite Hblank. reflexivity. }
  split; [exact Hmap|]. split.
  - intros gnt Hgnt. apply findMatchingChannel_known; [exact Hname|].
    unfold by_known_mapping. now rewrite Hmap, Hgnt.
  - intros Hne. unfold findMatchingChannel.
    apply String.eqb_neq in Hname. rewrite Hname.
    destruct channels as [|c0 rest]; [contradiction|]. cbn [length Nat.eqb orb].
    destruct (by_known_mapping channelName (c0 :: rest)); [discriminate|].
    destruct (by_exact_id channelName (c0 :: rest)); [discriminate|].
    destruct (by_id_variation channelName (c0 :: rest)); [discriminate|].
    destruct (by_exact_name channelName (c0 :: rest)); [discriminate|].
    destruct (by_normalized_name channelName (c0 :: rest)); [discriminate|].
    unfold by_containment. rewrite Hblank. cbn [List.find].
    rewrite includes_empty. discriminate.
Qed.

(** The keys of the table are all different. *)
Lemma knownChannels_keys : NoDup (map fst knownChannels).
Proof. apply NoDup_ListNoDup. vm_compute. repeat constructor; cbn; intuition discriminate. Qed.

Lemma find_unique_key (table : list (string * string)) key value :
  NoDup (map fst table) ->
  In (key, value) table ->
  List.find (fun entry => String.eqb (fst entry) key) table = Some (key, value).
Proof.
  induction table as [|[k v] rest IH]; intros Hnodup Hin; [destruct Hin|].
  cbn [map fst] in Hnodup. apply NoDup_cons in Hnodup as [Hfresh Hrest].
  cbn [List.find fst]. destruct Hin as [[= -> ->] | Hin].
  - now rewrite String.eqb_refl.
  - destruct (String.eqb_spec k key) as [-> | _].
    + exfalso. apply Hfresh. apply list_elem_of_In.
      change key with (fst (key, value)). now apply in_map.
    + now apply IH.
Qed.

(** X12.  A name of characters below U+0100 whose normalized form is a key
    of the table gets the id of that key, also when a key listed before
    it is a part of the name ([espn] before [espn brasil], [fox sports]
    before [fox]). *)
Theorem getKnownChannelMapping_exact_key (channelName key value : string) :
  latin1 channelName = true ->
  In (key, value) knownChannels ->
  normalizeChannelName channelName = key ->
  getKnownChannelMapping channelName = MappedTo value.
Proof.
  intros _ Hin Hkey. unfold getKnownChannelMapping. rewrite Hkey.
  now rewrite (find_unique_key knownChannels key value knownChannels_keys Hin).
Qed.

End MatchingMoreFacts.

Lemma findMatchingChannel_sound_and_complete_witness :
  Matching.findMatchingChannel "Canal Ação HD" [guide_channel "c7" "CANAL ACAO [FHD]"]
  <> None.
Proof.
  apply (proj2 (findMatchingChannel_sound_and_complete
                  "Canal Ação HD" [guide_channel "c7" "CANAL ACAO [FHD]"]
                  eq_refl eq_refl)).
  - discriminate.
  - exists (guide_channel "c7" "CANAL ACAO [FHD]"). split; [now left|].
    right. right. reflexivity.
Defined.

Lemma findMatchingChannel_blank_name_witness :
  Matching.findMatchingChannel "[HD]"
    [guide_channel "c1" "Canal Um"; guide_channel "GNT" "GNT"]
  = Some (guide_channel "GNT" "GNT").
Proof.
  refine (proj1 (proj2 (findMatchingChannel_blank_name "[HD]"
                          [guide_channel "c1" "Canal Um"; guide_channel "GNT" "GNT"]
                          eq_refl _ _)) _ _).
  - discriminate.
  - reflexivity.
  - reflexivity.
Defined.

Lemma getKnownChannelMapping_exact_key_witness :
  Matching.getKnownChannelMapping "Récord News (São Paulo) HD"
  = Matching.MappedTo "Record News".
Proof.
  apply (getKnownChannelMapping_exact_key "Récord News (São Paulo) HD"
           "record news" "Record News" eq_refl).
  - vm_compute. tauto.
  - reflexivity.
Defined.

(** The names that normalize differently with and without their accents
    are matched as the source matches them. *)
Lemma matching_with_accents :
  Matching.findMatchingChannel "A--o" [guide_channel "c1" "Ação"] = None
  /\ Matching.getKnownChannelMapping "Ç" = Matching.MappedTo "Record"
  /\ Matching.getKnownChannelMapping "ESPN Ç Brasil" = Matching.MappedTo "ESPN".
Proof. vm_compute. repeat split; reflexivity. Qed.

(** ** The guide that the parser returns *)

Section GuideFacts.
Import Js Runtime Names Epg.
Variable getTime : string -> option Z.

(** What the parser checks before it keeps a programme, and the name it
    writes in it. *)
Definition listed_under (channelName : string) (p : EPGProgramType) : Prop :=
  title p <> EmptyString /\ startTime p <> EmptyString /\ endTime p <> EmptyString
  /\ channel p = Some channelName.

(** The objects of the parser: the channel at index [i] of the array
    holds the array of programmes at address [i]; the map holds channels
    of the array; the programmes of an array carry the name of its
    channel. *)
Record parse_inv (st : ParseState) : Prop := {
  inv_length : length (channels st) = length (heap st);
  inv_address : forall i c, channels st !! i = Some c -> programs c = i;
  inv_map : forall k c, channelsMap st !! k = Some c -> In c (channels st);
  inv_id : forall c, In c (channels st) -> id c <> EmptyString;
  inv_programs : forall c, In c (channels st) ->
                 Forall (listed_under (name c)) (read (heap st) (programs c))
}.

Lemma In_lookup {A : Type} (l : list A) (x : A) : In x l -> exists i, l !! i = Some x.
Proof. intros H. apply list_elem_of_In in H. now apply list_elem_of_lookup_1. Qed.

Lemma lookup_In {A : Type} (l : list A) (i : nat) (x : A) : l !! i = Some x -> In x l.
Proof. intros H. apply list_elem_of_In. eapply list_elem_of_lookup_2; eassumption. Qed.

Lemma inv_address_lt st c :
  parse_inv st -> In c (channels st) -> (programs c < length (heap st))%nat.
Proof.
  intros Hinv Hin. destruct (In_lookup _ _ Hin) as [i Hi].
  rewrite (inv_address st Hinv i c Hi), <- (inv_length st Hinv).
  eapply lookup_lt_Some; eassumption.
Qed.

Lemma inv_same_address st c c' :
  parse_inv st -> In c (channels st) -> In c' (channels st) ->
  programs c = programs c' -> c = c'.
Proof.
  intros Hinv Hin Hin' Heq.
  destruct (In_lookup _ _ Hin) as [i Hi]. destruct (In_lookup _ _ Hin') as [j Hj].
  pose proof (inv_address st Hinv i c Hi). pose proof (inv_address st Hinv j c' Hj).
  assert (i = j) by congruence. subst j. congruence.
Qed.

Lemma read_app_old (h : Heap) (array : list EPGProgramType) (a : Address) :
  (a < length h)%nat -> read (h ++ [array]) a = read h a.
Proof. intros H. unfold read. now rewrite lookup_app_l. Qed.

Lemma read_app_new (h : Heap) (array : list EPGProgramType) :
  read (h ++ [array]) (length h) = array.
Proof. unfold read. rewrite lookup_app_r by lia. now rewrite Nat.sub_diag. Qed.

Lemma parse_inv_initial :
  parse_inv {| channels := []; channelsMap := ∅; heap := [] |}.
Proof.
  constructor; cbn; try easy.
Qed.

(** Adding a channel object with a new array. *)
Lemma parse_inv_new_channel st c array :
  parse_inv st ->
  id c <> EmptyString ->
  programs c = length (heap st) ->
  Forall (listed_under (name c)) array ->
  parse_inv {| channels := channels st ++ [c];
               channelsMap := <[id c := c]> (channelsMap st);
               heap := heap st ++ [array] |}.
Proof.
  intros Hinv Hid Haddr Harray. constructor; cbn [channels channelsMap heap].
  - rewrite !length_app. cbn. now rewrite (inv_length st Hinv).
  - intros i c' Hi. apply lookup_app_Some in Hi as [Hi | [Hge Hi]].
    + exact (inv_address st Hinv i c' Hi).
    + destruct (i - length (channels st))%nat as [|k] eqn:E; [|discriminate].
      injection Hi as <-. rewrite Haddr, <- (inv_length st Hinv). lia.
  - intros k c' Hk. apply in_or_app.
    apply lookup_insert_Some in Hk as [[_ <-] | [_ Hk]].
    + right. now left.
    + left. exact (inv_map st Hinv k c' Hk).
  - intros c' Hin. apply in_app_or in Hin as [Hin | [<- | []]].
    + exact (inv_id st Hinv c' Hin).
    + exact Hid.
  - intros c' Hin. apply in_app_or in Hin as [Hin | [<- | []]].
    + rewrite read_app_old by (now apply inv_address_lt).
      exact (inv_programs st Hinv c' Hin).
    + rewrite Haddr, read_app_new. exact Harray.
Qed.

Lemma parse_inv_add_channel st channelElement :
  parse_inv st -> parse_inv (add_channel st channelElement).
Proof.
  intros Hinv. unfold add_channel.
  destruct (truthy (getAttribute "id" channelElement)) as [channelId|] eqn:Hid;
    [|exact Hinv].
  destruct (truthy (first_text "display-name" channelElement)); [|exact Hinv].
  cbv zeta.
  match goal with |- parse_inv {| channels := _ ++ [?c] |} =>
    apply (parse_inv_new_channel st c [] Hinv)
  end; cbn [id programs name]; [|reflexivity | constructor].
  intros ->. unfold truthy in Hid.
  destruct (getAttribute "id" channelElement) as [[|x v]|]; discriminate.
Qed.

Lemma parse_inv_add_alternative aeChannel st altId :
  parse_inv st -> In aeChannel (channels st) -> altId <> EmptyString ->
  parse_inv (add_alternative aeChannel st altId)
  /\ In aeChannel (channels (add_alternative aeChannel st altId)).
Proof.
  intros Hinv Hae Hid. unfold add_alternative.
  destruct (channelsMap st !! altId); [split; assumption|]. cbv zeta. split.
  - match goal with |- parse_inv {| channels := _ ++ [?c] |} =>
      apply (parse_inv_new_channel st c _ Hinv)
    end; cbn [id programs name]; [exact Hid | reflexivity |].
    exact (inv_programs st Hinv aeChannel Hae).
  - cbn [channels]. apply in_or_app. now left.
Qed.

Lemma parse_inv_add_aeAlternatives st :
  parse_inv st -> parse_inv (add_aeAlternatives st).
Proof.
  intros Hinv. unfold add_aeAlternatives.
  destruct (List.find is_aeChannel (channels st)) as [aeChannel|] eqn:E; [|exact Hinv].
  apply List.find_some in E as [Hae _].
  unfold aeAlternativeIds. cbn [fold_left].
  destruct (parse_inv_add_alternative aeChannel st "br#a-e-hd" Hinv Hae)
    as [Hinv1 Hae1]; [discriminate|].
  now destruct (parse_inv_add_alternative aeChannel _ "a-e-hd" Hinv1 Hae1).
Qed.

Lemma program_of_listed channelName program p :
  program_of channelName program = Some p -> listed_under channelName p.
Proof.
  unfold program_of.
  destruct (String.eqb_spec
              match truthy (first_text "title" program) with
              | Some t => t
              | None => EmptyString
              end "") as [_ | Htitle]; [discriminate|].
  cbn [orb].
  destruct (falsy (getAttribute "start" program)) eqn:Hstart; [discriminate|].
  destruct (falsy (getAttribute "stop" program)) eqn:Hstop; [discriminate|].
  cbn [orb]. intros [= <-]. unfold listed_under, attribute_or_empty.
  cbn [title startTime endTime channel].
  unfold falsy, truthy in Hstart, Hstop.
  destruct (getAttribute "start" program) as [[|x v]|]; try discriminate.
  destruct (getAttribute "stop" program) as [[|y v']|]; try discriminate.
  repeat split; try assumption; discriminate.
Qed.

Lemma resolve_channel_In st channelId c :
  parse_inv st -> resolve_channel st channelId = Some c -> In c (channels st).
Proof.
  intros Hinv. unfold resolve_channel.
  destruct (channelsMap st !! channelId) eqn:E.
  - intros [= <-]. exact (inv_map st Hinv _ _ E).
  - destruct (String.eqb channelId ""); [discriminate|].
    apply (inv_map st Hinv).
Qed.

Lemma parse_inv_add_program st program :
  parse_inv st -> parse_inv (add_program st program).
Proof.
  intros Hinv. unfold add_program. cbv zeta.
  destruct (resolve_channel st _) as [target|] eqn:Hres; [|exact Hinv].
  destruct (program_of (name target) program) as [p|] eqn:Hp; [|exact Hinv].
  pose proof (resolve_channel_In st _ _ Hinv Hres) as Htarget.
  pose proof (program_of_listed _ _ _ Hp) as Hlisted.
  constructor; cbn [channels channelsMap heap].
  - unfold push. rewrite length_alter. exact (inv_length st Hinv).
  - exact (inv_address st Hinv).
  - exact (inv_map st Hinv).
  - exact (inv_id st Hinv).
  - intros c Hin. destruct (Nat.eq_dec (programs target) (programs c)) as [Heq | Hne].
    + rewrite <- (inv_same_address st target c Hinv Htarget Hin Heq).
      rewrite read_push_eq by (now apply inv_address_lt).
      apply Forall_app. split; [exact (inv_programs st Hinv target Htarget)|].
      now constructor.
    + rewrite read_push_ne by exact Hne. exact (inv_programs st Hinv c Hin).
Qed.

Lemma fold_left_inv {A : Type} (f : ParseState -> A -> ParseState) (l : list A) :
  (forall st x, parse_inv st -> parse_inv (f st x)) ->
  forall st, parse_inv st -> parse_inv (fold_left f l st).
Proof.
  intros Hf. induction l as [|x l IH]; intros st Hinv; [exact Hinv|].
  cbn [fold_left]. apply IH, Hf, Hinv.
Qed.

Lemma Forall_sort {A : Type} (cmp : A -> A -> option Z) (Q : A -> Prop) (l : list A) :
  Forall Q l -> Forall Q (sort cmp l).
Proof.
  rewrite !List.Forall_forall. intros H x Hx. apply H. now apply sort_In in Hx.
Qed.

Lemma read_sort_programs (Q : EPGProgramType -> Prop) (h : Heap)
    (c : EPGChannelType Address) (a : Address) :
  Forall Q (read h a) -> Forall Q (read (sort_programs getTime h c) a).
Proof.
  intros H. unfold sort_programs, read in *.
  destruct (Nat.eq_dec (programs c) a) as [-> | Hne].
  - rewrite list_lookup_alter_eq. destruct (h !! a); cbn; [|constructor].
    now apply Forall_sort.
  - now rewrite list_lookup_alter_ne.
Qed.

Lemma read_sorted_heap (Q : EPGProgramType -> Prop)
    (cs : list (EPGChannelType Address)) (a : Address) :
  forall h, Forall Q (read h a) ->
            Forall Q (read (fold_left (sort_programs getTime) cs h) a).
Proof.
  induction cs as [|c cs IH]; intros h H; [exact H|].
  cbn [fold_left]. apply IH, read_sort_programs, H.
Qed.

(** X13.  Every channel that [parseEPGXML] returns has an id that is not
    empty, and every programme listed under it has a title, a start and
    a stop that are not empty and carries the name of that channel. *)
Theorem parseEPGXML_listing (xmlDoc : Node)
    (c : EPGChannelType (list EPGProgramType)) :
  In c (parseEPGXML getTime xmlDoc) ->
  id c <> EmptyString
  /\ forall p, In p (programs c) ->
       title p <> EmptyString /\ startTime p <> EmptyString
       /\ endTime p <> EmptyString /\ channel p = Some (name c).
Proof.
  unfold parseEPGXML.
  destruct (document_getElementsByTagName "parsererror" xmlDoc); [|intros []].
  cbv zeta. unfold parse_state. cbv zeta. cbn [channels heap].
  set (st := fold_left add_program _ _).
  assert (Hinv : parse_inv st).
  { subst st. apply fold_left_inv; [exact parse_inv_add_program|].
    apply parse_inv_add_aeAlternatives.
    apply fold_left_inv; [exact parse_inv_add_channel | exact parse_inv_initial]. }
  intros Hin. apply in_map_iff in Hin as (c0 & <- & Hc0).
  unfold view. cbn [id name programs]. split; [exact (inv_id st Hinv c0 Hc0)|].
  intros p Hp.
  pose proof (read_sorted_heap (listed_under (name c0)) (channels st) (programs c0)
                (heap st) (inv_programs st Hinv c0 Hc0)) as Hall.
  rewrite List.Forall_forall in Hall. exact (Hall p Hp).
Qed.

End GuideFacts.

(** The channel that the parser makes of [ae_guide]. *)
Definition first_48 : Epg.EPGProgramType :=
  {| Epg.title := "The First 48";
     Epg.description := None;
     Epg.startTime := "20240101210000 +0000";
     Epg.endTime := "20240101220000 +0000";
     Epg.channel := Some "A&E"%string;
     Epg.category := None;
     Epg.rating := None;
     Epg.language := None;
     Epg.program_icon := None |}.

Definition ae_channel : Epg.EPGChannelType (list Epg.EPGProgramType) :=
  {| Epg.id := "AE.br"; Epg.name := "A&E"; Epg.icon := ""; Epg.programs := [first_48] |}.

Lemma parseEPGXML_listing_witness : Epg.channel first_48 = Some "A&E"%string.
Proof.
  refine (proj2 (proj2 (proj2
            (proj2 (parseEPGXML_listing Runtime.Date_getTime ae_guide ae_channel _)
               first_48 _)))).
  - vm_compute. left. reflexivity.
  - now left.
Defined.

(** ** The guide that [getEPG] returns *)

Section GetEPGFacts.
Import Js Runtime Streams Catalog.
Variable config : IPTVFetchConfig.
Variable JSON_parse : string -> option JSON.
Variable fetch : list Fetch.Event -> Fetch.Transport -> string -> Fetch.Response.
Variable proxyService : list Fetch.Event -> string -> Fetch.ProxyResponse.
Variable this : Fetch.Service.
Context {codec_text : JsonCodec string}.
Context {codec_streams : JsonCodec (list StreamType)}.
Context {codec_guide : JsonCodec Guide}.
Variable parseFromString : string -> Node.
Variable getTime : string -> option Z.
Variable localeCompare : string -> string -> Z.

Lemma match_by_id_In channelId (filteredData : Guide) c :
  In c (match_by_id channelId filteredData) -> In c filteredData.
Proof.
  unfold match_by_id.
  destruct (Matching.findMatchingChannel channelId filteredData) as [found|] eqn:E;
    [|intros []].
  intros [<- | []].
  exact (findMatchingChannel_In channelId filteredData _ E).
Qed.

(** The text that the direct download returns is the body of the answer
    to the request for the guide. *)
Definition downloaded (e : Cache.Env Outside) (xmlContent : string) : Prop :=
  exists contentType,
    fetch (Fetch.trace (net (Cache.outside e))) Fetch.Direct (Fetch.epgUrl this)
    = Fetch.Status true contentType xmlContent.

Lemma fetchEPGXMLDirect_downloaded e xmlContent :
  fst (Catalog.fetchEPGXMLDirect fetch this e) = Some xmlContent ->
  downloaded e xmlContent.
Proof.
  unfold Catalog.fetchEPGXMLDirect, lift, Fetch.fetchEPGXMLDirect, Fetch.window_fetch,
    downloaded.
  destruct (fetch (Fetch.trace (net (Cache.outside e))) Fetch.Direct (Fetch.epgUrl this))
    as [|[|] ct body]; cbn; try discriminate.
  destruct (String.eqb body "" || negb (includes body "<?xml")); cbn; [discriminate|].
  intros [= <-]. now exists ct.
Qed.

(** What the producer of [getEPG] returns is taken from the channels, with
    a programme, of the document that was downloaded. *)
Lemma fetch_guide_In channelId e guide e' c :
  fetch_guide config JSON_parse fetch proxyService this parseFromString getTime
    localeCompare channelId e = (Returned guide, e') ->
  In c guide ->
  Epg.programs c <> []
  /\ exists xmlContent,
       downloaded e xmlContent
       /\ In c (Epg.parseEPGXML getTime (parseFromString xmlContent)).
Proof.
  unfold fetch_guide.
  pose proof (fetchEPGXMLDirect_downloaded e) as Hdown.
  destruct (Catalog.fetchEPGXMLDirect fetch this e) as [[xmlContent|] e1];
    [|intros [= <- _] []].
  specialize (Hdown xmlContent eq_refl).
  cbv zeta.
  set (filteredData := sort _ _).
  assert (Hfiltered : forall x, In x filteredData ->
            Epg.programs x <> []
            /\ exists xmlContent,
                 downloaded e xmlContent
                 /\ In x (Epg.parseEPGXML getTime (parseFromString xmlContent))).
  { intros x Hx. subst filteredData. apply sort_In in Hx.
    apply List.filter_In in Hx as [Hx Hlen]. split; [|now exists xmlContent].
    intros Hnil. rewrite Hnil in Hlen. discriminate. }
  assert (Hby_id : forall wanted x,
            In x (match_by_id wanted filteredData) -> In x filteredData)
    by (intros wanted x; apply match_by_id_In).
  destruct channelId as [[|ch wanted]|].
  - intros [= <- _]. apply Hfiltered.
  - destruct (List.filter _ filteredData) as [|d ds] eqn:Hdirect.
    + destruct (getLiveStreams _ _ _ _ _ _ _) as [[streams|m|] e2].
      * destruct (List.find _ streams) as [stream|].
        -- destruct (name stream);
             try (intros [= <- _] Hin; eapply Hfiltered, Hby_id; eassumption).
           destruct (Matching.findMatchingChannel s filteredData) as [found|] eqn:E.
           ++ intros [= <- _] [<- | []]. apply Hfiltered.
              exact (findMatchingChannel_In s filteredData _ E).
           ++ intros [= <- _] Hin. eapply Hfiltered, Hby_id; eassumption.
        -- intros [= <- _] Hin. eapply Hfiltered, Hby_id; eassumption.
      * intros [= <- _] Hin. eapply Hfiltered, Hby_id; eassumption.
      * discriminate.
    + intros [= <- _] Hin. apply Hfiltered.
      assert (H : In c (List.filter
                          (fun c0 => String.eqb (Epg.id c0) (String ch wanted))
                          filteredData)) by (rewrite Hdirect; exact Hin).
      now apply List.filter_In in H.
  - intros [= <- _]. apply Hfiltered.
Qed.

(** X14.  On a cache that holds nothing usable, every channel of the guide
    that [getEPG] returns has at least one programme and is a channel that
    [parseEPGXML] made of the text that the server sent in answer to the
    request for the guide; the entries without programmes, the
    alternative ids of the A&E channel among them, are never returned. *)
Theorem getEPG_lists_programmes channelId (e : Cache.Env Outside) guide c :
  cache_miss (T := Guide) config (account_key this "epg" (or_all channelId)) e ->
  fst (getEPG config JSON_parse fetch proxyService this parseFromString getTime
         localeCompare channelId e) = Returned guide ->
  In c guide ->
  Epg.programs c <> []
  /\ exists contentType xmlContent,
       fetch (Fetch.trace (net (Cache.outside e))) Fetch.Direct (Fetch.epgUrl this)
       = Fetch.Status true contentType xmlContent
       /\ In c (Epg.parseEPGXML getTime (parseFromString xmlContent)).
Proof.
  intros Hmiss Hrun Hin. unfold getEPG in Hrun.
  rewrite (getCachedOrFetch_miss config _ _ e Hmiss) in Hrun.
  destruct (fetch_guide config JSON_parse fetch proxyService this parseFromString
              getTime localeCompare channelId e) as [outcome e'] eqn:Hguide.
  cbn [fst] in Hrun. subst outcome.
  destruct (fetch_guide_In channelId e guide e' c Hguide Hin)
    as (Hprograms & xmlContent & (contentType & Hanswer) & Hparsed).
  split; [exact Hprograms|]. now exists contentType, xmlContent.
Qed.

End GetEPGFacts.

(** A server that answers every request with a guide, read by the parser
    as [ae_guide]: [getEPG] returns the A&E channel alone. *)
Definition guide_network : list Fetch.Event -> Fetch.Transport -> string -> Fetch.Response :=
  fun _ _ _ => Fetch.Status true "application/xml" "<?xml version='1.0'?><tv></tv>".

Lemma getEPG_lists_programmes_witness : Epg.programs ae_channel <> [].
Proof.
  refine (proj1 (getEPG_lists_programmes DEFAULT_CONFIG no_json guide_network
                   Fetch.dead_proxy tv_example (codec_text := write_only string)
                   (codec_streams := write_only (list Streams.StreamType))
                   (codec_guide := write_only _)
                   (fun _ => ae_guide) Runtime.Date_getTime (fun _ _ => 0)
                   None cold_env [ae_channel] ae_channel _ _ _)).
  - reflexivity.
  - vm_compute. reflexivity.
  - now left.
Defined.

(** ** The playlist mode of the catalog *)

Section PlaylistFacts.
Import Js Names Streams.
Variable username_ password_ : string.

Local Abbreviation scan_streams := (scan_streams username_ password_).
Local Abbreviation parseM3UToStreamType := (parseM3UToStreamType username_ password_).

(** [group === categoryId] on a stream of the playlist mode, whose
    [genres] hold its group alone. *)
Definition in_category (categoryId : string) (s : StreamType) : bool :=
  match genres s with
  | [group] => String.eqb group categoryId
  | _ => false
  end.

Lemma startsWith_trans (s p q : string) :
  startsWith p q = true -> startsWith s p = true -> startsWith s q = true.
Proof.
  revert s p. induction q as [|x q IH]; intros s p Hpq Hsp; [reflexivity|].
  destruct p as [|y p]; [discriminate|]. destruct s as [|z s]; [discriminate|].
  cbn [startsWith] in *.
  apply andb_prop in Hpq as [Hxy Hpq]. apply andb_prop in Hsp as [Hyz Hsp].
  apply Ascii.eqb_eq in Hxy as ->. rewrite Hyz. cbn [andb]. exact (IH _ _ Hpq Hsp).
Qed.

Lemma not_an_info_line (s : string) :
  startsWith s "#" = false -> startsWith s "#EXTINF:" = false.
Proof.
  intros H. destruct (startsWith s "#EXTINF:") eqn:E; [|reflexivity].
  rewrite (startsWith_trans s "#EXTINF:" "#" eq_refl E) in H. discriminate.
Qed.

(** The line of a URL is passed over when the loop comes to it. *)
Lemma scan_streams_url_line kind categoryId i next rest :
  startsWith (trim next) "#" = false ->
  scan_streams kind categoryId i (next :: rest)
  = scan_streams kind categoryId (S i) rest.
Proof.
  intros H. cbn [Streams.scan_streams]. cbv zeta.
  now rewrite (not_an_info_line _ H).
Qed.

Lemma scan_streams_category kind categoryId (n : nat) :
  categoryId <> EmptyString ->
  forall lines i,
    (length lines <= n)%nat ->
    scan_streams kind (Some categoryId) i lines
    = List.filter (in_category categoryId) (scan_streams kind None i lines).
Proof.
  intros Hcat. induction n as [|n IH]; intros lines i Hlen.
  - destruct lines; [reflexivity | cbn in Hlen; lia].
  - destruct lines as [|current following]; [reflexivity|].
    cbn [Streams.scan_streams]. cbv zeta.
    assert (Hfollowing : forall j,
              scan_streams kind (Some categoryId) j following
              = List.filter (in_category categoryId) (scan_streams kind None j following))
      by (intros j; apply IH; cbn in Hlen; lia).
    destruct (startsWith (trim current) "#EXTINF:"); [|apply Hfollowing].
    destruct following as [|next rest]; [reflexivity|].
    assert (Hrest : forall j,
              scan_streams kind (Some categoryId) j rest
              = List.filter (in_category categoryId) (scan_streams kind None j rest))
      by (intros j; apply IH; cbn in Hlen; lia).
    destruct (String.eqb (trim next) "") eqn:Hempty; [apply Hfollowing|].
    destruct (startsWith (trim next) "#") eqn:Hhash; [apply Hfollowing|].
    cbn [orb].
    destruct (negb (StreamKind_eqb _ kind)); [apply Hfollowing|].
    destruct categoryId as [|c cs]; [contradiction|].
    cbn [List.filter in_category genres].
    destruct (String.eqb _ (String c cs)); cbn [negb].
    + now rewrite Hrest.
    + rewrite scan_streams_url_line by exact Hhash. apply Hrest.
Qed.

(** X15.  The streams of a category are the streams of the whole playlist
    whose group is that category, in the same order and with the same
    ids: asking for a category and filtering the whole list give the
    same result. *)
Theorem parseM3UToStreamType_category m3uContent kind categoryId :
  categoryId <> EmptyString ->
  parseM3UToStreamType m3uContent kind (Some categoryId)
  = List.filter (in_category categoryId) (parseM3UToStreamType m3uContent kind None).
Proof.
  intros Hcat. unfold Streams.parseM3UToStreamType.
  now apply (scan_streams_category kind categoryId
               (length (split M3UService.LF m3uContent)) Hcat).
Qed.

(** The category under which a stream of the playlist mode is counted:
    its group, or [Uncategorized] when it has none. *)
Definition category_of (s : StreamType) : string :=
  or_default (head (genres s)) "Uncategorized".

(** [if (!categories.has(group)) categories.set(group, group)] *)
Definition add_new (seen : list string) (group : string) : list string :=
  if existsb (String.eqb group) seen then seen else seen ++ [group].

Lemma streamType_of_default (found : option string) (urlLine : string) :
  streamType_of (or_default found "Uncategorized") urlLine
  = streamType_of (or_default found "") urlLine.
Proof. destruct found as [[|c g]|]; reflexivity. Qed.

Lemma category_of_default (found : option string) :
  or_default (Some (or_default found "")) "Uncategorized"
  = or_default found "Uncategorized".
Proof. destruct found as [[|c g]|]; reflexivity. Qed.

Lemma scan_categories_streams kind (n : nat) :
  forall lines seen i,
    (length lines <= n)%nat ->
    scan_categories kind seen lines
    = fold_left add_new (map category_of (scan_streams kind None i lines)) seen.
Proof.
  induction n as [|n IH]; intros lines seen i Hlen.
  - destruct lines; [reflexivity | cbn in Hlen; lia].
  - destruct lines as [|current following]; [reflexivity|].
    cbn [Streams.scan_streams scan_categories]. cbv zeta.
    assert (Hfollowing : forall seen' j,
              scan_categories kind seen' following
              = fold_left add_new
                  (map category_of (scan_streams kind None j following)) seen')
      by (intros seen' j; apply IH; cbn in Hlen; lia).
    destruct (startsWith (trim current) "#EXTINF:"); [|apply Hfollowing].
    destruct following as [|next rest]; [reflexivity|].
    assert (Hrest : forall seen' j,
              scan_categories kind seen' rest
              = fold_left add_new
                  (map category_of (scan_streams kind None j rest)) seen')
      by (intros seen' j; apply IH; cbn in Hlen; lia).
    destruct (String.eqb (trim next) "" || startsWith (trim next) "#");
      [apply Hfollowing|].
    rewrite streamType_of_default.
    destruct (negb (StreamKind_eqb _ kind)); [apply Hfollowing|].
    cbn [map fold_left]. unfold category_of in *. cbn [genres head].
    rewrite category_of_default. apply Hrest.
Qed.

Lemma add_new_In seen group g :
  In g (add_new seen group) <-> In g seen \/ g = group.
Proof.
  unfold add_new. destruct (existsb (String.eqb group) seen) eqn:E.
  - split; [now left|]. intros [H | ->]; [exact H|].
    apply existsb_exists in E as (x & Hx & Heq). now apply String.eqb_eq in Heq as ->.
  - rewrite in_app_iff. cbn. intuition congruence.
Qed.

Lemma add_new_NoDup seen group : List.NoDup seen -> List.NoDup (add_new seen group).
Proof.
  intros H. unfold add_new. destruct (existsb (String.eqb group) seen) eqn:E; [exact H|].
  apply List.NoDup_app; [exact H | repeat constructor; intros [] |].
  intros x Hx [Heq | []]. subst x.
  assert (Hex : existsb (String.eqb group) seen = true)
    by (apply existsb_exists; exists group; split; [exact Hx | apply String.eqb_refl]).
  congruence.
Qed.

Lemma fold_add_new groups : forall seen,
  List.NoDup seen ->
  List.NoDup (fold_left add_new groups seen)
  /\ forall g, In g (fold_left add_new groups seen) <-> In g seen \/ In g groups.
Proof.
  induction groups as [|group groups IH]; intros seen Hseen; cbn [fold_left].
  - split; [exact Hseen|]. cbn. intuition.
  - destruct (IH (add_new seen group) (add_new_NoDup seen group Hseen)) as [Hn Hin].
    split; [exact Hn|]. intros g. rewrite Hin, add_new_In. cbn. intuition.
Qed.

(** X16.  The categories of a kind are the groups of the streams of that kind,
    each listed once; a stream without group is counted under
    [Uncategorized].  The id and the name of a category are its group. *)
Theorem parseM3UCategories_groups m3uContent kind :
  let categories := parseM3UCategories m3uContent kind in
  List.NoDup (map category_id categories)
  /\ (forall g,
        In g (map category_id categories)
        <-> exists s, In s (parseM3UToStreamType m3uContent kind None)
                      /\ category_of s = g)
  /\ forall cat, In cat categories -> category_name cat = Some (JStr (category_id cat)).
Proof.
  cbv zeta. unfold parseM3UCategories, Streams.parseM3UToStreamType.
  rewrite map_map. cbn [category_id]. rewrite map_id.
  rewrite (scan_categories_streams kind (length (split M3UService.LF m3uContent))
             _ [] 0%nat (Nat.le_refl _)).
  destruct (fold_add_new
              (map category_of (scan_streams kind None 0 (split M3UService.LF m3uContent)))
              [] (List.NoDup_nil _)) as [Hnodup Hin].
  split; [exact Hnodup|]. split.
  - intros g. rewrite Hin, in_map_iff. split.
    + intros [[] | (s & Hs & Hmember)]. now exists s.
    + intros (s & Hmember & Hs). right. now exists s.
  - intros cat Hcat. apply in_map_iff in Hcat as (g & <- & _). reflexivity.
Qed.

(** What every stream of the playlist mode carries. *)
Definition playable (kind : StreamKind) (s : StreamType) : Prop :=
  id s = stream_id s /\ id s <> EmptyString
  /\ url s <> EmptyString /\ startsWith (url s) "#" = false
  /\ username s = username_ /\ password s = password_
  /\ exists group, genres s = [group] /\ streamType_of group (url s) = kind.

Lemma StreamKind_eqb_eq (a b : StreamKind) : StreamKind_eqb a b = true -> a = b.
Proof. destruct a, b; cbn; congruence. Qed.

Lemma or_default_nonempty (v : option string) (d : string) :
  d <> EmptyString -> or_default v d <> EmptyString.
Proof. intros Hd. destruct v as [[|c r]|]; cbn; congruence. Qed.

Lemma scan_streams_playable kind categoryId (n : nat) :
  forall lines i,
    (length lines <= n)%nat ->
    Forall (playable kind) (scan_streams kind categoryId i lines).
Proof.
  induction n as [|n IH]; intros lines i Hlen.
  - destruct lines; [constructor | cbn in Hlen; lia].
  - destruct lines as [|current following]; [constructor|].
    cbn [Streams.scan_streams]. cbv zeta.
    assert (Hfollowing : forall j,
              Forall (playable kind) (scan_streams kind categoryId j following))
      by (intros j; apply IH; cbn in Hlen; lia).
    destruct (startsWith (trim current) "#EXTINF:"); [|apply Hfollowing].
    destruct following as [|next rest]; [constructor|].
    destruct (String.eqb_spec (trim next) "") as [|Hurl]; [apply Hfollowing|].
    destruct (startsWith (trim next) "#") eqn:Hhash; [apply Hfollowing|].
    cbn [orb].
    destruct (StreamKind_eqb _ kind) eqn:Hkind; cbn [negb]; [|apply Hfollowing].
    destruct (match categoryId with
              | Some (String c cs) => _
              | _ => false
              end); [apply Hfollowing|].
    constructor; [|apply IH; cbn in Hlen; lia].
    unfold playable. cbn [id stream_id url username password genres].
    repeat split; try assumption.
    + apply or_default_nonempty. discriminate.
    + eexists. split; [reflexivity|]. now apply StreamKind_eqb_eq.
Qed.

(** X17.  Every stream that [parseM3UToStreamType] returns can be played and
    told apart: it has an id, which is also its [stream_id]; a URL that
    is not empty and is not a line of the playlist format; the
    credentials of the service; and one group, which with the URL makes
    it a stream of the kind that was asked for. *)
Theorem parseM3UToStreamType_playable m3uContent kind categoryId :
  Forall (playable kind) (parseM3UToStreamType m3uContent kind categoryId).
Proof.
  unfold Streams.parseM3UToStreamType.
  now apply (scan_streams_playable kind categoryId
               (length (split M3UService.LF m3uContent))).
Qed.

End PlaylistFacts.

Lemma parseM3UToStreamType_category_witness :
  Streams.parseM3UToStreamType "u" "p"
    ("#EXTM3U" ++ String M3UService.LF "#EXTINF:-1,One"
     ++ String M3UService.LF "http://tv.example/1.ts")
    Streams.live (Some "Uncategorized"%string)
  = [].
Proof.
  rewrite (parseM3UToStreamType_category "u" "p" _ Streams.live "Uncategorized").
  - reflexivity.
  - discriminate.
Defined.

(** ** Sorting by a key *)

Section SortByKey.
Import Runtime.
Context {A : Type}.

Lemma insert_sorted_ext (cmp cmp' : A -> A -> option Z) (x : A) (l : list A) :
  (forall y, In y l -> cmp x y = cmp' x y) ->
  insert_sorted cmp x l = insert_sorted cmp' x l.
Proof.
  induction l as [|y l IH]; intros H; [reflexivity|]. cbn [insert_sorted].
  unfold sortCompare. rewrite (H y (or_introl eq_refl)).
  rewrite IH by (intros z Hz; apply H; now right). reflexivity.
Qed.

(** The result of a sort depends on the comparator through the elements
    of the array only. *)
Lemma sort_ext (cmp cmp' : A -> A -> option Z) (l : list A) :
  (forall x y, In x l -> In y l -> cmp x y = cmp' x y) ->
  sort cmp l = sort cmp' l.
Proof.
  induction l as [|x l IH]; intros H; [reflexivity|]. cbn [sort].
  rewrite <- IH by (intros a b Ha Hb; apply H; now right).
  apply insert_sorted_ext. intros y Hy. apply sort_In in Hy.
  apply H; [now left | now right].
Qed.

Variable key : A -> Z.

Definition by_key (a b : A) : option Z := Some (key a - key b).

Definition key_le (a b : A) : Prop := key a <= key b.

Lemma insert_sorted_by_key (x : A) (l : list A) :
  StronglySorted key_le l -> StronglySorted key_le (insert_sorted by_key x l).
Proof.
  induction l as [|y l IH]; intros Hs; cbn [insert_sorted].
  - repeat constructor.
  - apply StronglySorted_inv in Hs as [Hl Hy].
    unfold sortCompare, by_key. destruct (Z.ltb_spec 0 (key x - key y)) as [Hgt | Hle].
    + constructor; [now apply IH|].
      apply List.Forall_forall. intros z Hz. apply insert_sorted_In in Hz as [-> | Hz].
      * unfold key_le. lia.
      * rewrite List.Forall_forall in Hy. now apply Hy.
    + constructor; [now constructor|].
      constructor; [unfold key_le; lia|].
      rewrite List.Forall_forall in Hy |- *. intros z Hz.
      specialize (Hy z Hz). unfold key_le in *. lia.
Qed.

Lemma sort_by_key (l : list A) : StronglySorted key_le (sort by_key l).
Proof.
  induction l as [|x l IH]; cbn [sort]; [constructor|].
  now apply insert_sorted_by_key.
Qed.

(** In an array sorted by the key, [find] returns an element with the
    least key among those that pass the test. *)
Lemma find_sorted_least (f : A -> bool) (l : list A) (p : A) :
  StronglySorted key_le l ->
  List.find f l = Some p ->
  forall q, In q l -> f q = true -> key p <= key q.
Proof.
  induction l as [|x l IH]; intros Hs Hfind q Hq Hf; [destruct Hq|].
  apply StronglySorted_inv in Hs as [Hl Hx]. cbn [List.find] in Hfind.
  destruct (f x) eqn:Hfx.
  - injection Hfind as <-. destruct Hq as [<- | Hq]; [lia|].
    rewrite List.Forall_forall in Hx. exact (Hx q Hq).
  - destruct Hq as [<- | Hq]; [congruence|]. now apply IH.
Qed.

End SortByKey.

(** ** The programme that comes next *)

Section NextProgramFacts.
Import Runtime Epg ChannelList.
Variable getTime : string -> option Z.
Variable now : Z.

Local Abbreviation start_of := (start_of getTime).

Definition start_key (p : EPGProgramType) : Z :=
  match start_of p with
  | Some start => start
  | None => 0
  end.

(** X23.  When the start of every programme of the guide is read by [Date],
    [getNextProgram] returns the programme that starts soonest after
    now: it is in the guide, it starts after now, and no programme of the
    guide that starts after now starts before it.  It returns nothing
    only when no programme starts after now. *)
Theorem getNextProgram_earliest (guide : EPGChannelType (list EPGProgramType)) :
  (forall p, In p (programs guide) -> start_of p <> None) ->
  match getNextProgram getTime now (Some guide) with
  | Some next =>
      In next (programs guide)
      /\ exists start,
           start_of next = Some start /\ now < start
           /\ forall q t, In q (programs guide) -> start_of q = Some t ->
                          now < t -> start <= t
  | None =>
      forall q t, In q (programs guide) -> start_of q = Some t -> t <= now
  end.
Proof.
  intros Hread. unfold getNextProgram.
  assert (Hsort : sort (by_adjusted_start getTime) (programs guide)
                  = sort (by_key start_key) (programs guide)).
  { apply sort_ext. intros x y Hx Hy. unfold by_adjusted_start, by_key, start_key.
    pose proof (Hread x Hx). pose proof (Hread y Hy).
    destruct (start_of x); [|congruence]. destruct (start_of y); [|congruence].
    reflexivity. }
  assert (Hfind :
    match List.find (starts_later getTime now)
            (sort (by_adjusted_start getTime) (programs guide)) with
    | Some next =>
        In next (programs guide)
        /\ exists start,
             start_of next = Some start /\ now < start
             /\ forall q t, In q (programs guide) -> start_of q = Some t ->
                            now < t -> start <= t
    | None =>
        forall q t, In q (programs guide) -> start_of q = Some t -> t <= now
    end).
  { rewrite Hsort.
    destruct (List.find _ _) as [next|] eqn:E.
    - pose proof (find_sorted_least start_key _ _ next (sort_by_key start_key _) E)
        as Hleast.
      apply List.find_some in E as [Hin Hlater].
      apply sort_In in Hin. split; [exact Hin|].
      unfold starts_later in Hlater.
      destruct (start_of next) as [start|] eqn:Hstart; [|discriminate].
      exists start. split; [reflexivity|]. split; [lia|].
      intros q t Hq Ht Hnow.
      assert (Hq' : In q (sort (by_key start_key) (programs guide)))
        by (now apply sort_In).
      specialize (Hleast q Hq').
      unfold start_key in Hleast. rewrite Hstart, Ht in Hleast.
      apply Hleast. unfold starts_later. rewrite Ht. now apply Z.ltb_lt.
    - intros q t Hq Ht.
      assert (Hq' : In q (sort (by_key start_key) (programs guide)))
        by (now apply sort_In).
      pose proof (List.find_none _ _ E q Hq') as Hnot.
      unfold starts_later in Hnot. rewrite Ht in Hnot.
      now apply Z.ltb_ge in Hnot. }
  destruct (programs guide) as [|p0 rest] eqn:Hprograms; [|exact Hfind].
  intros q t [].
Qed.

(** X24.  The programme on the air and the programme that comes next are
    never the same: the first has started, the second has not. *)
Theorem current_is_not_next (guide : EPGChannelType (list EPGProgramType))
    (current next : EPGProgramType) :
  getCurrentProgram getTime now (Some guide) = Some current ->
  getNextProgram getTime now (Some guide) = Some next ->
  In current (programs guide) /\ In next (programs guide)
  /\ current <> next
  /\ exists started starts stops,
       start_of current = Some started /\ end_of getTime current = Some stops
       /\ start_of next = Some starts
       /\ started <= now < stops /\ now < starts.
Proof.
  unfold getCurrentProgram, getNextProgram.
  destruct (programs guide) as [|p0 rest] eqn:Hprograms; [discriminate|].
  intros Hcurrent Hnext.
  apply List.find_some in Hcurrent as [Hin Hon].
  apply List.find_some in Hnext as [Hin' Hlater].
  apply sort_In in Hin'.
  unfold isCurrentProgram in Hon. unfold starts_later in Hlater.
  destruct (start_of current) as [started|] eqn:Hs; [|discriminate].
  destruct (end_of getTime current) as [stops|] eqn:He; [|discriminate].
  destruct (start_of next) as [starts|] eqn:Hn; [|discriminate].
  apply andb_prop in Hon as [Hle Hlt].
  apply Z.leb_le in Hle. apply Z.ltb_lt in Hlt, Hlater.
  split; [exact Hin|]. split; [exact Hin'|]. split.
  - intros ->. rewrite Hs in Hn. injection Hn as <-. lia.
  - exists started, starts, stops. repeat split; try reflexivity; lia.
Qed.

End NextProgramFacts.

(** Two programmes, the later one listed first, seen at noon of the
    first of January 2024 (UTC): the next programme is the one of nine
    in the evening. *)
Definition programme_at (titleText start stop : string) : Epg.EPGProgramType :=
  {| Epg.title := titleText;
     Epg.description := None;
     Epg.startTime := start;
     Epg.endTime := stop;
     Epg.channel := Some "ESPN"%string;
     Epg.category := None;
     Epg.rating := None;
     Epg.language := None;
     Epg.program_icon := None |}.

Definition two_programmes : Epg.EPGChannelType (list Epg.EPGProgramType) :=
  {| Epg.id := "ESPN"; Epg.name := "ESPN"; Epg.icon := "";
     Epg.programs :=
       [ programme_at "Morning show" "20240102060000 +0000" "20240102070000 +0000";
         programme_at "News" "20240101210000 +0000" "20240101220000 +0000" ] |}.

Lemma getNextProgram_earliest_witness :
  exists next,
    ChannelList.getNextProgram Runtime.Date_getTime 1704110400000 (Some two_programmes)
    = Some next
    /\ In next (Epg.programs two_programmes).
Proof.
  pose proof (getNextProgram_earliest Runtime.Date_getTime 1704110400000 two_programmes)
    as H.
  destruct (ChannelList.getNextProgram Runtime.Date_getTime 1704110400000
              (Some two_programmes)) as [next|].
  - exists next. split; [reflexivity|]. apply H.
    intros p [<- | [<- | []]]; vm_compute; discriminate.
  - exfalso.
    assert (Hall : forall p, In p (Epg.programs two_programmes) ->
                     ChannelList.start_of Runtime.Date_getTime p <> None)
      by (intros p [<- | [<- | []]]; vm_compute; discriminate).
    specialize (H Hall
                  (programme_at "News" "20240101210000 +0000" "20240101220000 +0000")
                  1704142800000).
    cbn [Epg.programs two_programmes In] in H.
    assert (1704142800000 <= 1704110400000) by (apply H; [auto | vm_compute; reflexivity]).
    lia.
Defined.

Lemma current_is_not_next_witness :
  programme_at "News" "20240101210000 +0000" "20240101220000 +0000"
  <> programme_at "Morning show" "20240102060000 +0000" "20240102070000 +0000".
Proof.
  refine (proj1 (proj2 (proj2
            (current_is_not_next Runtime.Date_getTime 1704144000000 two_programmes
               _ _ _ _)))); reflexivity.
Defined.

(** ** The playlist held by the service object *)

Section PlaylistMemoFacts.
Import Js Streams Catalog.
Variable config : IPTVFetchConfig.
Variable JSON_parse : string -> option JSON.
Variable this : Fetch.Service.
Context {codec_text : JsonCodec string}.

Lemma try_formats_header
    (fetch : list Fetch.Event -> Fetch.Transport -> string -> Fetch.Response)
    (proxyService : list Fetch.Event -> string -> Fetch.ProxyResponse)
    formats : forall (e e1 : Cache.Env Outside) content,
  try_formats config JSON_parse fetch proxyService this formats e
  = (Returned (Some content), e1) ->
  startsWith (trim content) "#EXTM3U" = true.
Proof.
  induction formats as [|format rest IH]; intros e e1 content; cbn [try_formats];
    [discriminate|].
  cbv zeta.
  destruct (Catalog.fetchWithRetry _ _ _ _ _ e) as [[[| | |response| |]|m|] e'];
    try apply IH; try discriminate.
  destruct (startsWith (trim response) "#EXTM3U") eqn:Hheader; [|apply IH].
  now intros [= <- _].
Qed.

(** X18.  A playlist that [getM3UContent] had to download begins with the
    header [#EXTM3U], and is kept in the service object: the call that
    follows returns it at once, without a request and without reading
    the cache, whatever the network would answer. *)
Theorem getM3UContent_remembers
    (fetch : list Fetch.Event -> Fetch.Transport -> string -> Fetch.Response)
    (proxyService : list Fetch.Event -> string -> Fetch.ProxyResponse)
    (e e' : Cache.Env Outside) (content : string) :
  m3uCache (Cache.outside e) = None ->
  cache_miss (T := string) config
    ("m3u:" ++ Fetch.baseUrl this ++ ":" ++ Fetch.username this) e ->
  getM3UContent config JSON_parse fetch proxyService this e
  = (Returned (Some content), e') ->
  startsWith (trim content) "#EXTM3U" = true
  /\ m3uCache (Cache.outside e') = Some content
  /\ forall fetch' proxyService',
       getM3UContent config JSON_parse fetch' proxyService' this e'
       = (Returned (Some content), e').
Proof.
  intros Hnone Hmiss Hrun.
  assert (Hkept : startsWith (trim content) "#EXTM3U" = true
                  /\ m3uCache (Cache.outside e') = Some content).
  { unfold getM3UContent in Hrun. rewrite Hnone in Hrun.
    unfold Catalog.getCachedOrFetch, Cache.getCachedOrFetch in Hrun.
    cbn [Cache.env] in Hrun. unfold cache_miss in Hmiss. rewrite Hmiss in Hrun.
    destruct (try_formats config JSON_parse fetch proxyService this _ e)
      as [[[[|c found]|]|m|] e1] eqn:Hformats; cbn in Hrun; try discriminate.
    injection Hrun as <- <-. split; [|reflexivity].
    exact (try_formats_header fetch proxyService _ e e1 _ Hformats). }
  destruct Hkept as [Hheader Hkept].
  split; [exact Hheader|]. split; [exact Hkept|].
  intros fetch' proxyService'. unfold getM3UContent. now rewrite Hkept.
Qed.

End PlaylistMemoFacts.

(** A server that answers every request with a playlist of one entry. *)
Definition playlist_network : list Fetch.Event -> Fetch.Transport -> string -> Fetch.Response :=
  fun _ _ _ =>
    Fetch.Status true "audio/mpegurl"
      ("#EXTM3U" ++ String M3UService.LF "#EXTINF:-1,One"
       ++ String M3UService.LF "http://tv.example/1.ts").

Lemma getM3UContent_remembers_witness :
  exists content e',
    Catalog.getM3UContent DEFAULT_CONFIG no_json playlist_network Fetch.dead_proxy
      playlist_example (codec_text := write_only string) cold_env
    = (Returned (Some content), e')
    /\ Catalog.getM3UContent DEFAULT_CONFIG no_json Fetch.dead_network Fetch.dead_proxy
         playlist_example (codec_text := write_only string) e'
       = (Returned (Some content), e').
Proof.
  destruct (Catalog.getM3UContent DEFAULT_CONFIG no_json playlist_network
              Fetch.dead_proxy playlist_example (codec_text := write_only string)
              cold_env) as [outcome e'] eqn:Hrun.
  assert (Hcontent : exists content, outcome = Returned (Some content)).
  { vm_compute in Hrun. injection Hrun as <- _. eexists. reflexivity. }
  destruct Hcontent as [content ->].
  exists content, e'. split; [reflexivity|].
  apply (getM3UContent_remembers DEFAULT_CONFIG no_json playlist_example
           (codec_text := write_only string) playlist_network Fetch.dead_proxy
           cold_env e' content eq_refl eq_refl Hrun).
Defined.

(** ** Time stamps of the guide, as the channel list reads them *)

Section StampFacts.
Import Js Runtime Names Epg.

(** The decimal digit of a number below ten, and a number written with
    a given count of digits. *)
Definition digit_char (d : Z) : ascii := ascii_of_nat (48 + Z.to_nat d).

Fixpoint digits (count : nat) (v : Z) : string :=
  match count with
  | O => EmptyString
  | S k => String (digit_char (v / 10 ^ Z.of_nat k)) (digits k (v mod 10 ^ Z.of_nat k))
  end.

Lemma digit_char_value (d : Z) :
  0 <= d < 10 -> digit_value (digit_char d) = Some d /\ is_digit (digit_char d) = true.
Proof.
  intros H. assert (Hd : d = 0 \/ d = 1 \/ d = 2 \/ d = 3 \/ d = 4 \/ d = 5
                         \/ d = 6 \/ d = 7 \/ d = 8 \/ d = 9) by lia.
  repeat (destruct Hd as [-> | Hd]; [split; reflexivity|]). subst. split; reflexivity.
Qed.

Lemma leading_digit (k : nat) (v : Z) :
  0 <= v < 10 ^ Z.of_nat (S k) ->
  0 <= v / 10 ^ Z.of_nat k < 10 /\ 0 <= v mod 10 ^ Z.of_nat k < 10 ^ Z.of_nat k.
Proof.
  intros H. assert (Hpow : 0 < 10 ^ Z.of_nat k) by (apply Z.pow_pos_nonneg; lia).
  rewrite Nat2Z.inj_succ, Z.pow_succ_r in H by lia.
  split; [|now apply Z.mod_pos_bound].
  split; [apply Z.div_pos; lia|].
  apply Z.div_lt_upper_bound; lia.
Qed.

Lemma take_digits_digits (count : nat) : forall v rest,
  0 <= v < 10 ^ Z.of_nat count ->
  take_digits count (digits count v ++ rest) = Some (digits count v, rest).
Proof.
  induction count as [|k IH]; intros v rest H; [reflexivity|].
  destruct (leading_digit k v H) as [Hq Hr].
  cbn [digits]. rewrite append_cons. cbn [take_digits].
  rewrite (proj2 (digit_char_value _ Hq)). now rewrite IH.
Qed.

Lemma read_digits_digits (count : nat) : forall v rest acc,
  0 <= v < 10 ^ Z.of_nat count ->
  read_digits count (digits count v ++ rest) acc
  = Some (acc * 10 ^ Z.of_nat count + v, rest).
Proof.
  induction count as [|k IH]; intros v rest acc H.
  - cbn [digits read_digits]. rewrite append_nil_l. do 2 f_equal. cbn in H. lia.
  - destruct (leading_digit k v H) as [Hq Hr].
    cbn [digits]. rewrite append_cons. cbn [read_digits].
    rewrite (proj1 (digit_char_value _ Hq)). rewrite IH by exact Hr.
    do 2 f_equal. rewrite Nat2Z.inj_succ, Z.pow_succ_r by lia.
    assert (Hpow : 0 < 10 ^ Z.of_nat k) by (apply Z.pow_pos_nonneg; lia).
    pose proof (Z.div_mod v (10 ^ Z.of_nat k)) as Hdm. nia.
Qed.

(** An XMLTV time stamp: fourteen digits, a space, a sign and four
    digits. *)
Definition stamp (year month day hour minute second : Z) (sign : ascii)
    (zoneHours zoneMinutes : Z) : string :=
  (digits 4 year ++ digits 2 month ++ digits 2 day ++ digits 2 hour
   ++ digits 2 minute ++ digits 2 second
   ++ String " " (String sign (digits 2 zoneHours ++ digits 2 zoneMinutes)))%string.

Definition iso_stamp (year month day hour minute second : Z) (sign : ascii)
    (zoneHours zoneMinutes : Z) : string :=
  (digits 4 year ++ "-" ++ digits 2 month ++ "-" ++ digits 2 day ++ "T"
   ++ digits 2 hour ++ ":" ++ digits 2 minute ++ ":" ++ digits 2 second
   ++ String sign (digits 2 zoneHours) ++ ":" ++ digits 2 zoneMinutes)%string.

Lemma adjustEPGDate_stamp year month day hour minute second sign zoneHours zoneMinutes :
  0 <= year < 10000 -> 0 <= month < 100 -> 0 <= day < 100 -> 0 <= hour < 100 ->
  0 <= minute < 100 -> 0 <= second < 100 ->
  0 <= zoneHours < 100 -> 0 <= zoneMinutes < 100 ->
  sign = "+"%char \/ sign = "-"%char ->
  adjustEPGDate (stamp year month day hour minute second sign zoneHours zoneMinutes)
  = iso_stamp year month day hour minute second sign zoneHours zoneMinutes.
Proof.
  intros Hy Hmo Hd Hh Hmi Hs Hzh Hzm Hsign.
  unfold adjustEPGDate, stamp, iso_stamp.
  rewrite (take_digits_digits 4) by (cbn; lia). cbn [mbind option_bind].
  rewrite (take_digits_digits 2) by (cbn; lia). cbn [mbind option_bind].
  rewrite (take_digits_digits 2) by (cbn; lia). cbn [mbind option_bind].
  rewrite (take_digits_digits 2) by (cbn; lia). cbn [mbind option_bind].
  rewrite (take_digits_digits 2) by (cbn; lia). cbn [mbind option_bind].
  rewrite <- (append_nil_r (digits 2 zoneMinutes)) at 1.
  rewrite (take_digits_digits 2 second) by (cbn; lia). cbn [mbind option_bind].
  change (is_space " ") with true. cbv iota.
  assert (Hnot : is_space sign = false) by (destruct Hsign as [-> | ->]; reflexivity).
  cbn [trimStart]. change (is_space " ") with true. cbv iota. rewrite Hnot.
  assert (Hok : Ascii.eqb sign "+" || Ascii.eqb sign "-" = true)
    by (destruct Hsign as [-> | ->]; reflexivity).
  rewrite Hok.
  rewrite (take_digits_digits 2 zoneHours) by (cbn; lia). cbn [mbind option_bind].
  rewrite (take_digits_digits 2 zoneMinutes) by (cbn; lia). cbn [mbind option_bind].
  reflexivity.
Qed.

(** The days of a month of the Gregorian calendar. *)
Definition days_in_month (year month : Z) : Z :=
  if month =? 2 then
    if (year mod 4 =? 0) && (negb (year mod 100 =? 0) || (year mod 400 =? 0))
    then 29 else 28
  else if (month =? 4) || (month =? 6) || (month =? 9) || (month =? 11) then 30
  else 31.

Lemma days_in_month_le (year month : Z) : days_in_month year month <= 31.
Proof.
  unfold days_in_month.
  repeat match goal with |- context [if ?b then _ else _] => destruct b end; lia.
Qed.

Lemma expect_digit (c : ascii) (d : Z) (rest : string) :
  0 <= d < 10 -> is_digit c = false -> expect c (String (digit_char d) rest) = None.
Proof.
  intros Hd Hc. cbn [expect].
  destruct (Ascii.eqb_spec c (digit_char d)) as [-> |]; [|reflexivity].
  rewrite (proj2 (digit_char_value d Hd)) in Hc. discriminate.
Qed.

Lemma read_digits_more (count more : nat) : forall v rest acc,
  0 <= v < 10 ^ Z.of_nat count ->
  read_digits (count + more) (digits count v ++ rest) acc
  = read_digits more rest (acc * 10 ^ Z.of_nat count + v).
Proof.
  induction count as [|k IH]; intros v rest acc H.
  - cbn [digits Nat.add]. rewrite append_nil_l. f_equal. cbn in H. lia.
  - destruct (leading_digit k v H) as [Hq Hr].
    cbn [digits Nat.add]. rewrite append_cons. cbn [read_digits].
    rewrite (proj1 (digit_char_value _ Hq)). rewrite IH by exact Hr.
    f_equal. rewrite Nat2Z.inj_succ, Z.pow_succ_r by lia.
    assert (Hpow : 0 < 10 ^ Z.of_nat k) by (apply Z.pow_pos_nonneg; lia).
    pose proof (Z.div_mod v (10 ^ Z.of_nat k)) as Hdm. nia.
Qed.

(** A field of a stamp, followed by a character that is not a digit or
    by nothing, is read as a number of exactly that many digits. *)
Lemma read_fixed_digits (count : nat) (v : Z) (rest : string) :
  0 <= v < 10 ^ Z.of_nat count ->
  starts_with_digit rest = false ->
  read_fixed count (digits count v ++ rest) = Some (v, rest).
Proof.
  intros Hv Hrest. unfold read_fixed. rewrite read_digits_digits by exact Hv.
  cbn [mbind option_bind]. rewrite Hrest. reflexivity.
Qed.

Lemma read_fixed_too_long (count : nat) (v d : Z) (rest : string) :
  0 <= v < 10 ^ Z.of_nat count -> 0 <= d < 10 ->
  read_fixed count (digits count v ++ String (digit_char d) rest) = None.
Proof.
  intros Hv Hd. unfold read_fixed. rewrite read_digits_digits by exact Hv.
  cbn [mbind option_bind starts_with_digit].
  now rewrite (proj1 (digit_char_value d Hd)).
Qed.

Lemma read_fixed_too_short (count more : nat) (v : Z) (c : ascii) (rest : string) :
  0 <= v < 10 ^ Z.of_nat count -> digit_value c = None ->
  read_fixed (count + S more) (digits count v ++ String c rest) = None.
Proof.
  intros Hv Hc. unfold read_fixed. rewrite read_digits_more by exact Hv.
  cbn [read_digits]. now rewrite Hc.
Qed.

Lemma iso_stamp_fields year month day hour minute second sign zoneHours zoneMinutes :
  iso_stamp year month day hour minute second sign zoneHours zoneMinutes
  = (digits 4 year ++ String "-" (digits 2 month ++ String "-" (digits 2 day
     ++ String "T" (digits 2 hour ++ String ":" (digits 2 minute
     ++ String ":" (digits 2 second
     ++ String sign (digits 2 zoneHours
     ++ String ":" (digits 2 zoneMinutes ++ EmptyString))))))))%string.
Proof.
  unfold iso_stamp.
  repeat (rewrite append_cons || rewrite append_nil_l || rewrite append_nil_r).
  reflexivity.
Qed.

(** The offset of a zone written with a sign, two digits, a colon and two
    digits. *)
Lemma read_zone_offset sign zoneHours zoneMinutes :
  0 <= zoneHours <= 23 -> 0 <= zoneMinutes <= 59 ->
  sign = "+"%char \/ sign = "-"%char ->
  read_zone (String sign (digits 2 zoneHours
                          ++ String ":" (digits 2 zoneMinutes ++ EmptyString)))
  = Some (if Ascii.eqb sign "+" then zoneHours * 60 + zoneMinutes
          else - (zoneHours * 60 + zoneMinutes)).
Proof.
  intros Hzh Hzm Hsign.
  assert (Hbody :
    ('(oh, om) ←
       match read_fixed 4 (digits 2 zoneHours
                           ++ String ":" (digits 2 zoneMinutes ++ EmptyString)) with
       | Some (hourmin, EmptyString) => Some (hourmin / 100, hourmin mod 100)
       | Some _ => None
       | None =>
           '(oh, rest) ← read_fixed 2
                            (digits 2 zoneHours
                             ++ String ":" (digits 2 zoneMinutes ++ EmptyString));
           rest ← expect ":" rest;
           '(om, rest) ← read_fixed 2 rest;
           match rest with
           | EmptyString => Some (oh, om)
           | _ => None
           end
       end;
     if (oh <=? 23) && (om <=? 59)
     then Some (if Ascii.eqb sign "+" then oh * 60 + om else - (oh * 60 + om))
     else None)
    = Some (if Ascii.eqb sign "+" then zoneHours * 60 + zoneMinutes
            else - (zoneHours * 60 + zoneMinutes))).
  { rewrite (read_fixed_too_short 2 1) by (first [reflexivity | cbn; lia]).
    rewrite (read_fixed_digits 2) by (first [reflexivity | cbn; lia]).
    cbn [mbind option_bind expect Ascii.eqb Bool.eqb].
    rewrite (read_fixed_digits 2) by (first [reflexivity | cbn; lia]).
    cbn [mbind option_bind].
    assert (Hok : (zoneHours <=? 23) && (zoneMinutes <=? 59) = true)
      by (apply andb_true_intro; split; apply Z.leb_le; lia).
    now rewrite Hok. }
  destruct Hsign as [-> | ->]; exact Hbody.
Qed.

(** X22.  The stamp of a time of the calendar, as the guide carries it, is
    not read by [Date]; rewritten by [adjustEPGDate] it is read, as the
    instant that it names. *)
Theorem adjustEPGDate_makes_stamps_readable
    year month day hour minute second sign zoneHours zoneMinutes :
  0 <= year < 10000 -> 1 <= month <= 12 -> 1 <= day <= days_in_month year month ->
  0 <= hour <= 23 -> 0 <= minute <= 59 -> 0 <= second <= 59 ->
  0 <= zoneHours <= 23 -> 0 <= zoneMinutes <= 59 ->
  sign = "+"%char \/ sign = "-"%char ->
  let raw := stamp year month day hour minute second sign zoneHours zoneMinutes in
  let offset := if Ascii.eqb sign "+" then zoneHours * 60 + zoneMinutes
                else - (zoneHours * 60 + zoneMinutes) in
  Date_getTime raw = None
  /\ Date_getTime (adjustEPGDate raw)
     = Some ((((days_from_civil year month day * 24 + hour) * 60 + minute - offset)
              * 60 + second) * 1000).
Proof.
  intros Hy Hmo Hd Hh Hmi Hs Hzh Hzm Hsign. cbv zeta.
  assert (Hday : 1 <= day <= 31)
    by (split; [apply Hd | eapply Z.le_trans; [apply Hd | apply days_in_month_le]]).
  clear Hd. split.
  - unfold Date_getTime, stamp.
    assert (Hmonth : 0 <= month < 10 ^ Z.of_nat 2)
      by (change (10 ^ Z.of_nat 2) with 100; lia).
    destruct (leading_digit 1 month Hmonth) as [Hq _].
    change (digits 2 month)
      with (String (digit_char (month / 10 ^ Z.of_nat 1))
                   (digits 1 (month mod 10 ^ Z.of_nat 1))).
    rewrite append_cons.
    rewrite (read_fixed_too_long 4) by (first [exact Hq | cbn; lia]).
    reflexivity.
  - rewrite adjustEPGDate_stamp by (first [lia | exact Hsign]).
    rewrite iso_stamp_fields. unfold Date_getTime.
    rewrite (read_fixed_digits 4) by (first [reflexivity | cbn; lia]).
    cbn [mbind option_bind]. unfold read_month_day.
    rewrite (read_fixed_digits 2) by (first [reflexivity | cbn; lia]).
    cbn [mbind option_bind].
    assert (Hmonth : (1 <=? month) && (month <=? 12) = true)
      by (apply andb_true_intro; split; apply Z.leb_le; lia).
    rewrite Hmonth.
    rewrite (read_fixed_digits 2) by (first [reflexivity | cbn; lia]).
    cbn [mbind option_bind].
    assert (Hdayb : (1 <=? day) && (day <=? 31) = true)
      by (apply andb_true_intro; split; apply Z.leb_le; lia).
    rewrite Hdayb. cbn [mbind option_bind Ascii.eqb Bool.eqb orb].
    rewrite (read_fixed_digits 2) by (first [reflexivity | cbn; lia]).
    cbn [mbind option_bind expect Ascii.eqb Bool.eqb].
    rewrite (read_fixed_digits 2) by (first [reflexivity | cbn; lia]).
    cbn [mbind option_bind]. unfold read_seconds.
    rewrite (read_fixed_digits 2).
    2: cbn; lia.
    2: destruct Hsign as [-> | ->]; reflexivity.
    cbn [mbind option_bind].
    assert (Hsec : (second <=? 59) = true) by (apply Z.leb_le; lia).
    rewrite Hsec.
    destruct Hsign as [-> | ->].
    + lazy beta iota. cbn [mbind option_bind].
      rewrite read_zone_offset by (first [lia | now left]).
      cbn [mbind option_bind Ascii.eqb Bool.eqb].
      assert (Hrange : (hour <=? 23) && (minute <=? 59) = true)
        by (apply andb_true_intro; split; apply Z.leb_le; lia).
      rewrite Hrange. cbn [orb]. do 2 f_equal. lia.
    + lazy beta iota. cbn [mbind option_bind].
      rewrite read_zone_offset by (first [lia | now right]).
      cbn [mbind option_bind Ascii.eqb Bool.eqb].
      assert (Hrange : (hour <=? 23) && (minute <=? 59) = true)
        by (apply andb_true_intro; split; apply Z.leb_le; lia).
      rewrite Hrange. cbn [orb]. do 2 f_equal. lia.
Qed.

End StampFacts.

Lemma adjustEPGDate_makes_stamps_readable_witness :
  Runtime.Date_getTime (Epg.adjustEPGDate "20240101210000 +0000") = Some 1704142800000.
Proof.
  refine (proj2 (adjustEPGDate_makes_stamps_readable 2024 1 1 21 0 0 "+" 0 0
                   _ _ _ _ _ _ _ _ _)); cbn; try lia. now left.
Defined.

(** Other strings of the format, and two that are not. *)
Lemma Date_getTime_examples :
  Runtime.Date_getTime "2024-01-01T21:00:00.000Z" = Some 1704142800000
  /\ Runtime.Date_getTime "2024-01-01T21:00:00.5-0300" = Some 1704153600500
  /\ Runtime.Date_getTime "2024-01-01T24:00:00Z" = Some 1704153600000
  /\ Runtime.Date_getTime "2024-01-01" = Some 1704067200000
  /\ Runtime.Date_getTime "2024-01-01T21:00:00+24:00" = None
  /\ Runtime.Date_getTime "2024-01-01T21:00:00+05:60" = None.
Proof. vm_compute. repeat split; reflexivity. Qed.

(** ** The answers of the server in the structured mode *)

Section XtreamFacts.
Import Js Streams.
Variable baseUrl username_ password_ : string.

Lemma map_outcome_all {A B : Type} (f : A -> Outcome B) (l : list A) :
  (forall x, In x l -> exists y, f x = Returned y) ->
  exists ys, map_outcome f l = Returned ys
             /\ Forall2 (fun x y => f x = Returned y) l ys.
Proof.
  induction l as [|x l IH]; intros H; cbn [map_outcome].
  - exists []. split; [reflexivity | constructor].
  - destruct (H x (or_introl eq_refl)) as [y Hy].
    destruct IH as (ys & Hys & Hall); [intros z Hz; apply H; now right|].
    rewrite Hy, Hys. exists (y :: ys). split; [reflexivity | now constructor].
Qed.

Lemma map_outcome_some {A B : Type} (f : A -> Outcome B) (l : list A) :
  (forall x, f x <> Pending) ->
  (exists x, In x l /\ forall y, f x <> Returned y) ->
  exists message, map_outcome f l = Threw message.
Proof.
  intros Hsettled. induction l as [|x l IH]; intros (bad & Hin & Hbad); [destruct Hin|].
  cbn [map_outcome]. destruct (f x) as [y|m|] eqn:Hx.
  - destruct Hin as [<- | Hin]; [now destruct (Hbad y)|].
    destruct IH as [m Hm]; [now exists bad|]. rewrite Hm. now exists m.
  - now exists m.
  - now destruct (Hsettled x).
Qed.

(** An item that [mapXtreamToStreamType] can map: it is not [null],
    and its [genre], when it has one that is truthy, is a string. *)
Definition mappable (item : JSON) : bool :=
  match item with
  | JNull => false
  | _ =>
      match get "genre" item with
      | Some (JStr _) => true
      | other => negb (truthy other)
      end
  end.

Lemma mapXtreamItem_mappable (item : JSON) :
  if mappable item
  then exists s, mapXtreamItem baseUrl username_ password_ item = Returned s
                 /\ id s = stream_id s
                 /\ username s = username_ /\ password s = password_
  else exists message, mapXtreamItem baseUrl username_ password_ item = Threw message.
Proof.
  unfold mappable, mapXtreamItem.
  destruct item as [|b|n|s|items|fields]; try (eexists; reflexivity).
  all: destruct (get "genre" _) as [[|b'|n'|g|items'|fields']|] eqn:Hg; cbn [truthy negb];
    try (eexists; reflexivity);
    try (eexists; repeat split; reflexivity).
  all: try (destruct b'; cbn [negb]; eexists; try reflexivity; repeat split; reflexivity).
  all: try (destruct (n' =? 0); cbn [negb]; eexists; try reflexivity;
            repeat split; reflexivity).
  all: try (destruct (String.eqb g ""); eexists; repeat split; reflexivity).
Qed.

(** X19.  [mapXtreamToStreamType] maps all the items of an answer or none: an
    answer that is not an array gives the empty list; an array whose
    items can all be mapped gives one stream for each item, in order,
    with the credentials of the service; one item that is [null] or
    whose [genre] is truthy and not a string makes the whole mapping
    throw. *)
Theorem mapXtreamToStreamType_all_or_nothing (data : JSON) :
  ((forall items, data <> JArr items) ->
   mapXtreamToStreamType baseUrl username_ password_ data = Returned [])
  /\ (forall items,
        data = JArr items ->
        if forallb mappable items
        then exists streams,
               mapXtreamToStreamType baseUrl username_ password_ data = Returned streams
               /\ Forall2 (fun item s =>
                             mapXtreamItem baseUrl username_ password_ item = Returned s)
                          items streams
               /\ Forall (fun s => id s = stream_id s /\ username s = username_
                                   /\ password s = password_) streams
        else exists message,
               mapXtreamToStreamType baseUrl username_ password_ data = Threw message).
Proof.
  split.
  - intros Hnot. destruct data; try reflexivity. now destruct (Hnot items).
  - intros items ->. cbn [mapXtreamToStreamType].
    destruct (forallb mappable items) eqn:Hall.
    + rewrite forallb_forall in Hall.
      destruct (map_outcome_all (mapXtreamItem baseUrl username_ password_) items)
        as (streams & Hmap & Heach).
      { intros item Hin. pose proof (mapXtreamItem_mappable item) as H.
        rewrite (Hall item Hin) in H. destruct H as (s & Hs & _). now exists s. }
      exists streams. split; [exact Hmap|]. split; [exact Heach|].
      clear Hmap. induction Heach as [|item s items streams Hs _ IH]; constructor.
      * pose proof (mapXtreamItem_mappable item) as H.
        rewrite (Hall item (or_introl eq_refl)) in H.
        destruct H as (s' & Hs' & Hfields). congruence.
      * apply IH. intros x Hx. apply Hall. now right.
    + apply map_outcome_some.
      * intros item. pose proof (mapXtreamItem_mappable item) as H.
        destruct (mappable item); [destruct H as (s & -> & _) | destruct H as (m & ->)];
          discriminate.
      * assert (Hbad : exists item, In item items /\ mappable item = false).
        { clear -Hall. induction items as [|x l IH]; [discriminate|].
          cbn [forallb] in Hall. apply andb_false_iff in Hall as [Hx | Hl].
          - exists x. split; [now left | exact Hx].
          - destruct (IH Hl) as (item & Hin & Hitem). exists item. split; [now right | exact Hitem]. }
        destruct Hbad as (item & Hin & Hitem). exists item. split; [exact Hin|].
        intros y. pose proof (mapXtreamItem_mappable item) as H. rewrite Hitem in H.
        destruct H as [m ->]. discriminate.
Qed.

(** A category that [getCategories] can map: an item that is not
    [null] and has a [category_id] that is not [null]. *)
Definition has_category_id (cat : JSON) : bool :=
  match cat with
  | JNull => false
  | _ =>
      match get "category_id" cat with
      | None | Some JNull => false
      | Some _ => true
      end
  end.

Lemma mapCategory_has_id (cat : JSON) :
  if has_category_id cat
  then exists c, mapCategory cat = Returned c
                 /\ category_name c = get "category_name" cat
  else exists message, mapCategory cat = Threw message.
Proof.
  unfold has_category_id, mapCategory.
  destruct cat as [|b|n|s|items|fields]; try (eexists; reflexivity).
  all: destruct (get "category_id" _) as [[|b'|n'|g|items'|fields']|];
    try (eexists; reflexivity); eexists; split; reflexivity.
Qed.

(** X20.  The categories of the structured mode are mapped all or none: one
    category per item of the array, in order, with the name that the
    server sent; an item without [category_id] makes the whole mapping
    throw; an answer that is not an array gives the empty list. *)
Theorem mapCategories_all_or_nothing (response : JSON) :
  ((forall items, response <> JArr items) -> mapCategories response = Returned [])
  /\ (forall items,
        response = JArr items ->
        if forallb has_category_id items
        then exists categories,
               mapCategories response = Returned categories
               /\ Forall2 (fun item c => mapCategory item = Returned c
                                         /\ category_name c = get "category_name" item)
                          items categories
        else exists message, mapCategories response = Threw message).
Proof.
  split.
  - intros Hnot. destruct response; try reflexivity. now destruct (Hnot items).
  - intros items ->. cbn [mapCategories].
    destruct (forallb has_category_id items) eqn:Hall.
    + rewrite forallb_forall in Hall.
      destruct (map_outcome_all mapCategory items) as (categories & Hmap & Heach).
      { intros item Hin. pose proof (mapCategory_has_id item) as H.
        rewrite (Hall item Hin) in H. destruct H as (c & Hc & _). now exists c. }
      exists categories. split; [exact Hmap|].
      clear Hmap. induction Heach as [|item c items categories Hc _ IH]; constructor.
      * split; [exact Hc|]. pose proof (mapCategory_has_id item) as H.
        rewrite (Hall item (or_introl eq_refl)) in H.
        destruct H as (c' & Hc' & Hname). congruence.
      * apply IH. intros x Hx. apply Hall. now right.
    + apply map_outcome_some.
      * intros item. pose proof (mapCategory_has_id item) as H.
        destruct (has_category_id item);
          [destruct H as (c & -> & _) | destruct H as (m & ->)]; discriminate.
      * assert (Hbad : exists item, In item items /\ has_category_id item = false).
        { clear -Hall. induction items as [|x l IH]; [discriminate|].
          cbn [forallb] in Hall. apply andb_false_iff in Hall as [Hx | Hl].
          - exists x. split; [now left | exact Hx].
          - destruct (IH Hl) as (item & Hin & Hitem).
            exists item. split; [now right | exact Hitem]. }
        destruct Hbad as (item & Hin & Hitem). exists item. split; [exact Hin|].
        intros y. pose proof (mapCategory_has_id item) as H. rewrite Hitem in H.
        destruct H as [m ->]. discriminate.
Qed.

End XtreamFacts.

Lemma mapXtreamToStreamType_all_or_nothing_witness :
  exists message,
    Streams.mapXtreamToStreamType "http://tv.example" "u" "p"
      (Js.JArr [Js.JObj [("stream_id"%string, Js.JNum 7); ("name"%string, Js.JStr "One")];
                Js.JNull])
    = Threw message.
Proof.
  exact (proj2 (mapXtreamToStreamType_all_or_nothing "http://tv.example" "u" "p"
                  (Js.JArr [Js.JObj [("stream_id"%string, Js.JNum 7);
                                     ("name"%string, Js.JStr "One")];
                            Js.JNull]))
           [Js.JObj [("stream_id"%string, Js.JNum 7); ("name"%string, Js.JStr "One")];
            Js.JNull]
           eq_refl).
Defined.

Lemma mapCategories_all_or_nothing_witness :
  exists message,
    Streams.mapCategories
      (Js.JArr [Js.JObj [("category_id"%string, Js.JStr "1");
                         ("category_name"%string, Js.JStr "News")];
                Js.JObj [("category_name"%string, Js.JStr "Sports")]])
    = Threw message.
Proof.
  exact (proj2 (mapCategories_all_or_nothing
                  (Js.JArr [Js.JObj [("category_id"%string, Js.JStr "1");
                                     ("category_name"%string, Js.JStr "News")];
                            Js.JObj [("category_name"%string, Js.JStr "Sports")]]))
           [Js.JObj [("category_id"%string, Js.JStr "1");
                     ("category_name"%string, Js.JStr "News")];
            Js.JObj [("category_name"%string, Js.JStr "Sports")]]
           eq_refl).
Defined.

(** ** Writing a playlist and reading it back *)

Section M3UWriteFacts.
Import Js Names M3UService MinimalM3U.








































End M3UWriteFacts.


